(** * Gnosis mind map: topology analysis, simulation merge, picking, animation

    A shallow embedding of the graph-visualisation engine of the web
    client (the [MindMap] component) and the properties of its
    specification.

    Conventions of the embedding.
    - JavaScript strings are [string]; the [Map<string, number>] objects
      [depthMap] and [islandMap] are [gmap string nat] (only [get], [has]
      and [set] are used by the source, so insertion order is immaterial);
      [Set<string>] is [gset string].
    - JavaScript numbers that carry coordinates, times and animation levels
      are rationals [Q]: IEEE rounding is idealised as exact arithmetic,
      except in picking (the pointer taken relative to the canvas, its
      conversion with the transform and the distance test), whose outcome
      turns on the rounding and which is computed in double arithmetic.
      Depths and island indices are [nat].
    - SimNode objects are mutable and shared between [simNodesRef], the
      links and the simulation; they live in a store ([list SimNode]
      addressed by position) and the arrays hold references into it.
    - [Date.now()] and [Math.random()] are inputs of an update.
    - The force simulation and the zoom behaviour are the d3 libraries:
      of them the model keeps that a tick writes positions and velocities
      and that a zoom event delivers a transform within the scale extent.
    - The reducers of the [useGraphState] hook, which feeds the component
      its nodes and edges, are functions on the hook's state; the two refs
      behind [getContext] are threaded through its calls. *)

From Stdlib Require Import QArith Qabs Qround Qpower Lqa.
From stdpp Require Import gmap strings list fin_maps sorting pretty.

#[local] Set Warnings "-clear-no-such-hyp".

(** ** External graph data *)

Inductive NodeType := root | generated.

Global Instance NodeType_eq_dec : EqDecision NodeType.
Proof. solve_decision. Defined.

Module GraphNode.
Record t := mk
  { id : string; label : string; type : NodeType; reason : option string }.
End GraphNode.

Module GraphEdge.
Record t := mk
  { source : string; target : string; label : option string }.
End GraphEdge.

(** ** Topology analysis: [calculateDepthsAndIslands] *)

Module Topology.

(** The two maps the function returns. *)
Record Maps := mkMaps
  { depthMap : gmap string nat; islandMap : gmap string nat }.

(** The state of one traversal: the work queue of [{id, depth}] entries
    and the two maps being filled in. *)
Record Bfs := mkBfs
  { queue : list (string * nat); maps : Maps }.

(** [edges.filter((e) => e.source === current.id).map((e) => e.target)] *)
Definition children (edges : list GraphEdge.t) (current : string) : list string :=
  GraphEdge.target <$> filter (λ e, GraphEdge.source e = current) edges.

(** Body of [for (const childId of children)]: an id without a depth is
    given [current.depth + 1], the island of the running root, and is
    pushed on the queue. *)
Definition visitChild (islandIndex depth : nat) (s : Bfs) (childId : string) : Bfs :=
  match depthMap (maps s) !! childId with
  | Some _ => s
  | None =>
      mkBfs (queue s ++ [(childId, S depth)])
            (mkMaps (<[childId := S depth]> (depthMap (maps s)))
                    (<[childId := islandIndex]> (islandMap (maps s))))
  end.

(** One iteration of the [while] loop, after [queue.shift()]. *)
Definition visitCurrent (edges : list GraphEdge.t) (islandIndex : nat)
    (current : string * nat) (rest : list (string * nat)) (m : Maps) : Bfs :=
  foldl (visitChild islandIndex current.2) (mkBfs rest m) (children edges current.1).

(** [while (queue.length > 0) { ... }]; [None] when the fuel is used up
    before the queue is empty. *)
Fixpoint bfsLoop (fuel : nat) (edges : list GraphEdge.t) (islandIndex : nat)
    (s : Bfs) : option Maps :=
  match queue s with
  | [] => Some (maps s)
  | current :: rest =>
      match fuel with
      | O => None
      | S fuel' =>
          bfsLoop fuel' edges islandIndex
                  (visitCurrent edges islandIndex current rest (maps s))
      end
  end.

(** The seed of one root: queue [[{id, depth: 0}]] and the two
    unconditional [set] calls. *)
Definition seed (islandIndex : nat) (rootNode : GraphNode.t) (m : Maps) : Bfs :=
  mkBfs [(GraphNode.id rootNode, 0)]
        (mkMaps (<[GraphNode.id rootNode := 0]> (depthMap m))
                (<[GraphNode.id rootNode := islandIndex]> (islandMap m))).

(** Every traversal dequeues at most one entry per edge target, plus the
    seed. *)
Definition fuelFor (edges : list GraphEdge.t) : nat := S (length edges).

(** Callback of [rootNodes.forEach((rootNode, islandIndex) => ...)]. *)
Definition processRoot (edges : list GraphEdge.t) (islandIndex : nat)
    (rootNode : GraphNode.t) (m : Maps) : option Maps :=
  bfsLoop (fuelFor edges) edges islandIndex (seed islandIndex rootNode m).

(** [forEach] over the roots from index [islandIndex] on. *)
Fixpoint forEachRoot (edges : list GraphEdge.t) (islandIndex : nat)
    (rootNodes : list GraphNode.t) (m : Maps) : option Maps :=
  match rootNodes with
  | [] => Some m
  | rootNode :: rest =>
      match processRoot edges islandIndex rootNode m with
      | Some m' => forEachRoot edges (S islandIndex) rest m'
      | None => None
      end
  end.

Definition emptyMaps : Maps := mkMaps ∅ ∅.

(** [nodes.filter((n) => n.type === "root")] *)
Definition rootNodesOf (nodes : list GraphNode.t) : list GraphNode.t :=
  filter (λ n, GraphNode.type n = root) nodes.

(** The body of the function, with the fuel of the loops made explicit. *)
Definition calculateDepthsAndIslands_fuel
    (nodes : list GraphNode.t) (edges : list GraphEdge.t) : option Maps :=
  let rootNodes := rootNodesOf nodes in
  if decide (length rootNodes = 0) then Some emptyMaps
  else forEachRoot edges 0 rootNodes emptyMaps.

(** The function itself; [calculateDepthsAndIslands_returns] below shows
    that the fuel is never exhausted, so the default is never taken. *)
Definition calculateDepthsAndIslands
    (nodes : list GraphNode.t) (edges : list GraphEdge.t) : Maps :=
  default emptyMaps (calculateDepthsAndIslands_fuel nodes edges).

End Topology.

(** ** Island membership in the graph state hook: [getIslandNodes] *)

Module GraphState.

Record Walk := mkWalk
  { visited : gset string; queue : list string; islandNodes : list GraphNode.t }.

(** Callback of [edges.forEach]: the two [if]s, one per direction. *)
Definition pushNeighbours (nodeId : string) (visited : gset string)
    (queue : list string) (e : GraphEdge.t) : list string :=
  let queue1 :=
    if decide (GraphEdge.source e = nodeId ∧ GraphEdge.target e ∉ visited)
    then queue ++ [GraphEdge.target e] else queue in
  if decide (GraphEdge.target e = nodeId ∧ GraphEdge.source e ∉ visited)
  then queue1 ++ [GraphEdge.source e] else queue1.

Fixpoint walk (fuel : nat) (nodes : list GraphNode.t) (edges : list GraphEdge.t)
    (w : Walk) : option (list GraphNode.t) :=
  match queue w with
  | [] => Some (islandNodes w)
  | nodeId :: rest =>
      match fuel with
      | O => None
      | S fuel' =>
          if decide (nodeId ∈ visited w)
          then walk fuel' nodes edges (mkWalk (visited w) rest (islandNodes w))
          else
            let visited' := {[nodeId]} ∪ visited w in
            let islandNodes' :=
              match find (λ n, bool_decide (GraphNode.id n = nodeId)) nodes with
              | Some node => islandNodes w ++ [node]
              | None => islandNodes w
              end in
            walk fuel' nodes edges
                 (mkWalk visited' (foldl (pushNeighbours nodeId visited') rest edges)
                         islandNodes')
      end
  end.

(** Every entry dequeued is the root id or was pushed for one end of an
    edge whose other end was being visited for the first time: at most one
    entry per end of an edge. *)
Definition fuelFor (edges : list GraphEdge.t) : nat :=
  S (2 * length edges).

Definition getIslandNodes (nodes : list GraphNode.t) (edges : list GraphEdge.t)
    (rootId : string) : option (list GraphNode.t) :=
  walk (fuelFor edges) nodes edges (mkWalk ∅ [rootId] []).

End GraphState.

(** ** The reducers of the graph state hook: [useGraphState] *)

Module GraphStore.

Record LogEntry := mkLog
  { id : string; timestamp : Z; topic : string; reasoning : string; nodeCount : nat }.

(** The state held by [useState]. *)
Record State := mkState
  { nodes : list GraphNode.t; edges : list GraphEdge.t; logs : list LogEntry }.

Definition MAX_CONTEXT_NODES : nat := 10.

(** The template string [`${e.source}->${e.target}`]. *)
Definition edgeKey (e : GraphEdge.t) : string :=
  GraphEdge.source e +:+ "->" +:+ GraphEdge.target e.

Definition addNode (node : GraphNode.t) (prev : State) : State :=
  if existsb (λ n, bool_decide (GraphNode.id n = GraphNode.id node)) (nodes prev)
  then prev
  else mkState (nodes prev ++ [node]) (edges prev) (logs prev).

Definition addNodes (newNodes : list GraphNode.t) (prev : State) : State :=
  let existingIds : gset string := list_to_set (GraphNode.id <$> nodes prev) in
  let uniqueNewNodes := filter (λ n, GraphNode.id n ∉ existingIds) newNodes in
  if decide (length uniqueNewNodes = 0) then prev
  else mkState (nodes prev ++ uniqueNewNodes) (edges prev) (logs prev).

(** The callback of [newEdges.filter] in [addNodesAndEdges] and [addEdges]:
    an edge is kept when both ends are valid and its key is not there. *)
Definition keepEdge (validNodeIds existingEdges : gset string) (e : GraphEdge.t)
    : Prop :=
  GraphEdge.source e ∈ validNodeIds ∧ GraphEdge.target e ∈ validNodeIds ∧
  edgeKey e ∉ existingEdges.

Global Instance keepEdge_dec validNodeIds existingEdges e :
  Decision (keepEdge validNodeIds existingEdges e).
Proof. unfold keepEdge. apply _. Defined.

Definition addNodesAndEdges (newNodes : list GraphNode.t)
    (newEdges : list GraphEdge.t) (prev : State) : State :=
  let existingIds : gset string := list_to_set (GraphNode.id <$> nodes prev) in
  let uniqueNewNodes := filter (λ n, GraphNode.id n ∉ existingIds) newNodes in
  let updatedNodes := nodes prev ++ uniqueNewNodes in
  let validNodeIds : gset string := list_to_set (GraphNode.id <$> updatedNodes) in
  let existingEdges : gset string := list_to_set (edgeKey <$> edges prev) in
  let uniqueNewEdges := filter (keepEdge validNodeIds existingEdges) newEdges in
  mkState updatedNodes (edges prev ++ uniqueNewEdges) (logs prev).

Definition addEdge (edge : GraphEdge.t) (prev : State) : State :=
  if existsb (λ e, bool_decide (GraphEdge.source e = GraphEdge.source edge) &&
                   bool_decide (GraphEdge.target e = GraphEdge.target edge))
             (edges prev)
  then prev
  else mkState (nodes prev) (edges prev ++ [edge]) (logs prev).

Definition addEdges (newEdges : list GraphEdge.t) (prev : State) : State :=
  let validNodeIds : gset string := list_to_set (GraphNode.id <$> nodes prev) in
  let existingEdges : gset string := list_to_set (edgeKey <$> edges prev) in
  let uniqueNewEdges := filter (keepEdge validNodeIds existingEdges) newEdges in
  if decide (length uniqueNewEdges = 0) then prev
  else mkState (nodes prev) (edges prev ++ uniqueNewEdges) (logs prev).

(** [addLogEntry]; the generated id and the current date are inputs. *)
Definition addLogEntry (entryId : string) (date : Z) (topic reasoning : string)
    (nodeCount : nat) (prev : State) : State :=
  mkState (nodes prev) (edges prev)
          (mkLog entryId date topic reasoning nodeCount :: logs prev).

Definition clearGraph : State := mkState [] [] [].

Definition hasNodes (s : State) : bool := bool_decide (0 < length (nodes s)).

Definition getRootNodes (s : State) : list GraphNode.t :=
  filter (λ n, GraphNode.type n = root) (nodes s).

(** The two refs behind [getContext]. *)
Record ContextCache := mkCache
  { contextRef : list string; contextNodesLengthRef : nat }.

Definition initialCache : ContextCache := mkCache [] 0.

(** [nodes.slice(-MAX_CONTEXT_NODES).map((n) => n.label)] *)
Definition recentLabels (nodes : list GraphNode.t) : list string :=
  GraphNode.label <$> drop (length nodes - MAX_CONTEXT_NODES) nodes.

(** [getContext]: the refs after the call and the array returned. *)
Definition getContext (s : State) (c : ContextCache) : ContextCache * list string :=
  if decide (length (nodes s) ≠ contextNodesLengthRef c)
  then (mkCache (recentLabels (nodes s)) (length (nodes s)), recentLabels (nodes s))
  else (c, contextRef c).

(** [getIslandNodes] of the hook on its own nodes and edges. *)
Definition getIslandNodes (s : State) (rootId : string) : list GraphNode.t :=
  default [] (GraphState.getIslandNodes (nodes s) (edges s) rootId).

(** [getNodesPerIsland]: a [Map] from root id to the nodes of its island. *)
Definition getNodesPerIsland (s : State) : gmap string (list GraphNode.t) :=
  foldl (λ m r, <[GraphNode.id r := getIslandNodes s (GraphNode.id r)]> m)
        ∅ (getRootNodes s).

(** The source node of an expansion typed into the bar ([performExpand] of
    the page): the first root, else the first node. *)
Definition expansionSource (s : State) : option GraphNode.t :=
  match find (λ n, bool_decide (GraphNode.type n = root)) (nodes s) with
  | Some n => Some n
  | None => head (nodes s)
  end.

End GraphStore.

(** ** Numbers *)

Module Num.
Local Open Scope Q_scope.

(** [a < b] on JavaScript numbers. *)
Definition ltb (a b : Q) : bool := negb (Qle_bool b a).

(** [Math.min]. *)
Definition min (a b : Q) : Q := if Qle_bool a b then a else b.

(** [Math.round]: the nearest integer, halves rounded up. *)
Definition round (a : Q) : Z := Qfloor (a + (1 # 2)).

(** *** Double arithmetic

    Picking compares a rounded square root with the radius, so its
    operations are not idealised: each is the exact operation followed by
    rounding to the nearest double, ties to even. A double has 53
    significant bits. The exponent range of doubles is not modelled (no
    overflow to [Infinity], no subnormal numbers): the numbers of picking
    are taken to stay within it. *)

(** Round to the nearest integer, ties to the even one. *)
Definition roundEven (q : Q) : Z :=
  let f := Qfloor q in
  match Qcompare (q - inject_Z f) (1 # 2) with
  | Lt => f
  | Gt => (f + 1)%Z
  | Eq => if Z.even f then f else (f + 1)%Z
  end.

(** The binary exponent [l] of a positive number: [2^l <= q < 2^(l+1)]. *)
Definition ilog2 (q : Q) : Z :=
  let l := (Z.log2 (Qnum q) - Z.log2 (Zpos (Qden q)))%Z in
  if Qle_bool (2 ^ l) q then l else (l - 1)%Z.

(** The double nearest to a positive number: a 53-bit integer times a
    power of two. *)
Definition nearestPos (q : Q) : Q :=
  let e := (ilog2 q - 52)%Z in
  inject_Z (roundEven (q * 2 ^ (- e))) * 2 ^ e.

(** The double nearest to a number. *)
Definition nearest (q : Q) : Q :=
  let r := Qred q in
  match Qnum r with
  | Z0 => 0
  | Zpos _ => nearestPos r
  | Zneg _ => - nearestPos (- r)
  end.

(** [a - b], [a + b], [a * b] and, for a divisor other than zero,
    [a / b] on doubles. *)
Definition sub (a b : Q) : Q := nearest (a - b).
Definition add (a b : Q) : Q := nearest (a + b).
Definition mul (a b : Q) : Q := nearest (a * b).
Definition div (a b : Q) : Q := nearest (a / b).

(** The integer nearest to the square root of [t], ties to even. *)
Definition sqrtMantissa (t : Q) : Z :=
  let m := Z.sqrt (Qfloor t) in
  let mid := inject_Z m + (1 # 2) in
  match Qcompare t (mid * mid) with
  | Lt => m
  | Gt => (m + 1)%Z
  | Eq => if Z.even m then m else (m + 1)%Z
  end.

(** The double nearest to the square root of a positive number. *)
Definition sqrtPos (s : Q) : Q :=
  let e := (ilog2 s / 2 - 52)%Z in
  inject_Z (sqrtMantissa (s * 2 ^ (- (2 * e)))) * 2 ^ e.

(** [Math.sqrt]: the double nearest to the square root. It is applied to
    sums of squares only; the [NaN] of a negative argument is not
    modelled. *)
Definition sqrt (s : Q) : Q :=
  let r := Qred s in
  match Qnum r with
  | Zpos _ => sqrtPos r
  | _ => 0
  end.

(** [Math.PI], the double nearest to pi, is the rational
    884279719003555 / 2^48. *)
Definition PI : Q := 884279719003555 # 281474976710656.
End Num.

(** ** Colours *)

Module Colour.
Local Open Scope Z_scope.

(** A CSS colour as the source builds it: the template string
    [hsl(h, s%, l%)] or a hex literal. *)
Inductive t :=
| hsl (h s l : Z)
| hex (code : string).

Definition startHue : Z := 0.
Definition endHue : Z := 270.
Definition saturation : Z := 85.
Definition lightness : Z := 55.
Definition maxDepth : Z := 8.

Definition getColorByDepth (depth : nat) : t :=
  let d := Z.of_nat depth in
  let t := Num.min (inject_Z d / inject_Z maxDepth) 1 in
  let hue := Num.round (inject_Z startHue + inject_Z (endHue - startHue) * t) in
  let sat := if maxDepth <? d then Z.max 50 (saturation - (d - maxDepth) * 5)
             else saturation in
  hsl hue sat lightness.

Definition ISLAND_HUE_OFFSETS : list Z := [0; 120; 240; 60; 180; 300; 30; 150; 270; 90].

(** The regular expression [hsl\((\d+),\s*(\d+)%,\s*(\d+)%\)] matches the
    template string exactly when the three numbers print as digit
    sequences, that is, when none is negative. *)
Definition getColorByDepthAndIsland (depth islandIndex : nat) : t :=
  let baseColor := getColorByDepth depth in
  if decide (islandIndex = 0%nat) then baseColor
  else match baseColor with
       | hsl h s l =>
           if (0 <=? h) && (0 <=? s) && (0 <=? l) then
             let hueOffset :=
               default 0 (ISLAND_HUE_OFFSETS !! (islandIndex mod length ISLAND_HUE_OFFSETS)%nat) in
             hsl ((h + hueOffset) mod 360) s l
           else baseColor
       | hex _ => baseColor
       end.
End Colour.

(** ** The depth legend *)

Module Legend.
Local Open Scope string_scope.

Record LabelInfo := mkLabel { ofDepth : nat; name : string; about : string }.

Definition DEPTH_LABELS : list LabelInfo :=
  [ mkLabel 0 "Origin" "Main topic";
    mkLabel 1 "Direct" "First-level connections";
    mkLabel 2 "Related" "Secondary concepts";
    mkLabel 3 "Extended" "Tertiary relationships";
    mkLabel 4 "Distant" "Peripheral ideas";
    mkLabel 5 "Far" "Remote connections" ].

Record Item := mkItem
  { depth : nat; color : Colour.t; label : string; description : string }.

(** [DEPTH_LABELS[d] ?? { label: `Depth ${d}`, description: ... }] *)
Definition labelInfo (d : nat) : string * string :=
  match DEPTH_LABELS !! d with
  | Some info => (name info, about info)
  | None => ("Depth " +:+ pretty d, "Extended connections")
  end.

(** The object pushed by the loop body. *)
Definition itemAt (d : nat) : Item :=
  mkItem d (Colour.getColorByDepth d) (labelInfo d).1 (labelInfo d).2.

(** [for (let d = 0; d < displayDepths; d++) items.push(...)] *)
Fixpoint loop (fuel d : nat) (displayDepths : Q) (items : list Item)
    : option (list Item) :=
  match fuel with
  | O => None
  | S fuel =>
      if Num.ltb (inject_Z (Z.of_nat d)) displayDepths
      then loop fuel (S d) displayDepths (items ++ [itemAt d])
      else Some items
  end.

Definition getDepthLegend (maxDepth : Q) : option (list Item) :=
  loop 7 0 (Num.min (maxDepth + 1) 6)%Q [].

End Legend.

(** ** Simulation nodes and links *)

Module SimNode.
(** [x], [y], [vx], [vy] are the optional fields of d3's
    [SimulationNodeDatum]. *)
Record t := mk
  { id : string; label : string; type : NodeType; reason : option string;
    depth : nat; islandIndex : nat;
    x : option Q; y : option Q; vx : option Q; vy : option Q;
    entranceProgress : Q; entranceStartTime : Q;
    scale : Q; glowIntensity : Q; pulsePhase : Q }.

(** The fields owned by the layout and by the animation. *)
Definition physics (n : t) : option Q * option Q * option Q * option Q :=
  (x n, y n, vx n, vy n).
Definition animation (n : t) : Q * Q * Q * Q * Q :=
  (entranceProgress n, entranceStartTime n, scale n, glowIntensity n, pulsePhase n).

(** The payload handed to [onNodeClick]. *)
Definition toGraphNode (n : t) : GraphNode.t :=
  GraphNode.mk (id n) (label n) (type n) (reason n).
End SimNode.

(** A reference to a SimNode object in the store. *)
Abbreviation ref := nat (only parsing).

Module SimLink.
Record t := mk { source : ref; target : ref; label : option string }.
End SimLink.

(** ** The component *)

Module MindMap.
Import Topology.
Local Open Scope Q_scope.

Definition NODE_RADIUS : Q := 12.
Definition HIT_RADIUS : Q := 40.

(** d3's [ZoomTransform]; [tx] and [ty] are its fields [x] and [y]. *)
Record ZoomTransform := mkTransform { tx : Q; ty : Q; k : Q }.
Definition zoomIdentity : ZoomTransform := mkTransform 0 0 1.

(** The refs and state hooks of the component, and the store of SimNode
    objects they point into. *)
Record State := mkState
  { store : list SimNode.t;
    simNodesRef : list ref;
    simLinksRef : list SimLink.t;
    prevNodeIdsRef : gset string;
    transformRef : ZoomTransform;
    needsRedrawRef : bool;
    isSimulationActiveRef : bool;
    hoveredNode : option ref;
    selectedNode : option ref }.

Definition initial : State :=
  mkState [] [] [] ∅ zoomIdentity true false None None.

(** What an update reads from its surroundings: [Date.now()], the
    [dimensions] state and the successive results of [Math.random()]
    during this run of the effect. *)
Record Env := mkEnv
  { now : Q; width : Q; height : Q; random : nat → Q }.

(** [new Map(pairs)]: later pairs replace earlier ones. *)
Definition jsMap {V} (pairs : list (string * V)) : gmap string V :=
  foldl (λ m p, <[p.1 := p.2]> m) ∅ pairs.

(** [refs.map((n) => [n.id, n])] read through the store. *)
Definition idPairs (st : list SimNode.t) (refs : list ref) : list (string * ref) :=
  omap (λ r, (λ n, (SimNode.id n, r)) <$> st !! r) refs.

(** The accumulator of [nodes.map(...)]: the store, the number of random
    draws made and the array built so far. *)
Record Merge := mkMerge
  { mstore : list SimNode.t; draws : nat; out : list ref }.

(** Branch [if (existing)]: five fields are assigned on the object. *)
Definition refresh (tm : Maps) (node : GraphNode.t) (existing : SimNode.t) : SimNode.t :=
  SimNode.mk (SimNode.id existing)
    (GraphNode.label node) (GraphNode.type node) (GraphNode.reason node)
    (default 0%nat (depthMap tm !! GraphNode.id node))
    (default 0%nat (islandMap tm !! GraphNode.id node))
    (SimNode.x existing) (SimNode.y existing)
    (SimNode.vx existing) (SimNode.vy existing)
    (SimNode.entranceProgress existing) (SimNode.entranceStartTime existing)
    (SimNode.scale existing) (SimNode.glowIntensity existing)
    (SimNode.pulsePhase existing).

(** Branch [else]: the object literal of a new node. *)
Definition create (tm : Maps) (env : Env) (isNew : bool) (d : nat)
    (node : GraphNode.t) : SimNode.t :=
  SimNode.mk (GraphNode.id node)
    (GraphNode.label node) (GraphNode.type node) (GraphNode.reason node)
    (default 0%nat (depthMap tm !! GraphNode.id node))
    (default 0%nat (islandMap tm !! GraphNode.id node))
    (Some (width env / 2 + (random env d - (1 # 2)) * 50))
    (Some (height env / 2 + (random env (S d) - (1 # 2)) * 50))
    None None
    (if isNew then 0 else 1)
    (if isNew then now env else 0)
    1 (4 # 10)
    (random env (S (S d)) * Num.PI * 2).

(** Callback of [nodes.map((node) => ...)]. *)
Definition mergeNode (existingNodes : gmap string ref) (prev : gset string)
    (tm : Maps) (env : Env) (acc : Merge) (node : GraphNode.t) : Merge :=
  let existing := existingNodes !! GraphNode.id node in
  let isNew := bool_decide (GraphNode.id node ∉ prev) && bool_decide (0 < size prev)%nat in
  match existing with
  | Some r =>
      mkMerge (alter (refresh tm node) r (mstore acc)) (draws acc) (out acc ++ [r])
  | None =>
      mkMerge (mstore acc ++ [create tm env isNew (draws acc) node])
              (draws acc + 3)
              (out acc ++ [length (mstore acc)])
  end.

(** [edges.filter(...).map(...)] of the link construction. *)
Definition buildLinks (nodeMap : gmap string ref) (edges : list GraphEdge.t)
    : list SimLink.t :=
  (λ edge, SimLink.mk (nodeMap !!! GraphEdge.source edge)
                      (nodeMap !!! GraphEdge.target edge)
                      (GraphEdge.label edge))
    <$> filter (λ e, is_Some (nodeMap !! GraphEdge.source e) ∧
                     is_Some (nodeMap !! GraphEdge.target e)) edges.

(** The effect run when [nodes], [edges] or the dimensions change, up to
    the hand-over of the arrays to the d3 simulation. *)
Definition update (env : Env) (nodes : list GraphNode.t) (edges : list GraphEdge.t)
    (s : State) : State :=
  let tm := calculateDepthsAndIslands nodes edges in
  let currentNodeIds : gset string := list_to_set (GraphNode.id <$> nodes) in
  let existingNodes := jsMap (idPairs (store s) (simNodesRef s)) in
  let merged :=
    foldl (mergeNode existingNodes (prevNodeIdsRef s) tm env)
          (mkMerge (store s) 0 []) nodes in
  let newSimNodes := out merged in
  let nodeMap := jsMap (idPairs (mstore merged) newSimNodes) in
  let newSimLinks := buildLinks nodeMap edges in
  mkState (mstore merged) newSimNodes newSimLinks currentNodeIds
          (transformRef s) true true (hoveredNode s) (selectedNode s).

(** The SimNode objects of the current array, in order. *)
Definition simNodes (s : State) : list SimNode.t :=
  omap (λ r, store s !! r) (simNodesRef s).

(** *** Viewport *)

(** Where the canvas paints the user-space point [(x, y)] after
    [ctx.translate(transform.x, transform.y)] and
    [ctx.scale(transform.k, transform.k)]. *)
Definition toScreen (t : ZoomTransform) (p : Q * Q) : Q * Q :=
  (p.1 * k t + tx t, p.2 * k t + ty t).

(** The inverse of [toScreen]: the simulation point painted at a canvas
    point. *)
Definition toSimulation (t : ZoomTransform) (p : Q * Q) : Q * Q :=
  ((p.1 - tx t) / k t, (p.2 - ty t) / k t).

(** [graphX] and [graphY] of [findNodeAtPosition], as the code computes
    them: [(screenX - transform.x) / transform.k], in double
    arithmetic. *)
Definition toGraph (t : ZoomTransform) (p : Q * Q) : Q * Q :=
  (Num.div (Num.sub p.1 (tx t)) (k t), Num.div (Num.sub p.2 (ty t)) (k t)).

(** The scale extent given to d3-zoom: [scaleExtent([0.2, 5])]. *)
Definition inScaleExtent (t : ZoomTransform) : Prop :=
  (2 # 10) <= k t ∧ k t <= 5.

(** *** Picking *)

(** The body of the loop up to its test [distance < HIT_RADIUS], in
    double arithmetic. *)
Definition hit (graph : Q * Q) (node : SimNode.t) : bool :=
  let dx := Num.sub (default 0 (SimNode.x node)) graph.1 in
  let dy := Num.sub (default 0 (SimNode.y node)) graph.2 in
  let distance := Num.sqrt (Num.add (Num.mul dx dx) (Num.mul dy dy)) in
  Num.ltb distance HIT_RADIUS.

(** [for (const node of simNodesRef.current) { ... return node }] *)
Fixpoint scanNodes (st : list SimNode.t) (graph : Q * Q) (refs : list ref)
    : option ref :=
  match refs with
  | [] => None
  | r :: rest =>
      match st !! r with
      | Some node => if hit graph node then Some r else scanNodes st graph rest
      | None => scanNodes st graph rest
      end
  end.

Definition findNodeAtPosition (s : State) (screenX screenY : Q) : option ref :=
  let transform := transformRef s in
  scanNodes (store s) (toGraph transform (screenX, screenY)) (simNodesRef s).

(** The props read by the handlers ([onNodeClick] records whether a
    callback was passed; [expandingNodeId] is [None] for [null]). *)
Record Props := mkProps
  { isExpanding : bool; expandingNodeId : option string; onNodeClick : bool }.

(** The part of [getBoundingClientRect()] that is read. *)
Record Rect := mkRect { left : Q; top : Q }.

(** [handleCanvasClick]: the new state and the argument of the
    [onNodeClick] call, if one is made. *)
Definition handleCanvasClick (props : Props) (rect : option Rect)
    (clientX clientY : Q) (s : State) : State * option GraphNode.t :=
  if isExpanding props then (s, None)
  else match rect with
       | None => (s, None)
       | Some rect =>
           let x := Num.sub clientX (left rect) in
           let y := Num.sub clientY (top rect) in
           match findNodeAtPosition s x y with
           | Some hitNode =>
               (mkState (store s) (simNodesRef s) (simLinksRef s) (prevNodeIdsRef s)
                        (transformRef s) (needsRedrawRef s) (isSimulationActiveRef s)
                        (hoveredNode s) (Some hitNode),
                if onNodeClick props
                then SimNode.toGraphNode <$> store s !! hitNode
                else None)
           | None => (s, None)
           end
       end.

(** *** Animation and drawing *)

(** [hoveredNode?.id] and [selectedNode?.id]. *)
Definition idOf (s : State) (o : option ref) : option string :=
  match o with
  | Some r => SimNode.id <$> store s !! r
  | None => None
  end.

Definition targetScale (isNodeExpanding isHovered : bool) : Q :=
  if isNodeExpanding then 125 # 100
  else if isHovered then 115 # 100
  else 1.

Definition targetGlow (isNodeExpanding isSelected isHovered : bool) : Q :=
  if isNodeExpanding then 9 # 10
  else if isSelected then 85 # 100
  else if isHovered then 7 # 10
  else 4 # 10.

(** Body of the loop under [// Update animations]. *)
Definition animate (now dt : Q) (hoveredId selectedId expanding : option string)
    (node : SimNode.t) : SimNode.t :=
  let entranceProgress :=
    if Num.ltb (SimNode.entranceProgress node) 1
    then Num.min 1 ((now - SimNode.entranceStartTime node) / 600)
    else SimNode.entranceProgress node in
  let isHovered := bool_decide (hoveredId = Some (SimNode.id node)) in
  let isSelected := bool_decide (selectedId = Some (SimNode.id node)) in
  let isNodeExpanding := bool_decide (expanding = Some (SimNode.id node)) in
  let scale :=
    SimNode.scale node
    + (targetScale isNodeExpanding isHovered - SimNode.scale node) * (2 # 10) in
  let glowIntensity :=
    SimNode.glowIntensity node
    + (targetGlow isNodeExpanding isSelected isHovered - SimNode.glowIntensity node)
      * (2 # 10) in
  let pulsePhase :=
    if isNodeExpanding || isSelected
    then SimNode.pulsePhase node
         + dt / (if isNodeExpanding then 1200 else 3000) * Num.PI * 2
    else SimNode.pulsePhase node in
  SimNode.mk (SimNode.id node) (SimNode.label node) (SimNode.type node)
    (SimNode.reason node) (SimNode.depth node) (SimNode.islandIndex node)
    (SimNode.x node) (SimNode.y node) (SimNode.vx node) (SimNode.vy node)
    entranceProgress (SimNode.entranceStartTime node)
    scale glowIntensity pulsePhase.

(** One call of [render], without the painting: the redraw test and the
    animation loop over [simNodesRef.current]. *)
Definition render (props : Props) (lastTime now : Q) (s : State) : State :=
  let dt := now - lastTime in
  let hasActiveAnimations :=
    existsb (λ node, Num.ltb (SimNode.entranceProgress node) 1) (simNodes s) in
  let shouldRedraw :=
    needsRedrawRef s || isSimulationActiveRef s || hasActiveAnimations
    || bool_decide (expandingNodeId props ≠ None) in
  if negb shouldRedraw then s
  else
    let st :=
      foldl (λ st r,
               alter (animate now dt (idOf s (hoveredNode s)) (idOf s (selectedNode s))
                              (expandingNodeId props)) r st)
            (store s) (simNodesRef s) in
    mkState st (simNodesRef s) (simLinksRef s) (prevNodeIdsRef s)
            (transformRef s) false (isSimulationActiveRef s)
            (hoveredNode s) (selectedNode s).

(** The colour a node is painted with, [None] when the node is skipped
    by [if (progress <= 0) continue]. *)
Definition nodeColor (props : Props) (node : SimNode.t) : option Colour.t :=
  if Qle_bool (SimNode.entranceProgress node) 0 then None
  else Some (if bool_decide (expandingNodeId props = Some (SimNode.id node))
             then Colour.hex "#f59e0b"
             else Colour.getColorByDepthAndIsland
                    (SimNode.depth node) (SimNode.islandIndex node)).

(** *** The other handlers and the runs of the component *)

(** [handleMouseMove] once past its 16 ms throttle: the hovered node
    becomes the picked one. *)
Definition handleMouseMove (rect : option Rect) (clientX clientY : Q)
    (s : State) : State :=
  match rect with
  | None => s
  | Some rect =>
      let x := Num.sub clientX (left rect) in
      let y := Num.sub clientY (top rect) in
      let hitNode := findNodeAtPosition s x y in
      if decide (hitNode = hoveredNode s) then s
      else mkState (store s) (simNodesRef s) (simLinksRef s) (prevNodeIdsRef s)
                   (transformRef s) true (isSimulationActiveRef s)
                   hitNode (selectedNode s)
  end.

(** The [onMouseLeave] handler. *)
Definition handleMouseLeave (s : State) : State :=
  mkState (store s) (simNodesRef s) (simLinksRef s) (prevNodeIdsRef s)
          (transformRef s) (needsRedrawRef s) (isSimulationActiveRef s)
          None (selectedNode s).

(** The ["zoom"] listener. *)
Definition onZoom (transform : ZoomTransform) (s : State) : State :=
  mkState (store s) (simNodesRef s) (simLinksRef s) (prevNodeIdsRef s)
          transform true (isSimulationActiveRef s)
          (hoveredNode s) (selectedNode s).

Definition setPhysics (p : option Q * option Q * option Q * option Q)
    (n : SimNode.t) : SimNode.t :=
  SimNode.mk (SimNode.id n) (SimNode.label n) (SimNode.type n) (SimNode.reason n)
    (SimNode.depth n) (SimNode.islandIndex n)
    p.1.1.1 p.1.1.2 p.1.2 p.2
    (SimNode.entranceProgress n) (SimNode.entranceStartTime n)
    (SimNode.scale n) (SimNode.glowIntensity n) (SimNode.pulsePhase n).

(** A tick of the force simulation. The simulation is the d3-force
    library, not code of the repository: this is an assumption about it,
    made to say which states the component can be in, and not an embedding.
    All that is fixed here is that it writes the position and
    the velocity of the nodes it was given ([move] is whatever the forces
    compute) and that the ["tick"] listener then sets the two flags
    ([active] is [sim.alpha() > 0.001]). *)
Definition onTick (move : SimNode.t → option Q * option Q * option Q * option Q)
    (active : bool) (s : State) : State :=
  mkState (foldl (λ st r, alter (λ n, setPhysics (move n) n) r st)
                 (store s) (simNodesRef s))
          (simNodesRef s) (simLinksRef s) (prevNodeIdsRef s)
          (transformRef s) true active (hoveredNode s) (selectedNode s).

(** The states the component can be in: from the initial refs, any
    sequence of updates, frames, ticks and pointer events. d3-zoom keeps
    the scale of the transforms it reports within the extent it was
    given. *)
Inductive reachable : State → Prop :=
| reach_initial : reachable initial
| reach_update env nodes edges s :
    reachable s → reachable (update env nodes edges s)
| reach_render props lastTime now s :
    reachable s → reachable (render props lastTime now s)
| reach_tick move active s :
    reachable s → reachable (onTick move active s)
| reach_zoom transform s :
    inScaleExtent transform → reachable s → reachable (onZoom transform s)
| reach_click props rect clientX clientY s :
    reachable s → reachable (handleCanvasClick props rect clientX clientY s).1
| reach_move rect clientX clientY s :
    reachable s → reachable (handleMouseMove rect clientX clientY s)
| reach_leave s :
    reachable s → reachable (handleMouseLeave s).

End MindMap.

(** ** What a frame paints *)

Module Paint.
Import MindMap.
Local Open Scope Q_scope.

(** [opacity] and [glowRadius] of the loop under [// Draw nodes]: the
    value given to [ctx.globalAlpha] and the outer radius of the glow. *)
Definition opacity (node : SimNode.t) : Q :=
  Num.min 1 (SimNode.entranceProgress node * (15 # 10)).

Definition glowRadius (node : SimNode.t) : Q :=
  NODE_RADIUS * (35 # 10) * (1 + SimNode.glowIntensity node * (2 # 10)).

End Paint.

(** * Vocabulary of the statements *)

Module TopologyVocab.
Import Topology.

(** The ids that occur as the target of some edge. *)
Definition targets (edges : list GraphEdge.t) : gset string :=
  list_to_set (GraphEdge.target <$> edges).

(** Entries waiting in the queue plus edge targets not yet given a
    depth: each iteration of the loop lowers it by one. *)
Definition measure (edges : list GraphEdge.t) (s : Bfs) : nat :=
  length (queue s) + size (targets edges ∖ dom (depthMap (maps s))).

(** Both maps have the same keys. *)
Definition sameKeys (m : Maps) : Prop :=
  ∀ k, depthMap m !! k = None ↔ islandMap m !! k = None.

(** Every entry of [m0] is an entry of [m]. *)
Definition extends (m0 m : Maps) : Prop :=
  (∀ k v, depthMap m0 !! k = Some v → depthMap m !! k = Some v) ∧
  (∀ k v, islandMap m0 !! k = Some v → islandMap m !! k = Some v).

(** An edge recorded from [a] to [b]. *)
Definition edgeTo (edges : list GraphEdge.t) (a b : string) : Prop :=
  ∃ e, e ∈ edges ∧ GraphEdge.source e = a ∧ GraphEdge.target e = b.

(** [b] can be reached from [a] along edges followed from source to
    target. *)
Definition reaches (edges : list GraphEdge.t) : relation string :=
  rtc (edgeTo edges).

(** An edge between [a] and [b], whichever end is recorded as source. *)
Definition linked (edges : list GraphEdge.t) (a b : string) : Prop :=
  edgeTo edges a b ∨ edgeTo edges b a.

(** [a] and [b] lie in the same connected component. *)
Definition connected (edges : list GraphEdge.t) : relation string :=
  rtc (linked edges).

(** Some root-type node of the list is related to the id. *)
Definition fromSomeRoot (R : relation string) (nodes : list GraphNode.t)
    (key : string) : Prop :=
  ∃ r, r ∈ nodes ∧ GraphNode.type r = root ∧ R (GraphNode.id r) key.

(** Every id with a depth is reached from a root-type node along edges
    followed from source to target. *)
Definition keysFrom (nodes : list GraphNode.t) (edges : list GraphEdge.t)
    (m : Maps) : Prop :=
  ∀ key, is_Some (depthMap m !! key) → fromSomeRoot (reaches edges) nodes key.

(** First claim wins, as the specification words it: whatever depth and
    island an id holds once the roots [pre] have been handled, it holds in
    the result, whichever roots [post] follow. *)
Definition firstClaimWins (nodes : list GraphNode.t) (edges : list GraphEdge.t)
    : Prop :=
  ∀ pre post m1 key d i,
    rootNodesOf nodes = pre ++ post →
    forEachRoot edges 0 pre emptyMaps = Some m1 →
    depthMap m1 !! key = Some d → islandMap m1 !! key = Some i →
    depthMap (calculateDepthsAndIslands nodes edges) !! key = Some d ∧
    islandMap (calculateDepthsAndIslands nodes edges) !! key = Some i.

(** The ends of the edges, two per edge. *)
Definition ends (edges : list GraphEdge.t) : list string :=
  edges ≫= λ e, [GraphEdge.source e; GraphEdge.target e].

(** The ends of edges that are the id [v], and those not yet visited. *)
Definition endsAt (edges : list GraphEdge.t) (v : string) : nat :=
  length (filter (λ x, x = v) (ends edges)).

Definition endsOutside (edges : list GraphEdge.t) (visited : gset string) : nat :=
  length (filter (λ x, x ∉ visited) (ends edges)).

End TopologyVocab.

Module MergeVocab.
Import Topology MindMap.

(** The value of [isNew] for a node. *)
Definition isNewOf (prev : gset string) (node : GraphNode.t) : bool :=
  bool_decide (GraphNode.id node ∉ prev) && bool_decide (0 < size prev).

(** What is known of the object an entry of the new array points to:
    [store0] is the store before the update, [ex] the [existingNodes]
    map, [st] the store reached. *)
Definition entryOK (store0 : list SimNode.t) (ex : gmap string ref)
    (prev : gset string) (tm : Maps) (env : Env)
    (st : list SimNode.t) (r : ref) (node : GraphNode.t) : Prop :=
  ∃ n, st !! r = Some n ∧
       SimNode.id n = GraphNode.id node ∧
       SimNode.depth n = default 0 (depthMap tm !! GraphNode.id node) ∧
       SimNode.islandIndex n = default 0 (islandMap tm !! GraphNode.id node) ∧
       match ex !! GraphNode.id node with
       | Some r' => r = r'
       | None =>
           length store0 ≤ r ∧
           SimNode.entranceProgress n = (if isNewOf prev node then 0 else 1)%Q ∧
           SimNode.entranceStartTime n = (if isNewOf prev node then now env else 0)%Q
       end.

Definition payloadOK (st : list SimNode.t) (r : ref) (node : GraphNode.t) : Prop :=
  ∃ n, st !! r = Some n ∧ SimNode.toGraphNode n = node.

(** Objects of the old store keep their id and all fields of the
    layout and of the animation. *)
Definition preserved (store0 st : list SimNode.t) : Prop :=
  ∀ r n0, store0 !! r = Some n0 →
    ∃ n, st !! r = Some n ∧ SimNode.id n = SimNode.id n0 ∧
         SimNode.physics n = SimNode.physics n0 ∧
         SimNode.animation n = SimNode.animation n0.

(** The invariant of [nodes.map(...)] once the nodes [seen] have been
    handled. *)
Record MergeInv (store0 : list SimNode.t) (ex : gmap string ref)
    (prev : gset string) (tm : Maps) (env : Env)
    (seen : list GraphNode.t) (acc : Merge) : Prop := mkMergeInv
  { inv_grows : length store0 ≤ length (mstore acc);
    inv_preserved : preserved store0 (mstore acc);
    inv_entries : Forall2 (entryOK store0 ex prev tm env (mstore acc)) (out acc) seen;
    inv_payload :
      NoDup (GraphNode.id <$> seen) → Forall2 (payloadOK (mstore acc)) (out acc) seen }.

(** [existingNodes] and the result of [nodes.map(...)] in an update. *)
Definition existingNodesOf (s : State) : gmap string ref :=
  jsMap (idPairs (store s) (simNodesRef s)).

Definition mergedOf (env : Env) (nodes : list GraphNode.t)
    (edges : list GraphEdge.t) (s : State) : Merge :=
  foldl (mergeNode (existingNodesOf s) (prevNodeIdsRef s)
                   (calculateDepthsAndIslands nodes edges) env)
        (mkMerge (store s) 0 []) nodes.

(** The invariant of the component: the remembered id set is the id set
    of the current objects. *)
Definition Inv (s : State) : Prop :=
  prevNodeIdsRef s = list_to_set (SimNode.id <$> simNodes s).

Definition sameIds (st st' : list SimNode.t) : Prop :=
  ∀ r, SimNode.id <$> st' !! r = SimNode.id <$> st !! r.








(** An object with its depth and island index blanked: what remains
    does not come from the topology analysis. *)
Definition withoutTopology (n : SimNode.t) : SimNode.t :=
  SimNode.mk (SimNode.id n) (SimNode.label n) (SimNode.type n) (SimNode.reason n)
    0 0 (SimNode.x n) (SimNode.y n) (SimNode.vx n) (SimNode.vy n)
    (SimNode.entranceProgress n) (SimNode.entranceStartTime n)
    (SimNode.scale n) (SimNode.glowIntensity n) (SimNode.pulsePhase n).

(** The ids of the supplied nodes. *)
Definition idsOf (nodes : list GraphNode.t) : list string := GraphNode.id <$> nodes.

(** An edge both of whose ends are ids of supplied nodes. *)
Definition resolves (nodes : list GraphNode.t) (e : GraphEdge.t) : Prop :=
  GraphEdge.source e ∈ idsOf nodes ∧ GraphEdge.target e ∈ idsOf nodes.

Global Instance resolves_dec nodes e : Decision (resolves nodes e).
Proof. unfold resolves. apply _. Defined.

(** The claim about dropped edges as the specification words it, for one
    update: the SimNodes are those built without the edges that have an end
    outside the supplied nodes. *)
Definition droppedEdgesLeaveSimNodes (env : Env) (nodes : list GraphNode.t)
    (edges : list GraphEdge.t) (s : State) : Prop :=
  simNodes (update env nodes edges s)
  = simNodes (update env nodes (filter (resolves nodes) edges) s).

(** The claim about unassigned nodes as the specification words it, for
    one update: an object whose id is connected to no root has no entry in
    the maps and is not painted with the colour of any depth and island. *)
Definition unassignedNotDepthColoured (env : Env) (nodes : list GraphNode.t)
    (edges : list GraphEdge.t) (s : State) (props : Props) : Prop :=
  ∀ sn, sn ∈ simNodes (update env nodes edges s) →
    ¬ TopologyVocab.fromSomeRoot (TopologyVocab.connected edges) nodes (SimNode.id sn) →
    depthMap (calculateDepthsAndIslands nodes edges) !! SimNode.id sn = None ∧
    islandMap (calculateDepthsAndIslands nodes edges) !! SimNode.id sn = None ∧
    ∀ d i, nodeColor props sn ≠ Some (Colour.getColorByDepthAndIsland d i).

End MergeVocab.

(** The vocabulary of the traversal's distance properties. *)
Module DistanceVocab.
Import Topology TopologyVocab.

(** The id [key] holds depth [d] in island [j]. *)
Definition entry (m : Maps) (key : string) (d j : nat) : Prop :=
  depthMap m !! key = Some d ∧ islandMap m !! key = Some j.

(** Every target of an edge that leaves an id with a depth has a depth. *)
Definition closedUnder (edges : list GraphEdge.t) (m : Maps) : Prop :=
  ∀ k c, is_Some (depthMap m !! k) → edgeTo edges k c → is_Some (depthMap m !! c).

(** [d] is the number of edges of a shortest path from [a] to [b] along
    edges followed from source to target. *)
Definition shortest (edges : list GraphEdge.t) (a b : string) (d : nat) : Prop :=
  nsteps (edgeTo edges) d a b ∧ ∀ n, nsteps (edgeTo edges) n a b → d ≤ n.

(** Every entry belongs to one of the first [i] roots and holds the
    distance from that root. *)
Definition distancesOK (roots : list GraphNode.t) (edges : list GraphEdge.t)
    (i : nat) (m : Maps) : Prop :=
  ∀ key d j, entry m key d j →
    j < i ∧ ∃ r, roots !! j = Some r ∧ shortest edges (GraphNode.id r) key d.

(** The depths waiting in the queue never decrease from front to back. *)
Definition queueSorted (q : list (string * nat)) : Prop :=
  StronglySorted (λ p1 p2 : string * nat, p1.2 ≤ p2.2) q.

(** The invariant of the [while] loop in the turn of the root with id
    [rid] and island index [i], started from the maps [m0]. *)
Record BfsInv (edges : list GraphEdge.t) (m0 : Maps) (rid : string) (i : nat)
    (s : Bfs) : Prop := mkBfsInv
  { bi_keys : sameKeys (maps s);
    bi_root : entry (maps s) rid 0 i;
    bi_kept : ∀ key d j, key ≠ rid → entry m0 key d j → entry (maps s) key d j;
    bi_old : ∀ key d j, entry (maps s) key d j → j ≠ i → key ≠ rid ∧ entry m0 key d j;
    bi_path : ∀ key d, entry (maps s) key d i → nsteps (edgeTo edges) d rid key;
    bi_queue : ∀ p, p ∈ queue s → entry (maps s) p.1 p.2 i;
    bi_sorted : queueSorted (queue s);
    bi_level : ∀ p key d, p ∈ queue s → entry (maps s) key d i → d ≤ S p.2;
    bi_done : ∀ key d c, entry (maps s) key d i → key ∉ (queue s).*1 →
              edgeTo edges key c →
              ∃ dc jc, entry (maps s) c dc jc ∧ (jc = i → dc ≤ S d) }.

(** What the [for] loop over the children of [cur] has done so far. *)
Definition visiting (edges : list GraphEdge.t) (i : nat) (cur : string * nat)
    (rest : list (string * nat)) (m : Maps) (s' : Bfs) : Prop :=
  sameKeys (maps s') ∧ extends m (maps s') ∧
  (∀ key d j, entry (maps s') key d j →
     entry m key d j ∨
     (j = i ∧ d = S cur.2 ∧ edgeTo edges cur.1 key ∧ key ∈ (queue s').*1)) ∧
  ∃ pushed, queue s' = rest ++ pushed ∧
            ∀ p, p ∈ pushed → p.2 = S cur.2 ∧ entry (maps s') p.1 (S cur.2) i.

(** What holds of the maps once the first [i] roots have had their turn. *)
Definition turnsOK (roots : list GraphNode.t) (edges : list GraphEdge.t)
    (i : nat) (m : Maps) : Prop :=
  sameKeys m ∧ closedUnder edges m ∧ distancesOK roots edges i m.

End DistanceVocab.

(** The vocabulary of the island traversal of the graph state hook. *)
Module WalkVocab.
Import GraphState TopologyVocab.

(** [nodes.find((n) => n.id === nodeId)] *)
Definition nodeWithId (nodes : list GraphNode.t) (nodeId : string)
    : option GraphNode.t :=
  find (λ n, bool_decide (GraphNode.id n = nodeId)) nodes.

(** The invariant of the [while] loop of [getIslandNodes]. *)
Record WalkInv (nodes : list GraphNode.t) (edges : list GraphEdge.t)
    (rootId : string) (w : Walk) : Prop := mkWalkInv
  { wi_connected : ∀ v, v ∈ visited w ∨ v ∈ queue w → connected edges rootId v;
    wi_root : rootId ∈ visited w ∨ rootId ∈ queue w;
    wi_closed : ∀ v u, v ∈ visited w → linked edges v u →
                u ∈ visited w ∨ u ∈ queue w;
    wi_nodes : ∀ n, n ∈ islandNodes w ↔
                    GraphNode.id n ∈ visited w ∧
                    nodeWithId nodes (GraphNode.id n) = Some n;
    wi_nodup : NoDup (GraphNode.id <$> islandNodes w) }.

End WalkVocab.

(** The vocabulary of the graph state hook. *)
Module StoreVocab.
Import GraphStore MergeVocab.

(** Both ends of every stored edge are ids of stored nodes. *)
Definition noDangling (s : State) : Prop :=
  Forall (resolves (nodes s)) (edges s).

(** The ends of an edge. *)
Definition endsOf (e : GraphEdge.t) : string * string :=
  (GraphEdge.source e, GraphEdge.target e).

End StoreVocab.

(** The vocabulary of colours and frames. *)
Module PaintVocab.
Local Open Scope Q_scope.

Definition hueOf (c : Colour.t) : Z :=
  match c with Colour.hsl h _ _ => h | Colour.hex _ => 0%Z end.

Definition satOf (c : Colour.t) : Z :=
  match c with Colour.hsl _ s _ => s | Colour.hex _ => 0%Z end.

(** The animation levels lie between their resting and their highest
    targets, and the entrance has not overshot. *)
Definition animationBounded (n : SimNode.t) : Prop :=
  1 <= SimNode.scale n ∧ SimNode.scale n <= 125 # 100 ∧
  4 # 10 <= SimNode.glowIntensity n ∧ SimNode.glowIntensity n <= 9 # 10 ∧
  SimNode.entranceProgress n <= 1.

(** What a frame leaves alone in an object. *)
Definition keptByFrame (n : SimNode.t)
    : GraphNode.t * nat * nat * (option Q * option Q * option Q * option Q) * Q :=
  (SimNode.toGraphNode n, SimNode.depth n, SimNode.islandIndex n,
   SimNode.physics n, SimNode.entranceStartTime n).

End PaintVocab.

(** The vocabulary of the picking test. *)
Module RoundingVocab.
Import MindMap MergeVocab.
Local Open Scope Q_scope.

(** The largest relative error of one rounding: [2^-53]. *)
Definition u : Q := 1 # 2 ^ 53.




End RoundingVocab.

(** Concrete graphs used by the examples. *)
Module Scenarios.
Import Topology MindMap.
Local Open Scope string_scope.

Definition A := GraphNode.mk "A" "Topic A" root None.
Definition B := GraphNode.mk "B" "Topic B" generated (Some "child of A").
Definition C := GraphNode.mk "C" "Topic C" generated None.
Definition X := GraphNode.mk "X" "Topic X" root None.
Definition edge (s t : string) := GraphEdge.mk s t None.

Definition env0 : Env := mkEnv 1000 800 600 (λ _, 1 # 2)%Q.

(** A settled object at the given position. *)
Definition simAt (node : GraphNode.t) (x y : Q) : SimNode.t :=
  SimNode.mk (GraphNode.id node) (GraphNode.label node) (GraphNode.type node)
    (GraphNode.reason node) 0 0 (Some x) (Some y) (Some 0%Q) (Some 0%Q)
    1%Q 0%Q 1%Q (4 # 10)%Q 0%Q.

(** A state holding the given objects, in this order, under a transform. *)
Definition stateOf (objects : list SimNode.t) (t : ZoomTransform) : State :=
  mkState objects (seq 0 (length objects)) [] (list_to_set (SimNode.id <$> objects))
          t true false None None.

End Scenarios.

(** * Facts *)

(** ** Topology analysis terminates *)

Module TopologyFacts.
Import Topology TopologyVocab.

Lemma size_difference_step (T D : gset string) c :
  c ∈ T → c ∉ D → size (T ∖ D) = S (size (T ∖ ({[c]} ∪ D))).
Proof.
  intros HT HD.
  assert (Hsplit : T ∖ D = {[c]} ∪ T ∖ ({[c]} ∪ D)).
  { apply set_eq. intros y. destruct (decide (y = c)); set_solver. }
  rewrite Hsplit at 1. rewrite size_union; [|set_solver].
  rewrite size_singleton. lia.
Qed.

Section Termination.
Variable edges : list GraphEdge.t.

Lemma children_spec current c :
  c ∈ children edges current ↔
  ∃ e, e ∈ edges ∧ GraphEdge.source e = current ∧ GraphEdge.target e = c.
Proof.
  unfold children. rewrite list_elem_of_fmap. split.
  - intros (e & -> & He). apply list_elem_of_filter in He as [? ?]. eauto.
  - intros (e & He & Hs & <-). exists e. split; [done|].
    apply list_elem_of_filter. done.
Qed.

Lemma children_targets current c : c ∈ children edges current → c ∈ targets edges.
Proof.
  intros (e & He & _ & <-)%children_spec. unfold targets.
  apply elem_of_list_to_set, list_elem_of_fmap_2, He.
Qed.

Lemma size_targets : size (targets edges) ≤ length edges.
Proof.
  unfold targets. rewrite <- (length_fmap GraphEdge.target edges).
  generalize (GraphEdge.target <$> edges). intros l.
  induction l as [|x l IH].
  - rewrite list_to_set_nil, size_empty. done.
  - rewrite list_to_set_cons, size_union_alt, size_singleton. simpl.
    etrans; [|apply le_n_S, IH].
    apply le_n_S, subseteq_size. set_solver.
Qed.

Lemma visitChild_measure i d s c :
  c ∈ targets edges → measure edges (visitChild i d s c) = measure edges s.
Proof.
  intros Hc. unfold visitChild.
  destruct (depthMap (maps s) !! c) eqn:Hl; [done|].
  unfold measure. cbn [queue maps depthMap].
  rewrite length_app, dom_insert_L. cbn [length].
  assert (Hnd : c ∉ dom (depthMap (maps s))) by by apply not_elem_of_dom.
  rewrite (size_difference_step (targets edges) _ c Hc Hnd). lia.
Qed.

Lemma visit_fold_measure i d cs s :
  (∀ c, c ∈ cs → c ∈ targets edges) →
  measure edges (foldl (visitChild i d) s cs) = measure edges s.
Proof.
  revert s. induction cs as [|c cs IH]; intros s Hcs; [done|].
  simpl. rewrite IH by (intros; apply Hcs; set_solver).
  apply visitChild_measure, Hcs. set_solver.
Qed.

Lemma bfsLoop_terminates fuel i s :
  measure edges s ≤ fuel → is_Some (bfsLoop fuel edges i s).
Proof.
  revert s. induction fuel as [|fuel IH]; intros [q m] Hm.
  - destruct q as [|cur rest]; [by eexists|].
    unfold measure in Hm. simpl in Hm. lia.
  - destruct q as [|cur rest]; [by eexists|]. simpl.
    apply IH. unfold visitCurrent.
    rewrite visit_fold_measure by (intros c; apply children_targets).
    unfold measure in *. simpl in *. lia.
Qed.

Lemma processRoot_terminates i r m : is_Some (processRoot edges i r m).
Proof.
  apply bfsLoop_terminates. unfold measure, fuelFor, seed. simpl.
  apply le_n_S. etrans; [|apply size_targets].
  apply subseteq_size. set_solver.
Qed.

Lemma forEachRoot_terminates roots i m : is_Some (forEachRoot edges i roots m).
Proof.
  revert i m. induction roots as [|r roots IH]; intros i m; [by eexists|].
  simpl. destruct (processRoot_terminates i r m) as [m' ->]. apply IH.
Qed.

End Termination.

(** The fuel given to the traversals is always enough: the function
    returns for every input. *)
Lemma calculateDepthsAndIslands_returns nodes edges :
  calculateDepthsAndIslands_fuel nodes edges =
  Some (calculateDepthsAndIslands nodes edges).
Proof.
  unfold calculateDepthsAndIslands.
  assert (H : is_Some (calculateDepthsAndIslands_fuel nodes edges)).
  { unfold calculateDepthsAndIslands_fuel. case_decide; [by eexists|].
    apply forEachRoot_terminates. }
  destruct H as [m ->]. done.
Qed.

End TopologyFacts.

(** ** The island traversal of the graph state hook terminates *)

Module GraphStateFacts.
Import GraphState TopologyVocab.

Lemma pushNeighbours_length v visited q e :
  length (pushNeighbours v visited q e) ≤ length q + endsAt [e] v.
Proof.
  unfold pushNeighbours, endsAt, ends. simpl.
  repeat case_decide; rewrite ?length_app; simpl;
    repeat (rewrite filter_cons; case_decide); simpl; try lia; naive_solver.
Qed.

Lemma endsAt_cons e edges v : endsAt (e :: edges) v = endsAt [e] v + endsAt edges v.
Proof.
  unfold endsAt, ends.
  change (e :: edges) with ([e] ++ edges).
  by rewrite bind_app, filter_app, length_app.
Qed.

Lemma pushNeighbours_fold_length v visited edges q :
  length (foldl (pushNeighbours v visited) q edges) ≤ length q + endsAt edges v.
Proof.
  revert q. induction edges as [|e edges IH]; intros q; simpl; [lia|].
  rewrite endsAt_cons. etrans; [apply IH|].
  pose proof (pushNeighbours_length v visited q e). lia.
Qed.

Lemma endsOutside_visit edges visited v :
  v ∉ visited →
  endsOutside edges ({[v]} ∪ visited) + endsAt edges v = endsOutside edges visited.
Proof.
  intros Hv. unfold endsOutside, endsAt. induction (ends edges) as [|x l IH]; [done|].
  rewrite !filter_cons. destruct (decide (x = v)) as [->|Hne].
  - rewrite decide_False by set_solver. rewrite decide_True by done.
    simpl. lia.
  - destruct (decide (x ∉ visited)).
    + rewrite decide_True by set_solver. simpl. lia.
    + rewrite decide_False by set_solver. done.
Qed.

Lemma walk_terminates fuel nodes edges w :
  length (queue w) + endsOutside edges (visited w) ≤ fuel →
  is_Some (walk fuel nodes edges w).
Proof.
  revert w. induction fuel as [|fuel IH]; intros [vis q isl] H; simpl in *.
  - destruct q; [by eexists|simpl in H; lia].
  - destruct q as [|v rest]; [by eexists|]. simpl in H.
    case_decide as Hv.
    + apply IH. simpl. lia.
    + apply IH. simpl.
      pose proof (pushNeighbours_fold_length v ({[v]} ∪ vis) edges rest).
      pose proof (endsOutside_visit edges vis v Hv). lia.
Qed.

Lemma length_ends edges : length (ends edges) = 2 * length edges.
Proof.
  unfold ends. induction edges as [|e edges IH]; [done|].
  change (e :: edges) with ([e] ++ edges).
  rewrite bind_app, length_app, IH. simpl. lia.
Qed.

(** [getIslandNodes] returns for every graph and root id. *)
Lemma getIslandNodes_returns nodes edges rootId :
  is_Some (getIslandNodes nodes edges rootId).
Proof.
  apply walk_terminates. simpl. unfold fuelFor, endsOutside.
  apply le_n_S. etrans; [apply length_filter|]. by rewrite length_ends.
Qed.

End GraphStateFacts.

(** ** Invariants of the traversal *)

Module TopologyInvariants.
Import Topology TopologyVocab TopologyFacts.

(** An invariant kept by every iteration holds when the loop exits. *)
Lemma bfsLoop_invariant (P : Bfs → Prop) edges i :
  (∀ cur rest m, P (mkBfs (cur :: rest) m) → P (visitCurrent edges i cur rest m)) →
  ∀ fuel s m', P s → bfsLoop fuel edges i s = Some m' → P (mkBfs [] m').
Proof.
  intros Hstep fuel. induction fuel as [|fuel IH]; intros [q m] m' HP Hrun.
  - destruct q; simpl in Hrun; [|done]. by simplify_eq.
  - destruct q as [|cur rest]; simpl in Hrun; [by simplify_eq|].
    eapply IH; [|exact Hrun]. by apply Hstep.
Qed.

(** The same for the inner [for] loop over the children. *)
Lemma visit_fold_invariant (P : Bfs → Prop) i d cs :
  (∀ s c, c ∈ cs → P s → P (visitChild i d s c)) →
  ∀ s, P s → P (foldl (visitChild i d) s cs).
Proof.
  induction cs as [|c cs IH]; intros Hstep s HP; [done|]. simpl.
  apply IH.
  - intros s' c' Hc'. apply Hstep. set_solver.
  - apply Hstep; [set_solver|done].
Qed.

(** *** Both maps always have the same keys *)

Lemma sameKeys_empty : sameKeys emptyMaps.
Proof. intros k. simpl. by rewrite !lookup_empty. Qed.

Lemma sameKeys_insert m k d i :
  sameKeys m → sameKeys (mkMaps (<[k := d]> (depthMap m)) (<[k := i]> (islandMap m))).
Proof.
  intros H k'. simpl. destruct (decide (k = k')) as [->|Hne].
  - by rewrite !lookup_insert_eq.
  - rewrite !lookup_insert_ne by done. apply H.
Qed.

Lemma visitChild_sameKeys i d s c :
  sameKeys (maps s) → sameKeys (maps (visitChild i d s c)).
Proof.
  intros H. unfold visitChild. destruct (depthMap (maps s) !! c); [done|].
  by apply sameKeys_insert.
Qed.

Lemma processRoot_sameKeys edges i r m m' :
  sameKeys m → processRoot edges i r m = Some m' → sameKeys m'.
Proof.
  intros H Hrun.
  apply (bfsLoop_invariant (λ s, sameKeys (maps s)) edges i) in Hrun; [done| |].
  - intros cur rest m0 H0. unfold visitCurrent.
    apply (visit_fold_invariant (λ s, sameKeys (maps s))); [|done].
    intros. by apply visitChild_sameKeys.
  - by apply sameKeys_insert.
Qed.

Lemma forEachRoot_sameKeys edges roots i m m' :
  sameKeys m → forEachRoot edges i roots m = Some m' → sameKeys m'.
Proof.
  revert i m. induction roots as [|r roots IH]; intros i m H Hrun; simpl in Hrun.
  - by simplify_eq.
  - destruct (processRoot edges i r m) as [m1|] eqn:E; [|done].
    eapply IH; [|exact Hrun]. eapply processRoot_sameKeys; eauto.
Qed.

(** *** Entries are only ever added by the loop *)

Lemma extends_refl m : extends m m.
Proof. by split. Qed.

Lemma extends_trans m0 m1 m2 : extends m0 m1 → extends m1 m2 → extends m0 m2.
Proof. intros [A1 B1] [A2 B2]. split; eauto. Qed.

Lemma visitChild_extends i d s c :
  sameKeys (maps s) → extends (maps s) (maps (visitChild i d s c)).
Proof.
  intros Hk. unfold visitChild.
  destruct (depthMap (maps s) !! c) eqn:E; [apply extends_refl|].
  assert (E' : islandMap (maps s) !! c = None) by by apply Hk.
  split; simpl; intros k v Hkv;
    (rewrite lookup_insert_ne; [done|congruence]).
Qed.

Lemma bfsLoop_extends edges i fuel s m' :
  sameKeys (maps s) → bfsLoop fuel edges i s = Some m' → extends (maps s) m'.
Proof.
  intros Hk Hrun.
  apply (bfsLoop_invariant
           (λ s', sameKeys (maps s') ∧ extends (maps s) (maps s')) edges i)
    in Hrun; [by destruct Hrun| |by split; [|apply extends_refl]].
  intros cur rest m0 H0. unfold visitCurrent.
  apply (visit_fold_invariant
           (λ s', sameKeys (maps s') ∧ extends (maps s) (maps s'))); [|done].
  intros s' c _ [Hk' He]. split; [by apply visitChild_sameKeys|].
  eapply extends_trans; [exact He|]. by apply visitChild_extends.
Qed.

(** A root's turn changes no entry other than the root's own. *)
Lemma processRoot_frame edges i r m m' k :
  sameKeys m → processRoot edges i r m = Some m' → k ≠ GraphNode.id r →
  (∀ v, depthMap m !! k = Some v → depthMap m' !! k = Some v) ∧
  (∀ v, islandMap m !! k = Some v → islandMap m' !! k = Some v).
Proof.
  intros Hk Hrun Hne. unfold processRoot in Hrun.
  apply bfsLoop_extends in Hrun as [Hd Hi]; [|by apply sameKeys_insert].
  split; intros v Hv; [apply Hd|apply Hi]; simpl;
    by rewrite lookup_insert_ne.
Qed.

(** A root's turn leaves the root at depth 0 in its own island. *)
Lemma processRoot_root edges i r m m' :
  sameKeys m → processRoot edges i r m = Some m' →
  depthMap m' !! GraphNode.id r = Some 0 ∧ islandMap m' !! GraphNode.id r = Some i.
Proof.
  intros Hk Hrun. unfold processRoot in Hrun.
  apply bfsLoop_extends in Hrun as [Hd Hi]; [|by apply sameKeys_insert].
  split; [apply Hd|apply Hi]; simpl; by rewrite lookup_insert_eq.
Qed.

End TopologyInvariants.

(** ** The merge of an update *)

Module MergeFacts.
Import Topology MindMap MergeVocab.

Lemma jsMap_snoc {V} (l : list (string * V)) k v :
  jsMap (l ++ [(k, v)]) = <[k := v]> (jsMap l).
Proof. unfold jsMap. by rewrite foldl_snoc. Qed.

Lemma jsMap_lookup_Some {V} (l : list (string * V)) k v :
  jsMap l !! k = Some v → (k, v) ∈ l.
Proof.
  induction l as [|[k' v'] l IH] using rev_ind.
  - unfold jsMap. simpl. by rewrite lookup_empty.
  - rewrite jsMap_snoc. destruct (decide (k' = k)) as [->|Hne].
    + rewrite lookup_insert_eq. intros [= ->]. set_solver.
    + rewrite lookup_insert_ne by done. set_solver.
Qed.

Lemma jsMap_is_Some {V} (l : list (string * V)) k :
  is_Some (jsMap l !! k) ↔ k ∈ l.*1.
Proof.
  induction l as [|[k' v'] l IH] using rev_ind.
  - unfold jsMap. simpl. rewrite lookup_empty. split; [by intros [? ?]|set_solver].
  - rewrite jsMap_snoc, fmap_app. simpl. destruct (decide (k' = k)) as [->|Hne].
    + rewrite lookup_insert_eq. split; [set_solver|by eexists].
    + rewrite lookup_insert_ne by done. rewrite IH. set_solver.
Qed.

Lemma idPairs_spec st refs key r :
  (key, r) ∈ idPairs st refs ↔
  r ∈ refs ∧ ∃ n, st !! r = Some n ∧ SimNode.id n = key.
Proof.
  unfold idPairs. rewrite list_elem_of_omap. split.
  - intros (r' & Hr' & Hf). destruct (st !! r') as [n|] eqn:E; simplify_eq/=.
    eauto.
  - intros (Hr & n & Hn & <-). exists r. rewrite Hn. done.
Qed.

(** A key of [existingNodes] or [nodeMap] leads to a live object of the
    array carrying that id. *)
Lemma jsMap_idPairs_Some st refs key r :
  jsMap (idPairs st refs) !! key = Some r →
  r ∈ refs ∧ ∃ n, st !! r = Some n ∧ SimNode.id n = key.
Proof. intros H%jsMap_lookup_Some. by apply idPairs_spec. Qed.

Lemma jsMap_idPairs_is_Some st refs key :
  is_Some (jsMap (idPairs st refs) !! key) ↔
  ∃ r n, r ∈ refs ∧ st !! r = Some n ∧ SimNode.id n = key.
Proof.
  rewrite jsMap_is_Some, list_elem_of_fmap. split.
  - intros ([k r] & -> & H%idPairs_spec). simpl. naive_solver.
  - intros (r & n & Hr & Hn & Hk). exists (key, r). split; [done|].
    apply idPairs_spec. eauto.
Qed.

Lemma refresh_id tm node n : SimNode.id (refresh tm node n) = SimNode.id n.
Proof. done. Qed.

Lemma refresh_physics tm node n :
  SimNode.physics (refresh tm node n) = SimNode.physics n.
Proof. done. Qed.

Lemma refresh_animation tm node n :
  SimNode.animation (refresh tm node n) = SimNode.animation n.
Proof. done. Qed.

Section Merge.
Variable store0 : list SimNode.t.
Variable ex : gmap string ref.
Variable prev : gset string.
Variable tm : Maps.
Variable env : Env.

Hypothesis ex_live :
  ∀ key r, ex !! key = Some r → ∃ n0, store0 !! r = Some n0 ∧ SimNode.id n0 = key.

Lemma MergeInv_start : MergeInv store0 ex prev tm env [] (mkMerge store0 0 []).
Proof.
  split; simpl; [done| |constructor|intros; constructor].
  intros r n0 H. eauto.
Qed.

Lemma MergeInv_create seen acc node :
  ex !! GraphNode.id node = None →
  MergeInv store0 ex prev tm env seen acc →
  MergeInv store0 ex prev tm env (seen ++ [node])
    (mkMerge (mstore acc ++ [create tm env (isNewOf prev node) (draws acc) node])
             (draws acc + 3) (out acc ++ [length (mstore acc)])).
Proof.
  intros Hex [Hg Hp He Hpay]. split; simpl.
  - rewrite length_app. lia.
  - intros r n0 H0. destruct (Hp r n0 H0) as (n & Hn & ?).
    exists n. split; [by apply lookup_app_l_Some|done].
  - apply Forall2_app.
    + eapply Forall2_impl; [exact He|].
      intros r nd (n & Hn & ?). exists n. simpl.
      split; [by apply lookup_app_l_Some|done].
    + constructor; [|constructor]. eexists. simpl.
      split; [apply list_lookup_middle; done|].
      rewrite Hex. simpl. done.
  - intros Hnd. rewrite fmap_app in Hnd. apply NoDup_app in Hnd as (Hnd & _ & _).
    apply Forall2_app.
    + eapply Forall2_impl; [exact (Hpay Hnd)|].
      intros r nd (n & Hn & ?). exists n. simpl.
      split; [by apply lookup_app_l_Some|done].
    + constructor; [|constructor]. eexists. simpl.
      split; [apply list_lookup_middle; done|]. by destruct node.
Qed.

Lemma MergeInv_refresh seen acc node r' :
  ex !! GraphNode.id node = Some r' →
  MergeInv store0 ex prev tm env seen acc →
  MergeInv store0 ex prev tm env (seen ++ [node])
    (mkMerge (alter (refresh tm node) r' (mstore acc)) (draws acc) (out acc ++ [r'])).
Proof.
  intros Hex [Hg Hp He Hpay].
  destruct (ex_live _ _ Hex) as (n0 & Hn0 & Hid0).
  destruct (Hp _ _ Hn0) as (n1 & Hn1 & Hid1 & Hph1 & Han1).
  assert (Hnew : alter (refresh tm node) r' (mstore acc) !! r'
                 = Some (refresh tm node n1)).
  { by rewrite list_lookup_alter_eq, Hn1. }
  split; simpl.
  - by rewrite length_alter.
  - intros r n00 H0. destruct (Hp r n00 H0) as (n & Hn & Hid & Hph & Han).
    destruct (decide (r' = r)) as [->|Hne].
    + rewrite Hn0 in H0. rewrite Hn1 in Hn.
      injection H0 as <-. injection Hn as <-.
      eexists. split; [exact Hnew|].
      by rewrite refresh_id, refresh_physics, refresh_animation.
    + exists n. by rewrite list_lookup_alter_ne.
  - apply Forall2_app.
    + eapply Forall2_impl; [exact He|].
      intros r nd (n & Hn & Hid & Hd & Hi & Hm). simpl.
      destruct (decide (r' = r)) as [->|Hne].
      * assert (Heq : GraphNode.id nd = GraphNode.id node).
        { rewrite Hn1 in Hn. congruence. }
        eexists. split; [exact Hnew|].
        simpl. rewrite Heq, Hex. split; [congruence|done].
      * exists n. simpl. rewrite list_lookup_alter_ne by done. done.
    + constructor; [|constructor]. exists (refresh tm node n1). simpl.
      split; [done|]. rewrite Hex. split; [congruence|done].
  - intros Hnd. rewrite fmap_app in Hnd.
    apply NoDup_app in Hnd as (Hnd & Hfresh & _).
    apply Forall2_app.
    + specialize (Hpay Hnd).
      assert (Hother : ∀ nd, nd ∈ seen → GraphNode.id nd ≠ GraphNode.id node).
      { intros nd Hin Heq. apply (Hfresh (GraphNode.id nd)).
        - by apply list_elem_of_fmap_2.
        - rewrite Heq. set_solver. }
      clear Hnd Hfresh. revert He Hpay Hother.
      generalize (out acc) as o. generalize seen as dn.
      induction dn as [|nd dn IH]; intros o He Hpay Hother.
      * inversion He; subst. constructor.
      * inversion He as [|r ? o' ? (n & Hn & Hid & _) He']; subst.
        inversion Hpay as [|? ? ? ? (n' & Hn' & Hpl) Hpay']; subst.
        constructor.
        -- exists n'. simpl. split; [|done].
           rewrite list_lookup_alter_ne; [done|].
           intros ->. eapply Hother; [apply list_elem_of_here|].
           rewrite Hn1 in Hn. congruence.
        -- apply IH; [done|done|]. intros; apply Hother; set_solver.
    + constructor; [|constructor]. exists (refresh tm node n1). simpl.
      split; [done|]. unfold SimNode.toGraphNode, refresh. simpl.
      destruct node. simpl in *. congruence.
Qed.

Lemma MergeInv_step seen acc node :
  MergeInv store0 ex prev tm env seen acc → MergeInv store0 ex prev tm env (seen ++ [node]) (mergeNode ex prev tm env acc node).
Proof.
  intros H. unfold mergeNode. destruct (ex !! GraphNode.id node) as [r'|] eqn:E.
  - by apply MergeInv_refresh.
  - by apply MergeInv_create.
Qed.

Lemma MergeInv_fold rest seen acc :
  MergeInv store0 ex prev tm env seen acc →
  MergeInv store0 ex prev tm env (seen ++ rest) (foldl (mergeNode ex prev tm env) acc rest).
Proof.
  revert seen acc. induction rest as [|node rest IH]; intros seen acc H.
  - by rewrite app_nil_r.
  - simpl. rewrite cons_middle, app_assoc. apply IH, MergeInv_step, H.
Qed.

Lemma MergeInv_all nodes :
  MergeInv store0 ex prev tm env nodes (foldl (mergeNode ex prev tm env) (mkMerge store0 0 []) nodes).
Proof. apply (MergeInv_fold nodes []), MergeInv_start. Qed.

End Merge.

End MergeFacts.

(** ** Updates *)

Module UpdateFacts.
Import Topology MindMap MergeVocab MergeFacts.

Lemma update_store env nodes edges s :
  store (update env nodes edges s) = mstore (mergedOf env nodes edges s).
Proof. done. Qed.

Lemma update_simNodesRef env nodes edges s :
  simNodesRef (update env nodes edges s) = out (mergedOf env nodes edges s).
Proof. done. Qed.

Lemma existingNodesOf_live s key r :
  existingNodesOf s !! key = Some r →
  ∃ n0, store s !! r = Some n0 ∧ SimNode.id n0 = key.
Proof. intros H%jsMap_idPairs_Some. naive_solver. Qed.

Lemma update_inv env nodes edges s :
  MergeInv (store s) (existingNodesOf s) (prevNodeIdsRef s)
           (calculateDepthsAndIslands nodes edges) env
           nodes (mergedOf env nodes edges s).
Proof. apply MergeInv_all, existingNodesOf_live. Qed.

Lemma elem_of_simNodes s n :
  n ∈ simNodes s ↔ ∃ r, r ∈ simNodesRef s ∧ store s !! r = Some n.
Proof. unfold simNodes. by rewrite list_elem_of_omap. Qed.

Lemma elem_of_simNodes_ids s key :
  key ∈ SimNode.id <$> simNodes s ↔
  ∃ r n, r ∈ simNodesRef s ∧ store s !! r = Some n ∧ SimNode.id n = key.
Proof.
  rewrite list_elem_of_fmap. setoid_rewrite elem_of_simNodes. naive_solver.
Qed.

(** The new array lists, in order, one object per supplied node. *)
Lemma entries_ids store0 ex prev tm env st o dn :
  Forall2 (entryOK store0 ex prev tm env st) o dn →
  SimNode.id <$> omap (λ r, st !! r) o = GraphNode.id <$> dn.
Proof.
  induction 1 as [|r nd o dn (n & Hn & Hid & _) _ IH]; [done|].
  csimpl. rewrite Hn. csimpl. by rewrite Hid, IH.
Qed.


Lemma update_ids env nodes edges s :
  SimNode.id <$> simNodes (update env nodes edges s) = GraphNode.id <$> nodes.
Proof.
  unfold simNodes. rewrite update_store, update_simNodesRef.
  eapply entries_ids, inv_entries, update_inv.
Qed.


(** Every object of the new array was refreshed or created for some
    supplied node. *)
Lemma update_entry env nodes edges s i node :
  nodes !! i = Some node →
  ∃ r, simNodesRef (update env nodes edges s) !! i = Some r ∧
       entryOK (store s) (existingNodesOf s) (prevNodeIdsRef s)
               (calculateDepthsAndIslands nodes edges) env
               (store (update env nodes edges s)) r node.
Proof.
  intros Hi. rewrite update_store, update_simNodesRef.
  eapply Forall2_lookup_r; [|exact Hi]. eapply inv_entries, update_inv.
Qed.

Lemma update_simNode_origin env nodes edges s sn :
  sn ∈ simNodes (update env nodes edges s) →
  ∃ node r, node ∈ nodes ∧
    store (update env nodes edges s) !! r = Some sn ∧
    entryOK (store s) (existingNodesOf s) (prevNodeIdsRef s)
            (calculateDepthsAndIslands nodes edges) env
            (store (update env nodes edges s)) r node.
Proof.
  intros (r & Hr & Hsn)%elem_of_simNodes.
  apply list_elem_of_lookup in Hr as [i Hi].
  pose proof (inv_entries _ _ _ _ _ _ _ (update_inv env nodes edges s)) as He.
  rewrite update_simNodesRef in Hi.
  destruct (Forall2_lookup_l _ _ _ _ _ He Hi) as (node & Hnode & Hok).
  exists node, r. split; [by eapply list_elem_of_lookup_2|]. by rewrite update_store.
Qed.

Lemma sameIds_alter_fold (f : ref → SimNode.t → SimNode.t) (refs : list ref) st :
  (∀ r n, SimNode.id (f r n) = SimNode.id n) →
  sameIds st (foldl (λ st r, alter (f r) r st) st refs).
Proof.
  intros Hf. revert st. induction refs as [|r0 refs IH]; intros st r; [done|].
  simpl. rewrite IH. destruct (decide (r0 = r)) as [->|Hne].
  - rewrite list_lookup_alter_eq. destruct (st !! r); simpl; [|done].
    by rewrite Hf.
  - by rewrite list_lookup_alter_ne.
Qed.

Lemma sameIds_simNodes st st' (refs : list ref) :
  sameIds st st' →
  SimNode.id <$> omap (λ r, st' !! r) refs = SimNode.id <$> omap (λ r, st !! r) refs.
Proof.
  intros H. induction refs as [|r refs IH]; [done|]. csimpl.
  specialize (H r). destruct (st' !! r), (st !! r); simplify_eq/=;
    csimpl; [by f_equal|done].
Qed.

Lemma reachable_Inv s : reachable s → Inv s.
Proof.
  induction 1 as [|env nodes edges s _ IH|props lastTime now s _ IH
                  |move active s _ IH|t s _ _ IH
                  |props rect cx cy s _ IH|rect cx cy s _ IH|s _ IH].
  - done.
  - unfold Inv. by rewrite update_ids.
  - unfold render. destruct (negb _); [done|].
    unfold Inv, simNodes in *. simpl. rewrite IH. f_equal.
    symmetry. apply sameIds_simNodes.
    apply (sameIds_alter_fold (λ _, animate _ _ _ _ _)). done.
  - unfold Inv, simNodes in *. simpl. rewrite IH. f_equal.
    symmetry. apply sameIds_simNodes.
    apply (sameIds_alter_fold (λ _ n, setPhysics (move n) n)). done.
  - done.
  - unfold handleCanvasClick. destruct (isExpanding props); [done|].
    destruct rect; [|done]. by destruct (findNodeAtPosition _ _ _).
  - unfold handleMouseMove. destruct rect; [|done]. by case_decide.
  - done.
Qed.

(** The edges reach the objects through the two maps only: with other
    maps the merge builds the same array over a store that differs in
    depths and island indices at most. *)
Lemma merge_maps_irrelevant ex prev env tm1 tm2 nodes acc1 acc2 :
  withoutTopology <$> mstore acc1 = withoutTopology <$> mstore acc2 →
  draws acc1 = draws acc2 → out acc1 = out acc2 →
  withoutTopology <$> mstore (foldl (mergeNode ex prev tm1 env) acc1 nodes)
  = withoutTopology <$> mstore (foldl (mergeNode ex prev tm2 env) acc2 nodes) ∧
  out (foldl (mergeNode ex prev tm1 env) acc1 nodes)
  = out (foldl (mergeNode ex prev tm2 env) acc2 nodes).
Proof.
  revert acc1 acc2. induction nodes as [|node nodes IH]; intros acc1 acc2 Hst Hd Ho;
    [done|].
  simpl. apply IH; unfold mergeNode; destruct (ex !! GraphNode.id node) as [r|];
    simpl; try congruence.
  - rewrite !(list_fmap_alter withoutTopology _
                (λ n, withoutTopology (refresh emptyMaps node n)));
      [by rewrite Hst|by apply Forall_true..].
  - rewrite !fmap_app, Hst, Hd. done.
  - f_equal; [done|]. f_equal.
    by rewrite <- (length_fmap withoutTopology (mstore acc1)), Hst, length_fmap.
Qed.

Lemma update_edges_irrelevant env nodes edges1 edges2 s :
  simNodesRef (update env nodes edges1 s) = simNodesRef (update env nodes edges2 s) ∧
  withoutTopology <$> store (update env nodes edges1 s)
  = withoutTopology <$> store (update env nodes edges2 s).
Proof.
  rewrite !update_store, !update_simNodesRef. unfold mergedOf.
  by destruct (merge_maps_irrelevant (existingNodesOf s) (prevNodeIdsRef s) env
                 (calculateDepthsAndIslands nodes edges1)
                 (calculateDepthsAndIslands nodes edges2)
                 nodes (mkMerge (store s) 0 []) (mkMerge (store s) 0 [])
                 eq_refl eq_refl eq_refl).
Qed.

(** An id that is not remembered has no existing object. *)
Lemma existingNodesOf_None s key :
  Inv s → key ∉ prevNodeIdsRef s → existingNodesOf s !! key = None.
Proof.
  intros HI Hk. destruct (existingNodesOf s !! key) as [r|] eqn:E; [|done].
  exfalso. apply Hk. rewrite HI. apply elem_of_list_to_set.
  apply jsMap_idPairs_Some in E as (Hr & n & Hn & Hid).
  apply elem_of_simNodes_ids. eauto.
Qed.

Lemma existingNodesOf_Some s key :
  Inv s → key ∈ prevNodeIdsRef s → is_Some (existingNodesOf s !! key).
Proof.
  intros HI Hk. rewrite HI in Hk. apply elem_of_list_to_set in Hk.
  apply elem_of_simNodes_ids in Hk. by apply jsMap_idPairs_is_Some.
Qed.

End UpdateFacts.

(** ** The scenarios of the specification, evaluated *)

Module ScenarioChecks.
Import Topology MindMap Scenarios.
Local Open Scope string_scope.

Example single_root_scenario :
  calculateDepthsAndIslands [A] [] = mkMaps {["A" := 0]} {["A" := 0]}.
Proof. vm_compute. reflexivity. Qed.

Example two_children_scenario :
  calculateDepthsAndIslands [A; B; C] [edge "A" "B"; edge "A" "C"]
  = mkMaps {["A" := 0; "B" := 1; "C" := 1]} {["A" := 0; "B" := 0; "C" := 0]}.
Proof. vm_compute. reflexivity. Qed.

Example two_roots_scenario :
  calculateDepthsAndIslands [A; X] []
  = mkMaps {["A" := 0; "X" := 0]} {["A" := 0; "X" := 1]}.
Proof. vm_compute. reflexivity. Qed.

Example no_root_scenario :
  calculateDepthsAndIslands [B; C] [edge "B" "C"] = emptyMaps.
Proof. vm_compute. reflexivity. Qed.

Example self_loop_and_duplicate_edges :
  calculateDepthsAndIslands [A; B] [edge "A" "A"; edge "A" "B"; edge "A" "B"]
  = mkMaps {["A" := 0; "B" := 1]} {["A" := 0; "B" := 0]}.
Proof. vm_compute. reflexivity. Qed.

Example colour_of_depth_three_in_second_island :
  Colour.getColorByDepthAndIsland 3 1 = Colour.hsl 221 85 55.
Proof. vm_compute. reflexivity. Qed.

Example colour_beyond_the_deepest_hue :
  Colour.getColorByDepth 10 = Colour.hsl 270 75 55.
Proof. vm_compute. reflexivity. Qed.

Example new_node_after_first_update_enters :
  let s1 := update env0 [A] [] initial in
  let s2 := update env0 [A; B] [edge "A" "B"] s1 in
  (SimNode.entranceProgress <$> simNodes s2) = [1%Q; 0%Q] ∧
  simLinksRef s2 = [SimLink.mk 0 1 None].
Proof. vm_compute. split; reflexivity. Qed.

End ScenarioChecks.

(** ** What topology analysis assigns *)

Module TopologyClaims.
Import Topology TopologyVocab TopologyFacts TopologyInvariants.

Lemma calculate_unfold nodes edges :
  forEachRoot edges 0 (rootNodesOf nodes) emptyMaps =
  Some (calculateDepthsAndIslands nodes edges).
Proof.
  rewrite <- calculateDepthsAndIslands_returns.
  unfold calculateDepthsAndIslands_fuel. case_decide as H; [|done].
  apply nil_length_inv in H. by rewrite H.
Qed.

Lemma calculate_sameKeys nodes edges :
  sameKeys (calculateDepthsAndIslands nodes edges).
Proof.
  eapply forEachRoot_sameKeys; [apply sameKeys_empty|apply calculate_unfold].
Qed.

Lemma elem_of_rootNodesOf nodes r :
  r ∈ rootNodesOf nodes ↔ GraphNode.type r = root ∧ r ∈ nodes.
Proof. unfold rootNodesOf. by rewrite list_elem_of_filter. Qed.

(** *** Only ids reached from a root along source-to-target edges get an
    entry *)

Section Sound.
Variable nodes : list GraphNode.t.
Variable edges : list GraphEdge.t.

Local Abbreviation F := (fromSomeRoot (reaches edges) nodes).

Lemma visitChild_sound i cur s c :
  F cur.1 → c ∈ children edges cur.1 →
  keysFrom nodes edges (maps s) ∧ (∀ p, p ∈ queue s → F p.1) →
  keysFrom nodes edges (maps (visitChild i cur.2 s c)) ∧
  (∀ p, p ∈ queue (visitChild i cur.2 s c) → F p.1).
Proof.
  intros (r & Hr & Ht & Hreach) Hc [Hk Hq].
  assert (Fc : F c).
  { exists r. split; [done|]. split; [done|].
    eapply rtc_r; [exact Hreach|]. by apply children_spec. }
  unfold visitChild. destruct (depthMap (maps s) !! c); [done|].
  unfold keysFrom in *. simpl. split.
  - intros key. destruct (decide (c = key)) as [<-|Hne]; [done|].
    rewrite lookup_insert_ne by done. apply Hk.
  - intros p [Hp| ->%list_elem_of_singleton]%elem_of_app; [by apply Hq|done].
Qed.

Lemma processRoot_sound i r m m' :
  r ∈ nodes → GraphNode.type r = root → keysFrom nodes edges m →
  processRoot edges i r m = Some m' → keysFrom nodes edges m'.
Proof.
  intros Hr Ht Hm Hrun.
  apply (bfsLoop_invariant
           (λ s, keysFrom nodes edges (maps s) ∧ (∀ p, p ∈ queue s → F p.1)) edges i)
    in Hrun; [by destruct Hrun| |].
  - intros cur rest m0 [Hk Hq]. unfold visitCurrent.
    apply (visit_fold_invariant
             (λ s, keysFrom nodes edges (maps s) ∧ (∀ p, p ∈ queue s → F p.1))).
    + intros s c Hc. apply visitChild_sound; [|done]. apply Hq. set_solver.
    + split; [done|]. intros p Hp. apply Hq. set_solver.
  - assert (Fr : F (GraphNode.id r)) by (exists r; by repeat split).
    unfold keysFrom in *. simpl. split.
    + intros key. destruct (decide (GraphNode.id r = key)) as [<-|Hne]; [done|].
      rewrite lookup_insert_ne by done. apply Hm.
    + intros p ->%list_elem_of_singleton. done.
Qed.

Lemma forEachRoot_sound roots i m m' :
  (∀ r, r ∈ roots → r ∈ nodes ∧ GraphNode.type r = root) → keysFrom nodes edges m →
  forEachRoot edges i roots m = Some m' → keysFrom nodes edges m'.
Proof.
  revert i m. induction roots as [|r roots IH]; intros i m Hroots Hm Hrun;
    simpl in Hrun; [by simplify_eq|].
  destruct (processRoot edges i r m) as [m1|] eqn:E; [|done].
  eapply IH; [|eapply processRoot_sound|exact Hrun]; eauto.
  - intros; apply Hroots; set_solver.
  - apply Hroots; set_solver.
  - apply Hroots; set_solver.
Qed.

Lemma calculate_sound key :
  is_Some (depthMap (calculateDepthsAndIslands nodes edges) !! key) → F key.
Proof.
  eapply forEachRoot_sound; [| |apply calculate_unfold].
  - intros r [? ?]%elem_of_rootNodesOf. done.
  - intros k. simpl. rewrite lookup_empty. by intros [? ?].
Qed.

End Sound.

Lemma reaches_connected edges a b : reaches edges a b → connected edges a b.
Proof.
  unfold reaches, connected. apply rtc_subrel. intros x y H. by left.
Qed.

(** *** Keys are never removed *)

Lemma visitChild_keeps i d s c key :
  is_Some (depthMap (maps s) !! key) →
  is_Some (depthMap (maps (visitChild i d s c)) !! key).
Proof.
  intros H. unfold visitChild. destruct (depthMap (maps s) !! c) eqn:E; [done|].
  simpl. destruct (decide (c = key)) as [->|Hne].
  - rewrite lookup_insert_eq. by eexists.
  - by rewrite lookup_insert_ne.
Qed.

Lemma visit_fold_keeps i d cs s key :
  is_Some (depthMap (maps s) !! key) →
  is_Some (depthMap (maps (foldl (visitChild i d) s cs)) !! key).
Proof.
  apply (visit_fold_invariant (λ s, is_Some (depthMap (maps s) !! key))).
  intros. by apply visitChild_keeps.
Qed.

Lemma visit_fold_children i d cs s c :
  c ∈ cs → is_Some (depthMap (maps (foldl (visitChild i d) s cs)) !! c).
Proof.
  revert s. induction cs as [|c0 cs IH]; intros s Hc; [set_solver|].
  simpl. apply elem_of_cons in Hc as [->|Hc]; [|by apply IH].
  apply visit_fold_keeps. unfold visitChild.
  destruct (depthMap (maps s) !! c0) eqn:E; [by rewrite E|].
  simpl. rewrite lookup_insert_eq. by eexists.
Qed.

Lemma bfsLoop_keeps edges i fuel s m' key :
  is_Some (depthMap (maps s) !! key) →
  bfsLoop fuel edges i s = Some m' → is_Some (depthMap m' !! key).
Proof.
  intros H Hrun.
  apply (bfsLoop_invariant (λ s, is_Some (depthMap (maps s) !! key)) edges i)
    in Hrun; [done| |done].
  intros cur rest m0 H0. unfold visitCurrent. by apply visit_fold_keeps.
Qed.

Lemma processRoot_keeps edges i r m m' key :
  is_Some (depthMap m !! key) →
  processRoot edges i r m = Some m' → is_Some (depthMap m' !! key).
Proof.
  intros H. apply bfsLoop_keeps. simpl.
  destruct (decide (GraphNode.id r = key)) as [->|Hne].
  - rewrite lookup_insert_eq. by eexists.
  - by rewrite lookup_insert_ne.
Qed.

Lemma forEachRoot_keeps edges roots i m m' key :
  is_Some (depthMap m !! key) →
  forEachRoot edges i roots m = Some m' → is_Some (depthMap m' !! key).
Proof.
  revert i m. induction roots as [|r roots IH]; intros i m H Hrun;
    simpl in Hrun; [by simplify_eq|].
  destruct (processRoot edges i r m) as [m1|] eqn:E; [|done].
  eapply IH; [|exact Hrun]. eapply processRoot_keeps; eauto.
Qed.

(** The first iteration of a root's traversal gives an entry to every
    target of an edge leaving the root. *)
Lemma processRoot_children edges i r m m' c :
  c ∈ children edges (GraphNode.id r) →
  processRoot edges i r m = Some m' → is_Some (depthMap m' !! c).
Proof.
  intros Hc. unfold processRoot, fuelFor. simpl.
  apply bfsLoop_keeps. unfold visitCurrent. by apply visit_fold_children.
Qed.

Lemma forEachRoot_app edges l1 l2 i m :
  forEachRoot edges i (l1 ++ l2) m =
  match forEachRoot edges i l1 m with
  | Some m1 => forEachRoot edges (i + length l1) l2 m1
  | None => None
  end.
Proof.
  revert i m. induction l1 as [|r l1 IH]; intros i m; simpl.
  - by rewrite Nat.add_0_r.
  - destruct (processRoot edges i r m); [|done].
    rewrite IH. by rewrite Nat.add_succ_r.
Qed.

Lemma root_children_assigned nodes edges r e :
  r ∈ nodes → GraphNode.type r = root →
  e ∈ edges → GraphEdge.source e = GraphNode.id r →
  is_Some (depthMap (calculateDepthsAndIslands nodes edges) !! GraphEdge.target e) ∧
  is_Some (islandMap (calculateDepthsAndIslands nodes edges) !! GraphEdge.target e).
Proof.
  intros Hr Ht He Hs.
  assert (Hd : is_Some (depthMap (calculateDepthsAndIslands nodes edges)
                          !! GraphEdge.target e)).
  { assert (Hin : r ∈ rootNodesOf nodes) by by apply elem_of_rootNodesOf.
    apply list_elem_of_split in Hin as (l1 & l2 & Hsplit).
    pose proof (calculate_unfold nodes edges) as Hrun.
    rewrite Hsplit, forEachRoot_app in Hrun.
    destruct (forEachRoot edges 0 l1 emptyMaps) as [m1|]; [|done].
    simpl in Hrun.
    destruct (processRoot edges (length l1) r m1) as [m2|] eqn:E; [|done].
    eapply forEachRoot_keeps; [|exact Hrun].
    eapply processRoot_children; [|exact E].
    apply children_spec. eauto. }
  split; [done|].
  rewrite <- !not_eq_None_Some in *.
  by rewrite <- (calculate_sameKeys nodes edges _).
Qed.

(** *** What later roots leave alone, and what they reset *)

Lemma forEachRoot_frame edges roots i m m' key :
  sameKeys m → forEachRoot edges i roots m = Some m' →
  (∀ r, r ∈ roots → GraphNode.id r ≠ key) →
  (∀ v, depthMap m !! key = Some v → depthMap m' !! key = Some v) ∧
  (∀ v, islandMap m !! key = Some v → islandMap m' !! key = Some v).
Proof.
  revert i m. induction roots as [|r roots IH]; intros i m Hk Hrun Hne;
    simpl in Hrun; [by simplify_eq|].
  destruct (processRoot edges i r m) as [m1|] eqn:E; [|done].
  destruct (processRoot_frame edges i r m m1 key Hk E) as [Hd Hi].
  { intros ->. by apply (Hne r); [set_solver|]. }
  destruct (IH (S i) m1) as [Hd' Hi']; [by eapply processRoot_sameKeys|done| |].
  { intros; apply Hne; set_solver. }
  split; eauto.
Qed.

Lemma processRoot_keeps_zero edges i r m m' key :
  sameKeys m → depthMap m !! key = Some 0 →
  processRoot edges i r m = Some m' → depthMap m' !! key = Some 0.
Proof.
  intros Hk H0 Hrun. destruct (decide (key = GraphNode.id r)) as [->|Hne].
  - by eapply processRoot_root.
  - by eapply processRoot_frame.
Qed.

Lemma forEachRoot_roots_zero edges roots i m m' r :
  sameKeys m → forEachRoot edges i roots m = Some m' →
  r ∈ roots ∨ depthMap m !! GraphNode.id r = Some 0 →
  depthMap m' !! GraphNode.id r = Some 0.
Proof.
  revert i m. induction roots as [|r0 roots IH]; intros i m Hk Hrun Hr;
    simpl in Hrun.
  - simplify_eq. destruct Hr as [Hr|Hr]; [set_solver|done].
  - destruct (processRoot edges i r0 m) as [m1|] eqn:E; [|done].
    eapply IH; [by eapply processRoot_sameKeys|exact Hrun|].
    destruct Hr as [[->|Hr]%elem_of_cons|Hr].
    + right. by eapply processRoot_root.
    + by left.
    + right. by eapply processRoot_keeps_zero.
Qed.

Section Claims.
Import Scenarios.
Local Open Scope string_scope.

(** C1 (the code departs from the claim). The claim has the traversal
    follow an edge from either end. The code follows edges from source to
    target only: with nodes [A (root), B] and the single edge [B -> A], the
    node [B] is linked to the root and yet gets neither a depth nor an
    island, while [getIslandNodes] of the graph state hook, which pushes
    both ends of an edge, puts [B] in the island of [A]. *)
Theorem C1_edge_into_root_not_followed :
  let nodes := [A; B] in
  let edges := [edge "B" "A"] in
  connected edges "A" "B" ∧
  depthMap (calculateDepthsAndIslands nodes edges) !! "A" = Some 0 ∧
  depthMap (calculateDepthsAndIslands nodes edges) !! "B" = None ∧
  islandMap (calculateDepthsAndIslands nodes edges) !! "B" = None ∧
  GraphState.getIslandNodes nodes edges "A" = Some [A; B].
Proof.
  simpl. split.
  - apply rtc_once. right. exists (edge "B" "A"). split; [set_solver|done].
  - repeat split; vm_compute; reflexivity.
Qed.

(** C3, the claim as worded fails: with roots [A], [X] in this order and
    the edge [A -> X], the traversal of [A] gives [X] depth 1 in island 0,
    and the turn of [X] then resets it to depth 0 in island 1. *)
Lemma C3_later_root_is_reseeded : ¬ firstClaimWins [A; X] [edge "A" "X"].
Proof.
  intros H.
  destruct (H [A] [X] (mkMaps {["A" := 0; "X" := 1]} {["A" := 0; "X" := 0]})
              "X" 1 0) as [Hd _].
  - reflexivity.
  - vm_compute. reflexivity.
  - vm_compute. reflexivity.
  - vm_compute. reflexivity.
  - vm_compute in Hd. discriminate Hd.
Qed.

End Claims.

(** C3 (amended). Once the roots [pre] have been handled, the depth and the
    island of an id are not changed by the roots [post] that follow, unless
    the id is that of one of these later roots; every root-type node ends at
    depth 0, in the island numbered by its rank among the roots (the rank of
    the last root carrying its id). *)
Theorem C3_first_claim_wins_except_later_roots nodes edges pre post m1 key :
  rootNodesOf nodes = pre ++ post →
  forEachRoot edges 0 pre emptyMaps = Some m1 →
  (∀ r, r ∈ post → GraphNode.id r ≠ key) →
  (∀ d, depthMap m1 !! key = Some d →
        depthMap (calculateDepthsAndIslands nodes edges) !! key = Some d) ∧
  (∀ i, islandMap m1 !! key = Some i →
        islandMap (calculateDepthsAndIslands nodes edges) !! key = Some i) ∧
  (∀ r, r ∈ pre ++ post →
        depthMap (calculateDepthsAndIslands nodes edges) !! GraphNode.id r = Some 0) ∧
  (∀ l1 r l2,
     rootNodesOf nodes = l1 ++ r :: l2 →
     (∀ r', r' ∈ l2 → GraphNode.id r' ≠ GraphNode.id r) →
     islandMap (calculateDepthsAndIslands nodes edges) !! GraphNode.id r
     = Some (length l1)).
Proof.
  intros Hsplit Hpre Hne.
  pose proof (calculate_unfold nodes edges) as Hrun.
  assert (Hk1 : sameKeys m1).
  { eapply forEachRoot_sameKeys; [apply sameKeys_empty|exact Hpre]. }
  split; [|split; [|split]]; cycle 3.
  { intros l1 r l2 Hl Hlast. clear Hsplit Hpre Hne Hk1.
    rewrite Hl, forEachRoot_app in Hrun.
    destruct (forEachRoot edges 0 l1 emptyMaps) as [ma|] eqn:Ea; [|done].
    simpl in Hrun.
    destruct (processRoot edges (length l1) r ma) as [mb|] eqn:Eb; [|done].
    assert (Hka : sameKeys ma).
    { eapply forEachRoot_sameKeys; [apply sameKeys_empty|exact Ea]. }
    destruct (processRoot_root _ _ _ _ _ Hka Eb) as [_ Hisl].
    eapply forEachRoot_frame; [|exact Hrun|exact Hlast|exact Hisl].
    by eapply processRoot_sameKeys. }
  - rewrite Hsplit, forEachRoot_app, Hpre in Hrun.
    by destruct (forEachRoot_frame _ _ _ _ _ key Hk1 Hrun Hne).
  - rewrite Hsplit, forEachRoot_app, Hpre in Hrun.
    by destruct (forEachRoot_frame _ _ _ _ _ key Hk1 Hrun Hne).
  - intros r Hr. rewrite <- Hsplit in Hr.
    eapply forEachRoot_roots_zero; [apply sameKeys_empty|exact Hrun|by left].
Qed.

Lemma C3_witness :
  depthMap (calculateDepthsAndIslands
              [Scenarios.A; Scenarios.B; Scenarios.X]
              [Scenarios.edge "A" "B"; Scenarios.edge "X" "B"]) !! "B"%string
  = Some 1.
Proof.
  refine (proj1 (C3_first_claim_wins_except_later_roots
            [Scenarios.A; Scenarios.B; Scenarios.X]
            [Scenarios.edge "A" "B"; Scenarios.edge "X" "B"]
            [Scenarios.A] [Scenarios.X]
            (mkMaps {["A"%string := 0; "B"%string := 1]}
                    {["A"%string := 0; "B"%string := 0]})
            "B"%string _ _ _) 1 _).
  - reflexivity.
  - vm_compute. reflexivity.
  - intros r Hr. apply list_elem_of_singleton in Hr. subst r. discriminate.
  - vm_compute. reflexivity.
Defined.

(** C9. Every target of an edge that leaves a root-type node gets a depth
    and an island, whether or not a node with that id was supplied; so the
    maps can hold keys outside the node list, as for nodes [A (root)] and
    the edge [A -> Z]. *)
Theorem C9_entries_for_ids_outside_the_node_list :
  (∀ nodes edges r e,
     r ∈ nodes → GraphNode.type r = root →
     e ∈ edges → GraphEdge.source e = GraphNode.id r →
     is_Some (depthMap (calculateDepthsAndIslands nodes edges) !! GraphEdge.target e) ∧
     is_Some (islandMap (calculateDepthsAndIslands nodes edges) !! GraphEdge.target e)) ∧
  (∃ nodes edges key,
     (key ∉ GraphNode.id <$> nodes) ∧
     depthMap (calculateDepthsAndIslands nodes edges) !! key = Some 1 ∧
     islandMap (calculateDepthsAndIslands nodes edges) !! key = Some 0).
Proof.
  split; [apply root_children_assigned|].
  exists [Scenarios.A], [Scenarios.edge "A" "Z"], "Z"%string.
  split; [|split; vm_compute; reflexivity].
  simpl. intros H%list_elem_of_singleton. discriminate H.
Qed.

Lemma C9_witness :
  is_Some (depthMap (calculateDepthsAndIslands
                       [Scenarios.A] [Scenarios.edge "A" "Z"]) !! "Z"%string).
Proof.
  refine (proj1 (proj1 C9_entries_for_ids_outside_the_node_list
            [Scenarios.A] [Scenarios.edge "A" "Z"]
            Scenarios.A (Scenarios.edge "A" "Z") _ _ _ _)).
  - apply list_elem_of_here.
  - reflexivity.
  - apply list_elem_of_here.
  - reflexivity.
Defined.

End TopologyClaims.

(** ** The claims about updates *)

Module UpdateClaims.
Import Topology TopologyVocab TopologyFacts TopologyInvariants TopologyClaims.
Import MindMap MergeVocab MergeFacts UpdateFacts.

Lemma nodeMap_is_Some env nodes edges s key :
  is_Some (jsMap (idPairs (store (update env nodes edges s))
                          (simNodesRef (update env nodes edges s))) !! key)
  ↔ key ∈ idsOf nodes.
Proof.
  rewrite jsMap_idPairs_is_Some, <- elem_of_simNodes_ids, update_ids. done.
Qed.

Lemma update_simLinksRef env nodes edges s :
  simLinksRef (update env nodes edges s) =
  buildLinks (jsMap (idPairs (store (update env nodes edges s))
                             (simNodesRef (update env nodes edges s)))) edges.
Proof. done. Qed.

(** C7, the claim as worded fails: with nodes [A (root), B] and the edges
    [A -> Z] and [Z -> B], both dropped since [Z] is no node, [B] gets depth
    2; without the two edges it gets depth 0. *)
Lemma C7_dropped_edges_still_set_the_depth :
  ¬ droppedEdgesLeaveSimNodes Scenarios.env0 [Scenarios.A; Scenarios.B]
      [Scenarios.edge "A" "Z"; Scenarios.edge "Z" "B"] initial.
Proof.
  intros H. apply (f_equal (fmap SimNode.depth)) in H.
  vm_compute in H. discriminate H.
Qed.

(** C7 (amended). After an update every stored link joins two objects of
    the new array, whose ids are the ends of one of the supplied edges; the
    links are exactly as many as the edges with both ends among the supplied
    node ids; the ids of the objects are those of the supplied nodes, and
    with any other edge list the update builds the same array of objects,
    equal in every field but depth and island index. These two are read
    from the maps computed from all the supplied edges, the dropped ones
    included. With nodes [A] and the edge [A -> Z] no link is stored and [A]
    is the only object. *)
Theorem C7_links_need_both_endpoints env nodes edges s :
  let s' := update env nodes edges s in
  (∀ link, link ∈ simLinksRef s' →
     SimLink.source link ∈ simNodesRef s' ∧
     SimLink.target link ∈ simNodesRef s' ∧
     ∃ e src tgt,
       e ∈ edges ∧ resolves nodes e ∧ SimLink.label link = GraphEdge.label e ∧
       store s' !! SimLink.source link = Some src ∧
       SimNode.id src = GraphEdge.source e ∧
       store s' !! SimLink.target link = Some tgt ∧
       SimNode.id tgt = GraphEdge.target e) ∧
  length (simLinksRef s') = length (filter (resolves nodes) edges) ∧
  SimNode.id <$> simNodes s' = idsOf nodes ∧
  (∀ edges',
     simNodesRef (update env nodes edges' s) = simNodesRef s' ∧
     withoutTopology <$> store (update env nodes edges' s)
     = withoutTopology <$> store s') ∧
  (∀ i node, nodes !! i = Some node →
     ∃ r n, simNodesRef s' !! i = Some r ∧ store s' !! r = Some n ∧
            SimNode.id n = GraphNode.id node ∧
            SimNode.depth n
            = default 0%nat (depthMap (calculateDepthsAndIslands nodes edges)
                               !! GraphNode.id node) ∧
            SimNode.islandIndex n
            = default 0%nat (islandMap (calculateDepthsAndIslands nodes edges)
                               !! GraphNode.id node)) ∧
  simLinksRef (update env [Scenarios.A] [Scenarios.edge "A" "Z"] s) = [] ∧
  SimNode.id <$> simNodes (update env [Scenarios.A] [Scenarios.edge "A" "Z"] s)
    = ["A"%string].
Proof.
  assert (Hlen : ∀ nodes edges,
            length (simLinksRef (update env nodes edges s))
            = length (filter (resolves nodes) edges)).
  { intros nodes' edges'. rewrite update_simLinksRef. unfold buildLinks.
    rewrite length_fmap. f_equal. apply list_filter_iff. intros e.
    unfold resolves. by rewrite !nodeMap_is_Some. }
  intros s'.
  split; [|split; [apply Hlen|split; [apply update_ids|split;
    [intros; apply update_edges_irrelevant|split; [|split]]]]].
  - intros link Hlink. subst s'. rewrite update_simLinksRef in Hlink.
    unfold buildLinks in Hlink.
    apply list_elem_of_fmap in Hlink as (e & -> & He).
    apply list_elem_of_filter in He as [[[rs Hs] [rt Ht]] He]. simpl.
    rewrite (lookup_total_correct _ _ _ Hs), (lookup_total_correct _ _ _ Ht).
    pose proof (proj1 (nodeMap_is_Some env nodes edges s _) (mk_is_Some _ _ Hs)).
    pose proof (proj1 (nodeMap_is_Some env nodes edges s _) (mk_is_Some _ _ Ht)).
    apply jsMap_idPairs_Some in Hs as (Hrs & ns & Hns & Hids).
    apply jsMap_idPairs_Some in Ht as (Hrt & nt & Hnt & Hidt).
    split; [done|]. split; [done|]. exists e, ns, nt. by repeat split.
  - intros i node Hi.
    destruct (update_entry env nodes edges s i node Hi)
      as (r & Hr & n & Hn & Hid & Hd & Hisl & _).
    by exists r, n.
  - apply nil_length_inv. rewrite Hlen. done.
  - apply update_ids.
Qed.

(** C10. In a state the component can reach, an update builds one object
    per supplied node, in order, under the id of the node. When the
    remembered id set is empty, each of them starts with entrance progress 1
    (and start time 0). When it is not empty, a node whose id is not
    remembered gets an object with entrance progress 0 and the current time
    as start time, and a node whose id is remembered gets the object that
    carried the id, with the entrance progress and start time it had. The
    remembered set is empty at creation and after an update that supplied no
    node. *)
Theorem C10_entrance_needs_a_nonempty_previous_set env nodes edges s :
  reachable s →
  let s' := update env nodes edges s in
  length (simNodesRef s') = length nodes ∧
  (prevNodeIdsRef s = ∅ →
   (∀ i node, nodes !! i = Some node →
      ∃ r n, simNodesRef s' !! i = Some r ∧ store s' !! r = Some n ∧
             SimNode.id n = GraphNode.id node ∧
             SimNode.entranceProgress n = 1%Q ∧
             SimNode.entranceStartTime n = 0%Q) ∧
   (∀ n, n ∈ simNodes s' →
      SimNode.entranceProgress n = 1%Q ∧ SimNode.entranceStartTime n = 0%Q)) ∧
  (prevNodeIdsRef s ≠ ∅ →
   ∀ i node, nodes !! i = Some node →
     (GraphNode.id node ∉ prevNodeIdsRef s →
      ∃ r n, simNodesRef s' !! i = Some r ∧ store s' !! r = Some n ∧
             SimNode.id n = GraphNode.id node ∧
             SimNode.entranceProgress n = 0%Q ∧
             SimNode.entranceStartTime n = now env) ∧
     (GraphNode.id node ∈ prevNodeIdsRef s →
      ∃ r old n, simNodesRef s' !! i = Some r ∧ r ∈ simNodesRef s ∧
                 store s !! r = Some old ∧ store s' !! r = Some n ∧
                 SimNode.id n = GraphNode.id node ∧
                 SimNode.entranceProgress n = SimNode.entranceProgress old ∧
                 SimNode.entranceStartTime n = SimNode.entranceStartTime old)) ∧
  prevNodeIdsRef initial = ∅ ∧
  prevNodeIdsRef (update env [] edges s) = ∅.
Proof.
  intros Hreach s'. apply reachable_Inv in Hreach.
  assert (Hfresh : ∀ i node,
            nodes !! i = Some node → GraphNode.id node ∉ prevNodeIdsRef s →
            ∃ r n, simNodesRef s' !! i = Some r ∧ store s' !! r = Some n ∧
                   SimNode.id n = GraphNode.id node ∧
                   SimNode.entranceProgress n
                   = (if isNewOf (prevNodeIdsRef s) node then 0 else 1)%Q ∧
                   SimNode.entranceStartTime n
                   = (if isNewOf (prevNodeIdsRef s) node then now env else 0)%Q).
  { intros i node Hi Hnot.
    destruct (update_entry env nodes edges s i node Hi)
      as (r & Hr & n & Hn & Hid & _ & _ & Hm).
    rewrite existingNodesOf_None in Hm by done.
    destruct Hm as (_ & ? & ?). by exists r, n. }
  split; [|split; [|split; [|done]]].
  - subst s'. rewrite update_simNodesRef.
    eapply Forall2_length, inv_entries, update_inv.
  - intros Hprev. split.
    + intros i node Hi.
      destruct (Hfresh i node Hi) as (r & n & Hr & Hn & Hid & Hp & Ht);
        [rewrite Hprev; set_solver|].
      unfold isNewOf in Hp, Ht. rewrite Hprev, size_empty, andb_false_r in Hp, Ht.
      by exists r, n.
    + intros n Hn.
      apply update_simNode_origin in Hn
        as (node & r & Hnode & Hr & n' & Hn' & _ & _ & _ & Hm).
      rewrite existingNodesOf_None in Hm by (try done; rewrite Hprev; set_solver).
      unfold isNewOf in Hm. rewrite Hprev, size_empty in Hm.
      rewrite andb_false_r in Hm. destruct Hm as (_ & ? & ?).
      rewrite Hr in Hn'. by simplify_eq.
  - intros Hprev i node Hi. split.
    + intros Hnot.
      destruct (Hfresh i node Hi Hnot) as (r & n & Hr & Hn & Hid & Hp & Ht).
      unfold isNewOf in Hp, Ht.
      rewrite bool_decide_eq_true_2 in Hp, Ht by done.
      rewrite bool_decide_eq_true_2 in Hp, Ht; [by exists r, n|..].
      all: destruct (size (prevNodeIdsRef s)) eqn:E; [|lia];
        apply size_empty_iff in E; exfalso; apply Hprev; by apply leibniz_equiv.
    + intros Hknown.
      destruct (update_entry env nodes edges s i node Hi)
        as (r & Hr & n & Hn & Hid & _ & _ & Hm).
      destruct (existingNodesOf_Some s _ Hreach Hknown) as [r' Hex].
      rewrite Hex in Hm. subst r'.
      pose proof Hex as (Hin & old & Hold & Hidold)%jsMap_idPairs_Some.
      pose proof (update_inv env nodes edges s) as [_ Hpres _ _].
      destruct (Hpres r old Hold) as (n' & Hn' & _ & _ & Han).
      rewrite <- update_store in Hn'.
      assert (n' = n) as -> by congruence.
      exists r, old, n. unfold SimNode.animation in Han.
      repeat split; try done; congruence.
Qed.

Lemma C10_witness :
  let s1 := update Scenarios.env0 [Scenarios.A] [] initial in
  let s2 := update Scenarios.env0 [Scenarios.A; Scenarios.B]
                   [Scenarios.edge "A" "B"] s1 in
  reachable s1 ∧ prevNodeIdsRef s1 ≠ ∅ ∧
  (GraphNode.id Scenarios.B ∉ prevNodeIdsRef s1) ∧
  ∃ r n, simNodesRef s2 !! 1%nat = Some r ∧ store s2 !! r = Some n ∧
         SimNode.id n = GraphNode.id Scenarios.B ∧
         SimNode.entranceProgress n = 0%Q ∧
         SimNode.entranceStartTime n = now Scenarios.env0.
Proof.
  intros s1 s2.
  assert (Hreach : reachable s1) by apply reach_update, reach_initial.
  assert (Hprev : prevNodeIdsRef s1 ≠ ∅).
  { intros H. assert (Hin : "A"%string ∈ prevNodeIdsRef s1)
      by apply elem_of_list_to_set, list_elem_of_here.
    rewrite H in Hin. by apply not_elem_of_empty in Hin. }
  assert (Hnew : GraphNode.id Scenarios.B ∉ prevNodeIdsRef s1).
  { intros H. apply elem_of_list_to_set, list_elem_of_singleton in H.
    discriminate H. }
  split; [exact Hreach|]. split; [exact Hprev|]. split; [exact Hnew|].
  exact (proj1 (proj1 (proj2 (proj2 (C10_entrance_needs_a_nonempty_previous_set
           Scenarios.env0 [Scenarios.A; Scenarios.B] [Scenarios.edge "A" "B"]
           s1 Hreach))) Hprev 1%nat Scenarios.B eq_refl) Hnew).
Defined.

(** C4. In a state the component can reach, a supplied node whose id is
    remembered from the previous update is given the object that already
    carries this id: the same reference, with id, position, velocity and the
    five animation fields as they were, and depth and island set from the
    new maps; when the supplied ids are distinct its label, type and reason
    are those of the supplied node. *)
Theorem C4_known_id_keeps_its_object env nodes edges s i node :
  reachable s →
  nodes !! i = Some node →
  GraphNode.id node ∈ prevNodeIdsRef s →
  let s' := update env nodes edges s in
  ∃ r old new,
    simNodesRef s' !! i = Some r ∧ r ∈ simNodesRef s ∧
    store s !! r = Some old ∧ SimNode.id old = GraphNode.id node ∧
    store s' !! r = Some new ∧
    SimNode.id new = SimNode.id old ∧
    SimNode.physics new = SimNode.physics old ∧
    SimNode.animation new = SimNode.animation old ∧
    SimNode.depth new =
      default 0 (depthMap (calculateDepthsAndIslands nodes edges) !! GraphNode.id node) ∧
    SimNode.islandIndex new =
      default 0 (islandMap (calculateDepthsAndIslands nodes edges) !! GraphNode.id node) ∧
    (NoDup (idsOf nodes) → SimNode.toGraphNode new = node).
Proof.
  intros Hreach Hi Hknown s'. subst s'. apply reachable_Inv in Hreach.
  destruct (update_entry env nodes edges s i node Hi)
    as (r & Hr & new & Hnew & Hid & Hd & Hisl & Hm).
  destruct (existingNodesOf_Some s _ Hreach Hknown) as [r' Hex].
  rewrite Hex in Hm. subst r'.
  pose proof Hex as (Hin & old & Hold & Hidold)%jsMap_idPairs_Some.
  pose proof (update_inv env nodes edges s) as [_ Hpres _ Hpay].
  destruct (Hpres r old Hold) as (new' & Hnew' & Hid' & Hph & Han).
  rewrite <- update_store in Hnew'.
  assert (new' = new) as -> by congruence.
  exists r, old, new. repeat split; try done.
  intros Hnd. specialize (Hpay Hnd).
  rewrite <- update_simNodesRef in Hpay. rewrite <- update_store in Hpay.
  destruct (Forall2_lookup_r _ _ _ _ _ Hpay Hi) as (r2 & Hr2 & n2 & Hn2 & Hpl).
  congruence.
Qed.

Lemma C4_witness :
  let s1 := update Scenarios.env0 [Scenarios.A] [] initial in
  let s2 := update Scenarios.env0 [Scenarios.A; Scenarios.B]
                   [Scenarios.edge "A" "B"] s1 in
  reachable s1 ∧ "A"%string ∈ prevNodeIdsRef s1 ∧
  ∃ r old new,
    simNodesRef s2 !! 0 = Some r ∧ r ∈ simNodesRef s1 ∧
    store s1 !! r = Some old ∧ SimNode.id old = "A"%string ∧
    store s2 !! r = Some new ∧
    SimNode.id new = SimNode.id old ∧
    SimNode.physics new = SimNode.physics old ∧
    SimNode.animation new = SimNode.animation old.
Proof.
  intros s1 s2.
  assert (Hreach : reachable s1) by apply reach_update, reach_initial.
  assert (Hknown : "A"%string ∈ prevNodeIdsRef s1).
  { apply elem_of_list_to_set, list_elem_of_here. }
  split; [exact Hreach|]. split; [exact Hknown|].
  destruct (C4_known_id_keeps_its_object Scenarios.env0
              [Scenarios.A; Scenarios.B] [Scenarios.edge "A" "B"] s1 0 Scenarios.A
              Hreach eq_refl Hknown)
    as (r & old & new & H1 & H2 & H3 & H4 & H5 & H6 & H7 & H8 & _).
  exists r, old, new. repeat split; assumption.
Defined.

(** C2, the claim as worded fails: with nodes [A (root), B] and no edge,
    [B] is connected to no root and has no entry in the maps, and yet its
    object gets depth 0 and island 0 and is painted with the colour of depth
    0 in island 0. *)
Lemma C2_unassigned_node_painted_as_depth_zero :
  ¬ unassignedNotDepthColoured Scenarios.env0 [Scenarios.A; Scenarios.B] []
      initial (mkProps false None true).
Proof.
  intros H.
  set (s' := update Scenarios.env0 [Scenarios.A; Scenarios.B] [] initial).
  assert (Hsn : ∃ sn, store s' !! 1 = Some sn) by (eexists; reflexivity).
  destruct Hsn as [sn Hsn].
  destruct (H sn) as (_ & _ & Hcol).
  - apply elem_of_simNodes. exists 1. split; [|exact Hsn].
    apply list_elem_of_lookup. exists 1. reflexivity.
  - intros (r & Hr & Ht & Hc).
    assert (Hid : SimNode.id sn = "B"%string) by (vm_compute in Hsn; by simplify_eq).
    rewrite Hid in Hc.
    apply elem_of_cons in Hr as [->|Hr].
    + apply rtc_inv in Hc as [Hc|(y & [(e & He & _)|(e & He & _)] & _)];
        [discriminate Hc|set_solver|set_solver].
    + apply list_elem_of_singleton in Hr. subst r. discriminate Ht.
  - apply (Hcol 0 0). vm_compute in Hsn. by simplify_eq.
Qed.

(** C2 (amended). An object of the new array whose id is connected to no
    root-type node, along edges taken in either direction, has no entry in
    the depth and island maps; it is given depth 0 and island 0, and when it
    is painted (entrance progress above 0, not the expanding node) its colour
    is that of depth 0 in island 0, [hsl(0, 85%, 55%)]. *)
Theorem C2_unassigned_node_defaults_to_depth_zero env nodes edges s props sn :
  sn ∈ simNodes (update env nodes edges s) →
  ¬ fromSomeRoot (connected edges) nodes (SimNode.id sn) →
  depthMap (calculateDepthsAndIslands nodes edges) !! SimNode.id sn = None ∧
  islandMap (calculateDepthsAndIslands nodes edges) !! SimNode.id sn = None ∧
  SimNode.depth sn = 0 ∧ SimNode.islandIndex sn = 0 ∧
  (Qle_bool (SimNode.entranceProgress sn) 0 = false →
   expandingNodeId props ≠ Some (SimNode.id sn) →
   nodeColor props sn = Some (Colour.getColorByDepthAndIsland 0 0) ∧
   Colour.getColorByDepthAndIsland 0 0 = Colour.hsl 0 85 55).
Proof.
  intros Hsn Hun.
  assert (Hd : depthMap (calculateDepthsAndIslands nodes edges) !! SimNode.id sn = None).
  { apply eq_None_not_Some. intros (r & Hr & Ht & Hreach)%calculate_sound.
    apply Hun. exists r. split; [done|]. split; [done|].
    by apply reaches_connected. }
  assert (Hi : islandMap (calculateDepthsAndIslands nodes edges) !! SimNode.id sn = None).
  { by apply calculate_sameKeys. }
  apply update_simNode_origin in Hsn
    as (node & r & Hnode & Hr & n' & Hn' & Hid & Hdep & Hisl & _).
  rewrite Hr in Hn'. injection Hn' as <-.
  rewrite <- Hid, Hd in Hdep. rewrite <- Hid, Hi in Hisl. simpl in Hdep, Hisl.
  repeat (split; [done|]).
  intros Hprog Hexp. split; [|reflexivity].
  unfold nodeColor. rewrite Hprog, Hdep, Hisl.
  by rewrite bool_decide_eq_false_2.
Qed.

Lemma C2_witness :
  let s' := update Scenarios.env0 [Scenarios.A; Scenarios.B] [] initial in
  ∃ sn, store s' !! 1 = Some sn ∧ SimNode.id sn = "B"%string ∧
        SimNode.depth sn = 0 ∧ SimNode.islandIndex sn = 0.
Proof.
  intros s'. eexists. split; [reflexivity|]. split; [reflexivity|].
  refine (let H := C2_unassigned_node_defaults_to_depth_zero
                     Scenarios.env0 [Scenarios.A; Scenarios.B] [] initial
                     (mkProps false None true) _ _ _ in
          conj (proj1 (proj2 (proj2 H))) (proj1 (proj2 (proj2 (proj2 H))))).
  - apply elem_of_simNodes. exists 1. split; [|reflexivity].
    apply list_elem_of_lookup. exists 1. reflexivity.
  - intros (r & Hr & Ht & Hc). simpl in Hc.
    apply elem_of_cons in Hr as [->|Hr].
    + apply rtc_inv in Hc as [Hc|(y & [(e & He & _)|(e & He & _)] & _)];
        [discriminate Hc|set_solver|set_solver].
    + apply list_elem_of_singleton in Hr. subst r. discriminate Ht.
Defined.

End UpdateClaims.

(** ** Double arithmetic *)

Module NumFacts.
Import Num RoundingVocab.
Local Open Scope Q_scope.

(** Known doubles: [0.1], [0.1 + 0.2], [1 / 3], [Math.sqrt(2)] and the
    square root of the square of the radius. *)
Example nearest_tenth :
  Qred (nearest (1 # 10)) = 3602879701896397 # 36028797018963968.
Proof. vm_compute. reflexivity. Qed.

Example add_tenth_fifth :
  Qred (add (nearest (1 # 10)) (nearest (2 # 10)))
  = 1351079888211149 # 4503599627370496.
Proof. vm_compute. reflexivity. Qed.

Example div_third : Qred (div 1 3) = 6004799503160661 # 18014398509481984.
Proof. vm_compute. reflexivity. Qed.

Example sqrt_two : Qred (sqrt 2) = 6369051672525773 # 4503599627370496.
Proof. vm_compute. reflexivity. Qed.

Example sqrt_of_radius_squared : Qred (sqrt 1600) = 40.
Proof. vm_compute. reflexivity. Qed.

Lemma pow2_pos e : 0 < 2 ^ e.
Proof. by apply Qpower_0_lt. Qed.

Lemma pow2_plus a b : 2 ^ (a + b) == 2 ^ a * 2 ^ b.
Proof. by apply Qpower_plus. Qed.

Lemma pow2_succ a : 2 ^ (a + 1) == 2 * 2 ^ a.
Proof. rewrite pow2_plus. change (2 ^ 1) with 2. ring. Qed.

Lemma pow2_pred a : 2 * 2 ^ (a - 1) == 2 ^ a.
Proof. rewrite <- pow2_succ. by replace (a - 1 + 1)%Z with a by lia. Qed.



Lemma pow2_lt_inv a b : 2 ^ a < 2 ^ b → (a < b)%Z.
Proof. intros H. by apply (Qpower_lt_compat_l_inv 2). Qed.

Lemma pow2_inject a : (0 <= a)%Z → inject_Z (2 ^ a) == 2 ^ a.
Proof. intros H. by rewrite Zpower_Qpower. Qed.

(** *** The binary exponent *)

Lemma ilog2_spec q : 0 < q → 2 ^ ilog2 q <= q ∧ q < 2 ^ (ilog2 q + 1).
Proof.
  destruct q as [n d]. intros Hq.
  assert (Hn : (0 < n)%Z) by (unfold Qlt in Hq; simpl in Hq; lia).
  unfold ilog2. cbn [Qnum Qden].
  set (a := Z.log2 n). set (b := Z.log2 (Z.pos d)).
  destruct (Z.log2_spec n Hn) as [Ha1 Ha2]. fold a in Ha1, Ha2.
  destruct (Z.log2_spec (Z.pos d) eq_refl) as [Hb1 Hb2]. fold b in Hb1, Hb2.
  assert (Ha0 : (0 <= a)%Z) by apply Z.log2_nonneg.
  assert (Hb0 : (0 <= b)%Z) by apply Z.log2_nonneg.
  rewrite Zle_Qle, pow2_inject in Ha1, Hb1 by done.
  rewrite Zlt_Qlt, pow2_inject, <- Z.add_1_r, pow2_succ in Ha2, Hb2 by lia.
  assert (HD : (n # d) * inject_Z (Z.pos d) == inject_Z n).
  { rewrite (Qmake_Qdiv n d). field. discriminate. }
  assert (HP : 2 ^ (a - b) * 2 ^ b == 2 ^ a).
  { rewrite <- pow2_plus. by replace (a - b + b)%Z with a by lia. }
  pose proof (pow2_pos (a - b)) as HP0. pose proof (pow2_pos b) as HB0.
  revert Ha1 Ha2 Hb1 Hb2 HD HP HP0 HB0 Hq.
  generalize (inject_Z n) (inject_Z (Z.pos d)) (2 ^ a) (2 ^ b). intros N D A B.
  destruct (Qle_bool (2 ^ (a - b)) (n # d)) eqn:E.
  - apply Qle_bool_iff in E. rewrite pow2_succ. revert E.
    generalize (2 ^ (a - b)) (n # d). intros P q. intros. split; [done|]. nra.
  - apply not_true_iff_false in E. rewrite Qle_bool_iff in E. apply Qnot_le_lt in E.
    replace (a - b - 1 + 1)%Z with (a - b)%Z by lia.
    pose proof (pow2_pred (a - b)) as Hpred. revert E Hpred.
    generalize (2 ^ (a - b - 1)) (2 ^ (a - b)) (n # d). intros P' P q. intros.
    split; [|done]. nra.
Qed.

Lemma ilog2_unique q l : 2 ^ l <= q → q < 2 ^ (l + 1) → ilog2 q = l.
Proof.
  intros H1 H2.
  assert (Hq : 0 < q) by (eapply Qlt_le_trans; [apply (pow2_pos l)|done]).
  destruct (ilog2_spec q Hq) as [H3 H4].
  assert (ilog2 q < l + 1)%Z by (apply pow2_lt_inv; by eapply Qle_lt_trans).
  assert (l < ilog2 q + 1)%Z by (apply pow2_lt_inv; by eapply Qle_lt_trans).
  lia.
Qed.



(** *** Rounding to the nearest integer *)






(** *** The nearest double *)













(** *** The square root *)







Lemma sqrt_proper a b : a == b → sqrt a = sqrt b.
Proof. intros H. unfold sqrt. by rewrite (Qred_complete _ _ H). Qed.



(** *** The test against the hit radius *)




End NumFacts.

(** ** Viewport and picking *)

Module PickingClaims.
Import MindMap MergeVocab MergeFacts UpdateFacts RoundingVocab NumFacts.
Local Open Scope Q_scope.

Lemma ltb_spec a b : Num.ltb a b = true ↔ a < b.
Proof.
  unfold Num.ltb. rewrite negb_true_iff, <- not_true_iff_false, Qle_bool_iff.
  split; [apply Qnot_le_lt|apply Qlt_not_le].
Qed.





Lemma inScaleExtent_nonzero t : inScaleExtent t → ¬ k t == 0.
Proof. intros [H1 H2] H0. rewrite H0 in H1. by apply Qle_bool_iff in H1. Qed.


Lemma toSimulation_toScreen t p :
  inScaleExtent t →
  (toSimulation t (toScreen t p)).1 == p.1 ∧
  (toSimulation t (toScreen t p)).2 == p.2.
Proof.
  intros Hk%inScaleExtent_nonzero. unfold toScreen, toSimulation. simpl.
  split; field; exact Hk.
Qed.









End PickingClaims.

(** ** Animation *)

Module AnimationClaims.
Import MindMap MergeVocab.
Local Open Scope Q_scope.



End AnimationClaims.

(** ** Depth is the distance from the root of the island *)

Module TopologyDistance.
Import Topology TopologyVocab DistanceVocab.
Import TopologyFacts TopologyInvariants TopologyClaims.

Lemma entry_inj m key d j d' j' : entry m key d j → entry m key d' j' → d = d' ∧ j = j'.
Proof. intros [? ?] [? ?]. split; congruence. Qed.

Lemma entry_of_depth m key d :
  sameKeys m → depthMap m !! key = Some d → ∃ j, entry m key d j.
Proof.
  intros Hk Hd. destruct (islandMap m !! key) as [j|] eqn:E.
  - by exists j.
  - apply Hk in E. congruence.
Qed.

Lemma extends_entry m0 m key d j : extends m0 m → entry m0 key d j → entry m key d j.
Proof. intros [Hd Hi] [? ?]. split; eauto. Qed.

Lemma visiting_start edges i cur rest m :
  sameKeys m → visiting edges i cur rest m (mkBfs rest m).
Proof.
  intros Hk. split; [done|]. split; [apply extends_refl|]. split; [by left|].
  exists []. split; [by rewrite app_nil_r|]. intros p Hp. by apply elem_of_nil in Hp.
Qed.

Lemma visiting_step edges i cur rest m s' c :
  c ∈ children edges cur.1 →
  visiting edges i cur rest m s' →
  visiting edges i cur rest m (visitChild i cur.2 s' c).
Proof.
  intros Hc (Hk & Hext & Hnew & pushed & Hq & Hpushed).
  pose proof (visitChild_extends i cur.2 s' c Hk) as Hstep.
  unfold visitChild in *. destruct (depthMap (maps s') !! c) eqn:E.
  { split; [done|]. split; [done|]. split; [done|]. by exists pushed. }
  assert (Ei : islandMap (maps s') !! c = None) by by apply Hk.
  cbn [maps queue depthMap islandMap] in *. split; [by apply sameKeys_insert|].
  split; [by eapply extends_trans|]. split.
  - intros key d j [Hd Hi]. cbn [maps queue depthMap islandMap] in Hd, Hi.
    destruct (decide (c = key)) as [->|Hne].
    + rewrite lookup_insert_eq in Hd, Hi. simplify_eq. right.
      split; [done|]. split; [done|]. split; [by apply children_spec|].
      cbn [queue]. rewrite fmap_app. set_solver.
    + rewrite lookup_insert_ne in Hd, Hi by done.
      destruct (Hnew key d j (conj Hd Hi)) as [?|(? & ? & ? & ?)]; [by left|].
      right. split; [done|]. split; [done|]. split; [done|].
      cbn [queue]. rewrite fmap_app. set_solver.
  - exists (pushed ++ [(c, S cur.2)]). split; [by rewrite Hq, app_assoc|].
    intros p [Hp| ->%list_elem_of_singleton]%elem_of_app.
    + destruct (Hpushed p Hp) as [? Hent]. split; [done|].
      by eapply extends_entry.
    + split; [done|]. split; cbn [maps depthMap islandMap fst snd];
        by rewrite lookup_insert_eq.
Qed.

Lemma visiting_all edges i cur rest m :
  sameKeys m →
  visiting edges i cur rest m (visitCurrent edges i cur rest m).
Proof.
  intros Hk. unfold visitCurrent.
  apply (visit_fold_invariant (visiting edges i cur rest m)).
  - intros. by apply visiting_step.
  - by apply visiting_start.
Qed.

Section Turn.
Variable edges : list GraphEdge.t.
Variable m0 : Maps.
Variable rid : string.
Variable i : nat.

Lemma BfsInv_step cur rest m :
  BfsInv edges m0 rid i (mkBfs (cur :: rest) m) →
  BfsInv edges m0 rid i (visitCurrent edges i cur rest m).
Proof.
  intros [Hk Hroot Hkept Hold Hpath Hqueue Hsorted Hlevel Hdone].
  cbn [maps queue] in *.
  destruct (visiting_all edges i cur rest m Hk)
    as (Hk' & Hext & Hnew & pushed & Hq & Hpushed).
  set (s' := visitCurrent edges i cur rest m) in *.
  assert (Hcur : entry m cur.1 cur.2 i) by (apply Hqueue; set_solver).
  assert (Hlev : ∀ key d, entry (maps s') key d i → d ≤ S cur.2).
  { intros key d Hent. destruct (Hnew key d i Hent) as [Hm|(_ & -> & _)]; [|done].
    apply (Hlevel cur key d); [set_solver|done]. }
  apply StronglySorted_cons in Hsorted as [Hhead Hsorted].
  rewrite Forall_forall in Hhead.
  split.
  - done.
  - by eapply extends_entry.
  - intros key d j Hne Hent. eapply extends_entry; [done|]. by apply Hkept.
  - intros key d j Hent Hj. destruct (Hnew key d j Hent) as [Hm|(-> & _)]; [|done].
    by apply Hold.
  - intros key d Hent. destruct (Hnew key d i Hent) as [Hm|(_ & -> & Hedge & _)].
    + by apply Hpath.
    + eapply nsteps_r; [|exact Hedge]. by apply Hpath.
  - intros p Hp. rewrite Hq in Hp. apply elem_of_app in Hp as [Hp|Hp].
    + eapply extends_entry; [done|]. apply Hqueue. set_solver.
    + destruct (Hpushed p Hp) as [-> ?]. done.
  - unfold queueSorted. rewrite Hq. apply StronglySorted_app. split; [|split].
    + intros p1 p2 Hp1 Hp2. destruct (Hpushed p2 Hp2) as [-> _].
      apply (Hlevel cur p1.1 p1.2); [set_solver|]. apply Hqueue. set_solver.
    + done.
    + clear -Hpushed. induction pushed as [|p pushed IH]; [constructor|].
      constructor.
      * apply IH. intros; apply Hpushed; set_solver.
      * apply Forall_forall. intros p' Hp'.
        destruct (Hpushed p) as [-> _]; [set_solver|].
        destruct (Hpushed p') as [-> _]; [set_solver|]. done.
  - intros p key d Hp Hent. specialize (Hlev key d Hent).
    rewrite Hq in Hp. apply elem_of_app in Hp as [Hp|Hp].
    + specialize (Hhead p Hp). simpl in Hhead. lia.
    + destruct (Hpushed p Hp) as [-> _]. lia.
  - intros key d c Hent Hnq Hedge.
    destruct (decide (key = cur.1)) as [->|Hne].
    + assert (Hc : is_Some (depthMap (maps s') !! c)).
      { subst s'. unfold visitCurrent. apply visit_fold_children.
        by apply children_spec. }
      destruct Hc as [dc Hc].
      destruct (entry_of_depth _ _ _ Hk' Hc) as [jc Hentc].
      exists dc, jc. split; [done|]. intros ->.
      destruct (entry_inj _ _ _ _ _ _ Hent (extends_entry _ _ _ _ _ Hext Hcur)) as [-> _].
      by apply (Hlev c).
    + destruct (Hnew key d i Hent) as [Hm|(_ & _ & _ & Hin)]; [|done].
      destruct (Hdone key d c Hm) as (dc & jc & Hentc & Hle); [|done|].
      * rewrite Hq, fmap_app in Hnq. rewrite fmap_cons. set_solver.
      * exists dc, jc. split; [by eapply extends_entry|done].
Qed.

Lemma BfsInv_loop fuel s m' :
  BfsInv edges m0 rid i s →
  bfsLoop fuel edges i s = Some m' → BfsInv edges m0 rid i (mkBfs [] m').
Proof.
  intros H Hrun.
  eapply (bfsLoop_invariant (BfsInv edges m0 rid i)); [|exact H|exact Hrun].
  intros cur rest m. apply BfsInv_step.
Qed.

End Turn.

Lemma seed_BfsInv roots edges i r m0 :
  sameKeys m0 → distancesOK roots edges i m0 →
  BfsInv edges m0 (GraphNode.id r) i (seed i r m0).
Proof.
  intros Hk Hdist.
  assert (Hlt : ∀ key d, ¬ entry m0 key d i).
  { intros key d Hent. destruct (Hdist key d i Hent) as [? _]. lia. }
  assert (Hseed : ∀ key d j, entry (maps (seed i r m0)) key d j →
            (key = GraphNode.id r ∧ d = 0 ∧ j = i) ∨
            (key ≠ GraphNode.id r ∧ entry m0 key d j)).
  { intros key d j [Hd Hi]. cbn [seed maps depthMap islandMap] in Hd, Hi.
    destruct (decide (GraphNode.id r = key)) as [<-|Hne].
    - rewrite lookup_insert_eq in Hd, Hi. left. by simplify_eq.
    - rewrite lookup_insert_ne in Hd, Hi by done. right. by repeat split. }
  split; cbn [seed queue].
  - by apply sameKeys_insert.
  - split; cbn [seed maps depthMap islandMap]; by rewrite lookup_insert_eq.
  - intros key d j Hne [Hd Hi].
    split; cbn [seed maps depthMap islandMap]; by rewrite lookup_insert_ne.
  - intros key d j Hent Hj.
    destruct (Hseed key d j Hent) as [(_ & _ & ->)|[? ?]]; done.
  - intros key d Hent.
    destruct (Hseed key d i Hent) as [(-> & -> & _)|[_ Hm]]; [constructor|].
    by destruct (Hlt key d).
  - intros p ->%list_elem_of_singleton.
    split; cbn [seed maps depthMap islandMap fst snd]; by rewrite lookup_insert_eq.
  - repeat constructor.
  - intros p key d _ Hent.
    destruct (Hseed key d i Hent) as [(_ & -> & _)|[_ Hm]]; [lia|].
    by destruct (Hlt key d).
  - intros key d c Hent Hnq _.
    destruct (Hseed key d i Hent) as [(-> & _)|[_ Hm]]; [set_solver|].
    by destruct (Hlt key d).
Qed.

Section AfterTurn.
Variable roots : list GraphNode.t.
Variable edges : list GraphEdge.t.
Variable m0 m' : Maps.
Variable r : GraphNode.t.
Variable i : nat.
Hypothesis Hroot : roots !! i = Some r.
Hypothesis Hbefore : turnsOK roots edges i m0.
Hypothesis Hinv : BfsInv edges m0 (GraphNode.id r) i (mkBfs [] m').

Lemma old_entry_not_current key d j : entry m0 key d j → j ≠ i.
Proof.
  destruct Hbefore as (_ & _ & Hdist). intros Hent.
  destruct (Hdist key d j Hent) as [? _]. lia.
Qed.

Lemma kept_or_root key :
  is_Some (depthMap m0 !! key) → ∃ d j, entry m' key d j ∧ (j = i → d = 0).
Proof.
  destruct Hbefore as (Hk & _ & _). intros [d Hd].
  destruct (entry_of_depth _ _ _ Hk Hd) as [j Hent].
  destruct (decide (key = GraphNode.id r)) as [->|Hne].
  - exists 0, i. split; [apply (bi_root _ _ _ _ _ Hinv)|done].
  - exists d, j. split; [by apply (bi_kept _ _ _ _ _ Hinv)|].
    intros ->. by destruct (old_entry_not_current key d i).
Qed.

Lemma reached_within n x :
  nsteps (edgeTo edges) n (GraphNode.id r) x →
  ∃ d j, entry m' x d j ∧ (j = i → d ≤ n).
Proof.
  revert x. induction n as [|n IH]; intros x Hpath.
  - inversion Hpath; subst. exists 0, i.
    split; [apply (bi_root _ _ _ _ _ Hinv)|done].
  - apply nsteps_inv_r in Hpath as (p & Hp & Hedge).
    destruct (IH p Hp) as (d & j & Hent & Hle).
    destruct (decide (j = i)) as [->|Hne].
    + destruct (bi_done _ _ _ _ _ Hinv p d x Hent) as (dc & jc & Hentc & Hlec);
        [set_solver|done|].
      exists dc, jc. split; [done|]. intros Hj. specialize (Hlec Hj).
      specialize (Hle eq_refl). lia.
    + destruct (bi_old _ _ _ _ _ Hinv p d j Hent Hne) as [_ Hm].
      destruct Hbefore as (_ & Hclosed & _).
      destruct (kept_or_root x) as (dx & jx & Hentx & Hx).
      { eapply Hclosed; [|exact Hedge]. destruct Hm as [-> _]. by eexists. }
      exists dx, jx. split; [done|]. intros Hj. rewrite (Hx Hj). lia.
Qed.

Lemma turnsOK_after : turnsOK roots edges (S i) m'.
Proof.
  pose proof (bi_keys _ _ _ _ _ Hinv) as Hk'. cbn [maps] in Hk'.
  split; [done|]. split.
  - intros k c [d Hd] Hedge.
    destruct (entry_of_depth _ _ _ Hk' Hd) as [j Hent].
    destruct (decide (j = i)) as [->|Hne].
    + destruct (bi_done _ _ _ _ _ Hinv k d c Hent) as (dc & jc & [Hc _] & _);
        [set_solver|done|]. by eexists.
    + destruct (bi_old _ _ _ _ _ Hinv k d j Hent Hne) as [_ Hm].
      destruct Hbefore as (_ & Hclosed & _).
      destruct (kept_or_root c) as (dc & jc & [Hc _] & _); [|by eexists].
      eapply Hclosed; [|exact Hedge]. destruct Hm as [-> _]. by eexists.
  - intros key d j Hent. destruct (decide (j = i)) as [->|Hne].
    + split; [lia|]. exists r. split; [done|]. split.
      * by apply (bi_path _ _ _ _ _ Hinv).
      * intros n Hpath. destruct (reached_within n key Hpath) as (d' & j' & Hent' & Hle).
        destruct (entry_inj _ _ _ _ _ _ Hent Hent') as [-> ->]. by apply Hle.
    + destruct (bi_old _ _ _ _ _ Hinv key d j Hent Hne) as [_ Hm].
      destruct Hbefore as (_ & _ & Hdist).
      destruct (Hdist key d j Hm) as [? ?]. split; [lia|done].
Qed.

End AfterTurn.

Lemma processRoot_turnsOK roots edges i r m0 m' :
  roots !! i = Some r → turnsOK roots edges i m0 →
  processRoot edges i r m0 = Some m' → turnsOK roots edges (S i) m'.
Proof.
  intros Hr Hbefore Hrun. eapply turnsOK_after; [done..|].
  eapply BfsInv_loop; [|exact Hrun].
  destruct Hbefore as (Hk & _ & Hdist). by eapply seed_BfsInv.
Qed.

Lemma forEachRoot_turnsOK roots edges rest pre post m m' :
  roots = pre ++ rest ++ post → turnsOK roots edges (length pre) m →
  forEachRoot edges (length pre) rest m = Some m' →
  turnsOK roots edges (length pre + length rest) m'.
Proof.
  revert pre m. induction rest as [|r rest IH]; intros pre m Hsplit Hok Hrun;
    simpl in Hrun.
  - injection Hrun as <-. simpl. by rewrite Nat.add_0_r.
  - destruct (processRoot edges (length pre) r m) as [m1|] eqn:E; [|done].
    replace (length pre + length (r :: rest))
      with (length (pre ++ [r]) + length rest)
      by (rewrite length_app; simpl; lia).
    apply (IH (pre ++ [r]) m1).
    + rewrite Hsplit, <- app_assoc. done.
    + rewrite length_app, Nat.add_1_r.
      eapply processRoot_turnsOK; [|done..]. rewrite Hsplit.
      by apply list_lookup_middle.
    + by rewrite length_app, Nat.add_1_r.
Qed.

Lemma turnsOK_empty roots edges : turnsOK roots edges 0 emptyMaps.
Proof.
  split; [apply sameKeys_empty|]. split.
  - intros k c [d Hd]. cbn [emptyMaps depthMap] in Hd.
    by rewrite lookup_empty in Hd.
  - intros key d j [Hd _]. cbn [emptyMaps depthMap] in Hd.
    by rewrite lookup_empty in Hd.
Qed.

Lemma calculate_turnsOK nodes edges :
  turnsOK (rootNodesOf nodes) edges (length (rootNodesOf nodes))
          (calculateDepthsAndIslands nodes edges).
Proof.
  apply (forEachRoot_turnsOK _ edges (rootNodesOf nodes) [] [] emptyMaps);
    [by rewrite app_nil_r|apply turnsOK_empty|apply calculate_unfold].
Qed.

(** An id has a depth exactly when it has an island, and exactly when some
    root-type node reaches it along edges followed from source to target. *)
Theorem assigned_iff_reached_from_a_root nodes edges key :
  (is_Some (depthMap (calculateDepthsAndIslands nodes edges) !! key) ↔
   fromSomeRoot (reaches edges) nodes key) ∧
  (is_Some (islandMap (calculateDepthsAndIslands nodes edges) !! key) ↔
   fromSomeRoot (reaches edges) nodes key).
Proof.
  assert (H : is_Some (depthMap (calculateDepthsAndIslands nodes edges) !! key) ↔
              fromSomeRoot (reaches edges) nodes key).
  { split; [apply calculate_sound|].
    intros (r & Hr & Ht & Hreach).
    destruct (calculate_turnsOK nodes edges) as (_ & Hclosed & _).
    assert (H0 : is_Some (depthMap (calculateDepthsAndIslands nodes edges)
                            !! GraphNode.id r)).
    { exists 0. eapply forEachRoot_roots_zero;
        [apply sameKeys_empty|apply calculate_unfold|].
      left. by apply elem_of_rootNodesOf. }
    clear Hr Ht. revert H0 Hreach. generalize (GraphNode.id r). clear r.
    intros a H0 Hreach.
    induction Hreach as [|x y z Hxy _ IH]; [done|].
    apply IH. by eapply Hclosed. }
  split; [done|]. rewrite <- H.
  rewrite <- !not_eq_None_Some.
  by rewrite (calculate_sameKeys nodes edges key).
Qed.

(** The depth of an id is the number of edges of a shortest path, along
    edges followed from source to target, from the root-type node whose rank
    among the roots is the island index of the id. *)
Theorem depth_is_distance_from_island_root nodes edges key d :
  depthMap (calculateDepthsAndIslands nodes edges) !! key = Some d →
  ∃ j r,
    islandMap (calculateDepthsAndIslands nodes edges) !! key = Some j ∧
    rootNodesOf nodes !! j = Some r ∧
    shortest edges (GraphNode.id r) key d.
Proof.
  intros Hd. destruct (calculate_turnsOK nodes edges) as (Hk & _ & Hdist).
  destruct (entry_of_depth _ _ _ Hk Hd) as [j Hent].
  destruct (Hdist key d j Hent) as (_ & r & Hr & Hshort).
  exists j, r. by destruct Hent.
Qed.

Lemma closed_reaches edges m a b :
  closedUnder edges m → reaches edges a b →
  is_Some (depthMap m !! a) → is_Some (depthMap m !! b).
Proof.
  intros Hclosed Hreach. induction Hreach as [|x y z Hxy _ IH]; [done|].
  intros Hx. apply IH. by eapply Hclosed.
Qed.

(** The maps after the first [length pre] roots. *)
Lemma prefix_turnsOK nodes edges pre post :
  rootNodesOf nodes = pre ++ post →
  ∃ m1, forEachRoot edges 0 pre emptyMaps = Some m1 ∧
        forEachRoot edges (length pre) post m1
        = Some (calculateDepthsAndIslands nodes edges) ∧
        turnsOK (rootNodesOf nodes) edges (length pre) m1.
Proof.
  intros Hsplit. pose proof (calculate_unfold nodes edges) as Hrun.
  rewrite Hsplit, forEachRoot_app in Hrun.
  destruct (forEachRoot edges 0 pre emptyMaps) as [m1|] eqn:E; [|done].
  exists m1. split; [done|]. split; [done|].
  apply (forEachRoot_turnsOK _ edges pre [] post emptyMaps);
    [done|apply turnsOK_empty|done].
Qed.

(** The island of an id that is not the id of a root-type node is the rank
    of the first root, in input order, that reaches it along edges followed
    from source to target. *)
Theorem island_is_first_reaching_root nodes edges key j :
  (∀ r, r ∈ rootNodesOf nodes → GraphNode.id r ≠ key) →
  islandMap (calculateDepthsAndIslands nodes edges) !! key = Some j →
  ∃ r, rootNodesOf nodes !! j = Some r ∧ reaches edges (GraphNode.id r) key ∧
       ∀ j' r', rootNodesOf nodes !! j' = Some r' →
                reaches edges (GraphNode.id r') key → j ≤ j'.
Proof.
  intros Hnot Hj.
  destruct (calculate_turnsOK nodes edges) as (Hk & _ & Hdist).
  destruct (depthMap (calculateDepthsAndIslands nodes edges) !! key) as [d|] eqn:Hd;
    [|apply Hk in Hd; congruence].
  destruct (Hdist key d j (conj Hd Hj)) as (_ & r & Hr & Hpath & _).
  exists r. split; [done|]. split; [by eapply rtc_nsteps_2|].
  intros j' r' Hr' Hreach.
  pose proof (take_drop_middle _ _ _ Hr') as Hsplit.
  assert (Hsplit' : rootNodesOf nodes
                    = (take j' (rootNodesOf nodes) ++ [r']) ++ drop (S j') (rootNodesOf nodes)).
  { by rewrite <- app_assoc. }
  destruct (prefix_turnsOK nodes edges _ _ Hsplit')
    as (m1 & Hpre & Hpost & Hk1 & Hclosed1 & Hdist1).
  assert (Hroot1 : is_Some (depthMap m1 !! GraphNode.id r')).
  { exists 0. eapply forEachRoot_roots_zero; [apply sameKeys_empty|exact Hpre|].
    left. set_solver. }
  destruct (closed_reaches _ _ _ _ Hclosed1 Hreach Hroot1) as [d1 Hd1].
  destruct (entry_of_depth _ _ _ Hk1 Hd1) as [j1 Hent1].
  destruct (Hdist1 key d1 j1 Hent1) as [Hlt _].
  destruct (forEachRoot_frame _ _ _ _ _ key Hk1 Hpost) as [_ Hisl].
  { intros r0 Hr0. apply Hnot. rewrite Hsplit'. set_solver. }
  destruct Hent1 as [_ Hi1]. specialize (Hisl j1 Hi1).
  assert (j1 = j) by congruence. subst j1.
  rewrite length_app, length_take in Hlt. simpl in Hlt.
  apply lookup_lt_Some in Hr'. lia.
Qed.

Lemma shortest_unique edges a b d d' :
  shortest edges a b d → shortest edges a b d' → d = d'.
Proof. intros [H1 L1] [H2 L2]. specialize (L1 _ H2). specialize (L2 _ H1). lia. Qed.

Lemma nsteps_same_relation edges1 edges2 n a b :
  (∀ x y, x ≠ y → edgeTo edges1 x y ↔ edgeTo edges2 x y) →
  nsteps (edgeTo edges1) n a b → ∃ n', n' ≤ n ∧ nsteps (edgeTo edges2) n' a b.
Proof.
  intros Hsame. induction 1 as [x|n x y z Hxy _ (n' & Hle & IH)].
  - exists 0. split; [done|constructor].
  - destruct (decide (x = y)) as [->|Hne].
    + exists n'. split; [lia|done].
    + exists (S n'). split; [lia|]. econstructor; [by apply Hsame|done].
Qed.

Lemma shortest_same_relation edges1 edges2 a b d :
  (∀ x y, x ≠ y → edgeTo edges1 x y ↔ edgeTo edges2 x y) →
  shortest edges1 a b d → shortest edges2 a b d.
Proof.
  intros Hsame [Hp Hl].
  assert (Hsame' : ∀ x y, x ≠ y → edgeTo edges2 x y ↔ edgeTo edges1 x y).
  { intros x y Hne. symmetry. by apply Hsame. }
  destruct (nsteps_same_relation _ _ _ _ _ Hsame Hp) as (d2 & Hle2 & Hp2).
  destruct (nsteps_same_relation _ _ _ _ _ Hsame' Hp2) as (d1 & Hle1 & Hp1).
  pose proof (Hl _ Hp1). assert (d2 = d) as -> by lia.
  split; [done|]. intros n Hn.
  destruct (nsteps_same_relation _ _ _ _ _ Hsame' Hn) as (n1 & Hlen & Hn1).
  pose proof (Hl _ Hn1). lia.
Qed.

Lemma reaches_same_relation edges1 edges2 a b :
  (∀ x y, x ≠ y → edgeTo edges1 x y ↔ edgeTo edges2 x y) →
  reaches edges1 a b → reaches edges2 a b.
Proof.
  intros Hsame (n & Hn)%rtc_nsteps_1.
  destruct (nsteps_same_relation _ _ _ _ _ Hsame Hn) as (n' & _ & Hn').
  by eapply rtc_nsteps_2.
Qed.

(** A root-type node ends in the island numbered by the rank of the last
    root that carries its id. *)
Lemma root_island_rank nodes edges l1 r l2 :
  rootNodesOf nodes = l1 ++ r :: l2 →
  (∀ r', r' ∈ l2 → GraphNode.id r' ≠ GraphNode.id r) →
  islandMap (calculateDepthsAndIslands nodes edges) !! GraphNode.id r
  = Some (length l1).
Proof.
  intros Hl Hlast. pose proof (calculate_unfold nodes edges) as Hrun.
  rewrite Hl, forEachRoot_app in Hrun.
  destruct (forEachRoot edges 0 l1 emptyMaps) as [ma|] eqn:Ea; [|done].
  simpl in Hrun.
  destruct (processRoot edges (length l1) r ma) as [mb|] eqn:Eb; [|done].
  assert (Hka : sameKeys ma).
  { eapply forEachRoot_sameKeys; [apply sameKeys_empty|exact Ea]. }
  destruct (processRoot_root _ _ _ _ _ Hka Eb) as [_ Hisl].
  eapply forEachRoot_frame; [|exact Hrun|exact Hlast|exact Hisl].
  by eapply processRoot_sameKeys.
Qed.

Lemma last_with_id (roots : list GraphNode.t) r0 :
  r0 ∈ roots →
  ∃ l1 r l2, roots = l1 ++ r :: l2 ∧ GraphNode.id r = GraphNode.id r0 ∧
             ∀ r', r' ∈ l2 → GraphNode.id r' ≠ GraphNode.id r.
Proof.
  induction roots as [|x roots IH] using rev_ind; [set_solver|].
  intros Hin. destruct (decide (GraphNode.id x = GraphNode.id r0)) as [Heq|Hne].
  - exists roots, x, []. split; [done|]. split; [done|]. set_solver.
  - apply elem_of_app in Hin as [Hin|Hin%list_elem_of_singleton]; [|congruence].
    destruct (IH Hin) as (l1 & r & l2 & -> & Hid & Hlast).
    exists l1, r, (l2 ++ [x]). split; [by rewrite <- app_assoc|]. split; [done|].
    intros r' [Hr'| ->%list_elem_of_singleton]%elem_of_app; [by apply Hlast|].
    congruence.
Qed.

(** The maps depend on the edges only through the relation "there is an
    edge from [a] to a different id [b]": the order of the edges, repeated
    edges, edge labels and edges from an id to itself make no difference. *)
Theorem maps_depend_on_the_edge_relation_only nodes edges1 edges2 :
  (∀ a b, a ≠ b → edgeTo edges1 a b ↔ edgeTo edges2 a b) →
  calculateDepthsAndIslands nodes edges1 = calculateDepthsAndIslands nodes edges2.
Proof.
  intros Hsame.
  assert (Hsame' : ∀ a b, a ≠ b → edgeTo edges2 a b ↔ edgeTo edges1 a b).
  { intros a b Hne. symmetry. by apply Hsame. }
  assert (Hkey : ∀ key,
            depthMap (calculateDepthsAndIslands nodes edges1) !! key
            = depthMap (calculateDepthsAndIslands nodes edges2) !! key ∧
            islandMap (calculateDepthsAndIslands nodes edges1) !! key
            = islandMap (calculateDepthsAndIslands nodes edges2) !! key).
  { intros key.
    destruct (decide (key ∈ GraphNode.id <$> rootNodesOf nodes)) as [Hroot|Hnot].
    - apply list_elem_of_fmap in Hroot as (r0 & -> & Hr0).
      destruct (last_with_id _ _ Hr0) as (l1 & r & l2 & Hsplit & <- & Hlast).
      assert (Hr : r ∈ rootNodesOf nodes) by (rewrite Hsplit; set_solver).
      split.
      + rewrite (forEachRoot_roots_zero edges1 _ _ _ _ r sameKeys_empty
                   (calculate_unfold nodes edges1) (or_introl Hr)).
        by rewrite (forEachRoot_roots_zero edges2 _ _ _ _ r sameKeys_empty
                      (calculate_unfold nodes edges2) (or_introl Hr)).
      + by rewrite (root_island_rank nodes edges1 _ _ _ Hsplit Hlast),
                   (root_island_rank nodes edges2 _ _ _ Hsplit Hlast).
    - assert (Hnot' : ∀ r, r ∈ rootNodesOf nodes → GraphNode.id r ≠ key).
      { intros r Hr <-. apply Hnot. by apply list_elem_of_fmap_2. }
      destruct (assigned_iff_reached_from_a_root nodes edges1 key) as [Hd1 Hi1].
      destruct (assigned_iff_reached_from_a_root nodes edges2 key) as [Hd2 Hi2].
      assert (Hfrom : fromSomeRoot (reaches edges1) nodes key ↔
                      fromSomeRoot (reaches edges2) nodes key).
      { split; intros (r & ? & ? & ?); exists r; repeat split; try done;
          by eapply reaches_same_relation. }
      destruct (depthMap (calculateDepthsAndIslands nodes edges1) !! key)
        as [d1|] eqn:E1.
      + destruct (proj2 Hd2 (proj1 Hfrom (proj1 Hd1 (mk_is_Some _ _ eq_refl))))
          as [d2 E2].
        destruct (depth_is_distance_from_island_root nodes edges1 key d1 E1)
          as (j1 & r1 & Hj1 & Hr1 & Hs1).
        destruct (depth_is_distance_from_island_root nodes edges2 key d2 E2)
          as (j2 & r2 & Hj2 & Hr2 & Hs2).
        destruct (island_is_first_reaching_root nodes edges1 key j1 Hnot' Hj1)
          as (r1' & Hr1' & Hreach1 & Hleast1).
        destruct (island_is_first_reaching_root nodes edges2 key j2 Hnot' Hj2)
          as (r2' & Hr2' & Hreach2 & Hleast2).
        assert (j1 = j2).
        { apply Nat.le_antisymm.
          - apply (Hleast1 j2 r2'); [done|]. by eapply reaches_same_relation.
          - apply (Hleast2 j1 r1'); [done|]. by eapply reaches_same_relation. }
        subst j2. rewrite E2, Hj1, Hj2. split; [|done]. f_equal.
        assert (r1 = r2) by congruence. subst r2.
        eapply shortest_unique; [|exact Hs2]. by eapply shortest_same_relation.
      + assert (E2 : depthMap (calculateDepthsAndIslands nodes edges2) !! key = None).
        { apply eq_None_not_Some. intros H2. apply Hd2, Hfrom, Hd1 in H2.
          destruct H2 as [? ?]. congruence. }
        rewrite E2. split; [done|].
        apply (calculate_sameKeys nodes edges1) in E1.
        apply (calculate_sameKeys nodes edges2) in E2. congruence. }
  destruct (calculateDepthsAndIslands nodes edges1) as [dm1 im1] eqn:E1.
  destruct (calculateDepthsAndIslands nodes edges2) as [dm2 im2] eqn:E2.
  simpl in Hkey. f_equal; apply map_eq; intros key; by destruct (Hkey key).
Qed.

End TopologyDistance.

(** ** The island traversal of the graph state hook returns the component *)

Module WalkFacts.
Import GraphState TopologyVocab WalkVocab GraphStateFacts.

Lemma nodeWithId_id nodes key n : nodeWithId nodes key = Some n → GraphNode.id n = key.
Proof.
  unfold nodeWithId. induction nodes as [|x nodes IH]; simpl; [done|].
  case_bool_decide; [by intros [= <-]|done].
Qed.

Lemma pushNeighbours_spec v vis q e u :
  u ∈ pushNeighbours v vis q e ↔
  u ∈ q ∨ ((u ∉ vis) ∧ ((GraphEdge.source e = v ∧ GraphEdge.target e = u) ∨
                        (GraphEdge.target e = v ∧ GraphEdge.source e = u))).
Proof.
  unfold pushNeighbours. repeat case_decide; rewrite ?elem_of_app, ?list_elem_of_singleton;
    naive_solver.
Qed.

Lemma pushNeighbours_fold_spec v vis edges q u :
  u ∈ foldl (pushNeighbours v vis) q edges ↔
  u ∈ q ∨ ((u ∉ vis) ∧ linked edges v u).
Proof.
  revert q. induction edges as [|e edges IH]; intros q; simpl.
  - split; [by left|]. intros [?|[_ [(e & He & _)|(e & He & _)]]]; [done|set_solver..].
  - rewrite IH, pushNeighbours_spec. unfold linked, edgeTo. split.
    + intros [[?|(Hu & [[? ?]|[? ?]])]|(Hu & [(e' & ? & ? & ?)|(e' & ? & ? & ?)])];
        [by left|right; split; [done|]..].
      * left. exists e. set_solver.
      * right. exists e. set_solver.
      * left. exists e'. set_solver.
      * right. exists e'. set_solver.
    + intros [?|(Hu & [(e' & [->|He']%elem_of_cons & ? & ?)
                      |(e' & [->|He']%elem_of_cons & ? & ?)])];
        [by left; left|..].
      * left. right. split; [done|]. by left.
      * right. split; [done|]. left. by exists e'.
      * left. right. split; [done|]. by right.
      * right. split; [done|]. right. by exists e'.
Qed.

Lemma walk_invariant (P : Walk → Prop) nodes edges :
  (∀ vis v rest isl, P (mkWalk vis (v :: rest) isl) → v ∈ vis →
     P (mkWalk vis rest isl)) →
  (∀ vis v rest isl, P (mkWalk vis (v :: rest) isl) → v ∉ vis →
     P (mkWalk ({[v]} ∪ vis)
               (foldl (pushNeighbours v ({[v]} ∪ vis)) rest edges)
               (match nodeWithId nodes v with
                | Some node => isl ++ [node]
                | None => isl
                end))) →
  ∀ fuel w result, P w → walk fuel nodes edges w = Some result →
    ∃ vis, P (mkWalk vis [] result).
Proof.
  intros Hskip Hvisit fuel. induction fuel as [|fuel IH]; intros [vis q isl] result HP Hrun.
  - destruct q; simpl in Hrun; [|done]. simplify_eq. by exists vis.
  - destruct q as [|v rest]; simpl in Hrun; [simplify_eq; by exists vis|].
    case_decide.
    + eapply IH; [|exact Hrun]. by apply (Hskip vis v rest isl).
    + eapply IH; [|exact Hrun]. by apply (Hvisit vis v rest isl).
Qed.

Lemma WalkInv_start nodes edges rootId :
  WalkInv nodes edges rootId (mkWalk ∅ [rootId] []).
Proof.
  split; simpl.
  - intros v [Hv|Hv%list_elem_of_singleton]; [set_solver|]. subst. constructor.
  - right. set_solver.
  - set_solver.
  - intros n. split; [by intros ?%elem_of_nil|set_solver].
  - constructor.
Qed.

Lemma WalkInv_skip nodes edges rootId vis v rest isl :
  WalkInv nodes edges rootId (mkWalk vis (v :: rest) isl) → v ∈ vis →
  WalkInv nodes edges rootId (mkWalk vis rest isl).
Proof.
  intros [Hc Hr Hcl Hn Hnd] Hv. simpl in *. split; simpl; [| | |done..].
  - intros u [Hu|Hu]; apply Hc; set_solver.
  - destruct Hr as [?|[->|?]%elem_of_cons]; auto.
  - intros x u Hx Hl. destruct (Hcl x u Hx Hl) as [?|[->|?]%elem_of_cons]; auto.
Qed.

Lemma WalkInv_visit nodes edges rootId vis v rest isl :
  WalkInv nodes edges rootId (mkWalk vis (v :: rest) isl) → v ∉ vis →
  WalkInv nodes edges rootId
    (mkWalk ({[v]} ∪ vis)
            (foldl (pushNeighbours v ({[v]} ∪ vis)) rest edges)
            (match nodeWithId nodes v with
             | Some node => isl ++ [node]
             | None => isl
             end)).
Proof.
  intros [Hc Hr Hcl Hn Hnd] Hv. simpl in *.
  assert (Hcv : connected edges rootId v) by (apply Hc; set_solver).
  split; simpl.
  - intros u [[->%elem_of_singleton|Hu]%elem_of_union
             |[Hu|[_ Hl]]%pushNeighbours_fold_spec].
    + done.
    + apply Hc. by left.
    + apply Hc. set_solver.
    + eapply rtc_r; [exact Hcv|exact Hl].
  - destruct Hr as [?|[->|?]%elem_of_cons]; [set_solver|set_solver|].
    right. apply pushNeighbours_fold_spec. by left.
  - intros x u [->%elem_of_singleton|Hx]%elem_of_union Hl.
    + destruct (decide (u ∈ ({[v]} ∪ vis : gset string))); [by left|].
      right. apply pushNeighbours_fold_spec. by right.
    + destruct (Hcl x u Hx Hl) as [?|[->|?]%elem_of_cons];
        [left; set_solver|left; set_solver|].
      right. apply pushNeighbours_fold_spec. by left.
  - intros n. destruct (nodeWithId nodes v) as [node|] eqn:E.
    + pose proof (nodeWithId_id _ _ _ E) as Hid.
      rewrite elem_of_app, list_elem_of_singleton, Hn. split.
      * intros [[? ?]| ->]; [split; [set_solver|done]|].
        rewrite Hid. split; [set_solver|done].
      * intros [[Heq%elem_of_singleton|?]%elem_of_union Hfind]; [|by left].
        right. rewrite Heq in Hfind. congruence.
    + rewrite Hn. split; [intros [? ?]; split; [set_solver|done]|].
      intros [[Heq%elem_of_singleton|?]%elem_of_union Hfind]; [|done].
      rewrite Heq in Hfind. congruence.
  - destruct (nodeWithId nodes v) as [node|] eqn:E; [|done].
    rewrite fmap_app. apply NoDup_app. split; [done|]. split; [|apply NoDup_singleton].
    intros key (n & -> & Hin)%list_elem_of_fmap Hkey.
    apply list_elem_of_singleton in Hkey. simpl in Hkey.
    apply Hn in Hin as [Hvis _]. apply Hv.
    rewrite <- (nodeWithId_id _ _ _ E). by rewrite <- Hkey.
Qed.

(** The walk ends with the connected ids visited and, of each, the first
    node carrying it collected. *)
Lemma getIslandNodes_visited nodes edges rootId :
  ∃ result (vis : gset string),
    getIslandNodes nodes edges rootId = Some result ∧
    (∀ v, v ∈ vis ↔ connected edges rootId v) ∧
    (∀ n, n ∈ result ↔
          GraphNode.id n ∈ vis ∧ nodeWithId nodes (GraphNode.id n) = Some n) ∧
    NoDup (GraphNode.id <$> result).
Proof.
  destruct (getIslandNodes_returns nodes edges rootId) as [result Hrun].
  destruct (walk_invariant (WalkInv nodes edges rootId) nodes edges
              (WalkInv_skip nodes edges rootId) (WalkInv_visit nodes edges rootId)
              _ _ _ (WalkInv_start nodes edges rootId) Hrun)
    as [vis [Hc Hr Hcl Hn Hnd]].
  simpl in *. exists result, vis. split; [done|]. split; [|done].
  intros v. split; [intros Hv; apply Hc; by left|].
  revert v. unfold connected. apply rtc_ind_r.
  - destruct Hr as [?|?%elem_of_nil]; done.
  - intros x y _ Hxy IH.
    destruct (Hcl x y IH Hxy) as [?|?%elem_of_nil]; done.
Qed.

(** [getIslandNodes] returns, without repeating an id, the nodes whose id
    is connected to the root id by edges taken in either direction: for each
    such id the first node of the list that carries it. *)
Theorem getIslandNodes_is_the_component nodes edges rootId :
  ∃ result,
    getIslandNodes nodes edges rootId = Some result ∧
    (∀ n, n ∈ result ↔
          connected edges rootId (GraphNode.id n) ∧
          nodeWithId nodes (GraphNode.id n) = Some n) ∧
    NoDup (GraphNode.id <$> result).
Proof.
  destruct (getIslandNodes_visited nodes edges rootId)
    as (result & vis & Hrun & Hvis & Hmem & Hnd).
  exists result. split; [exact Hrun|]. split; [|exact Hnd].
  intros n. rewrite Hmem. split.
  - intros [Hv Hfirst]. split; [by apply Hvis|exact Hfirst].
  - intros [Hv Hfirst]. split; [by apply Hvis|exact Hfirst].
Qed.

(** The island that [calculateDepthsAndIslands] gives a node lies inside
    the island that [getIslandNodes] returns for the root of that rank: a
    node with island index [j] is among the nodes returned for the id of the
    [j]-th root-type node. *)
Theorem island_lies_in_the_component_of_its_root nodes edges n j r :
  nodeWithId nodes (GraphNode.id n) = Some n →
  Topology.islandMap (Topology.calculateDepthsAndIslands nodes edges)
    !! GraphNode.id n = Some j →
  Topology.rootNodesOf nodes !! j = Some r →
  ∃ result,
    getIslandNodes nodes edges (GraphNode.id r) = Some result ∧ n ∈ result.
Proof.
  intros Hn Hj Hr.
  destruct (TopologyDistance.calculate_turnsOK nodes edges) as (Hk & _ & Hdist).
  destruct (Topology.depthMap (Topology.calculateDepthsAndIslands nodes edges)
              !! GraphNode.id n) as [d|] eqn:Hd;
    [|apply Hk in Hd; congruence].
  destruct (Hdist _ d j (conj Hd Hj)) as (_ & r' & Hr' & Hpath & _).
  assert (r' = r) as -> by congruence.
  destruct (getIslandNodes_visited nodes edges (GraphNode.id r))
    as (result & vis & Hrun & Hvis & Hmem & _).
  exists result. split; [done|]. apply Hmem. split; [|done].
  apply Hvis, TopologyClaims.reaches_connected. by eapply rtc_nsteps_2.
Qed.

End WalkFacts.

(** ** The reducers of the graph state hook *)

Module GraphStoreFacts.
Import GraphStore MergeVocab StoreVocab.

Lemma resolves_more nodes extra e : resolves nodes e → resolves (nodes ++ extra) e.
Proof.
  unfold resolves, idsOf. rewrite fmap_app. intros [? ?].
  split; apply elem_of_app; by left.
Qed.

Lemma noDangling_more ns es extra ls ls' :
  noDangling (mkState ns es ls) → noDangling (mkState (ns ++ extra) es ls').
Proof.
  unfold noDangling. simpl. intros H. eapply Forall_impl; [exact H|].
  intros e. apply resolves_more.
Qed.

Lemma keepEdge_resolves ns existing e :
  keepEdge (list_to_set (GraphNode.id <$> ns)) existing e → resolves ns e.
Proof.
  intros (Hs & Ht & _). unfold resolves, idsOf.
  by rewrite !elem_of_list_to_set in Hs, Ht.
Qed.

Lemma existsb_same_ends e (es : list GraphEdge.t) :
  existsb (λ e', bool_decide (GraphEdge.source e' = GraphEdge.source e) &&
                 bool_decide (GraphEdge.target e' = GraphEdge.target e)) es = true
  ↔ endsOf e ∈ endsOf <$> es.
Proof.
  rewrite existsb_exists, list_elem_of_fmap. unfold endsOf. split.
  - intros (e' & Hin%list_elem_of_In & [?%bool_decide_eq_true ?%bool_decide_eq_true]%andb_true_iff).
    exists e'. split; [congruence|done].
  - intros (e' & [= Hs Ht] & Hin). exists e'. split; [by apply list_elem_of_In|].
    apply andb_true_iff. split; by apply bool_decide_eq_true.
Qed.

Lemma existsb_same_id node (ns : list GraphNode.t) :
  existsb (λ n, bool_decide (GraphNode.id n = GraphNode.id node)) ns = true
  ↔ GraphNode.id node ∈ idsOf ns.
Proof.
  rewrite existsb_exists. unfold idsOf. rewrite list_elem_of_fmap. split.
  - intros (n & Hin%list_elem_of_In & ?%bool_decide_eq_true). by exists n.
  - intros (n & Hid & Hin). exists n. split; [by apply list_elem_of_In|].
    by apply bool_decide_eq_true.
Qed.

(** No reducer that checks the ends of an edge lets a dangling edge in:
    from a state without dangling edges, [addNode], [addNodes],
    [addNodesAndEdges], [addEdges] and [addLogEntry] lead to a state without
    dangling edges, whatever they are given; [addEdge] checks nothing, and
    does so exactly when the ends of its edge are already joined or are both
    ids of stored nodes. *)
Theorem checked_reducers_keep_edges_resolved prev :
  noDangling prev →
  (∀ node, noDangling (addNode node prev)) ∧
  (∀ newNodes, noDangling (addNodes newNodes prev)) ∧
  (∀ newNodes newEdges, noDangling (addNodesAndEdges newNodes newEdges prev)) ∧
  (∀ newEdges, noDangling (addEdges newEdges prev)) ∧
  (∀ entryId date topic reasoning count,
     noDangling (addLogEntry entryId date topic reasoning count prev)) ∧
  noDangling clearGraph ∧
  (∀ edge, noDangling (addEdge edge prev) ↔
           endsOf edge ∈ endsOf <$> edges prev ∨ resolves (nodes prev) edge).
Proof.
  intros Hprev. destruct prev as [ns es ls].
  split; [|split; [|split; [|split; [|split; [|split]]]]].
  - intros node. unfold addNode. destruct (existsb _ _); [done|].
    by eapply noDangling_more.
  - intros newNodes. unfold addNodes. simpl. case_decide; [done|].
    by eapply noDangling_more.
  - intros newNodes newEdges. unfold addNodesAndEdges, noDangling. simpl.
    apply Forall_app. split.
    + eapply Forall_impl; [exact Hprev|]. intros e. apply resolves_more.
    + apply Forall_forall. intros e [Hkeep _]%list_elem_of_filter.
      by eapply keepEdge_resolves.
  - intros newEdges. unfold addEdges. simpl. case_decide; [done|].
    unfold noDangling. simpl. apply Forall_app. split; [done|].
    apply Forall_forall. intros e [Hkeep _]%list_elem_of_filter.
    by eapply keepEdge_resolves.
  - done.
  - constructor.
  - intros edge. unfold addEdge. simpl.
    destruct (existsb _ es) eqn:E.
    + apply existsb_same_ends in E. split; [by left|done].
    + unfold noDangling. simpl. rewrite Forall_app, Forall_singleton. split.
      * intros [_ ?]. by right.
      * intros [Hin|?]; [|done]. apply existsb_same_ends in Hin. congruence.
Qed.

(** Except for [clearGraph], a reducer only appends: the nodes and edges
    held before are still there, in the same places. *)
Theorem reducers_only_append prev :
  (∀ node, nodes prev `prefix_of` nodes (addNode node prev) ∧
           edges (addNode node prev) = edges prev) ∧
  (∀ newNodes, nodes prev `prefix_of` nodes (addNodes newNodes prev) ∧
               edges (addNodes newNodes prev) = edges prev) ∧
  (∀ newNodes newEdges,
     nodes prev `prefix_of` nodes (addNodesAndEdges newNodes newEdges prev) ∧
     edges prev `prefix_of` edges (addNodesAndEdges newNodes newEdges prev)) ∧
  (∀ edge, nodes (addEdge edge prev) = nodes prev ∧
           edges prev `prefix_of` edges (addEdge edge prev)) ∧
  (∀ newEdges, nodes (addEdges newEdges prev) = nodes prev ∧
               edges prev `prefix_of` edges (addEdges newEdges prev)).
Proof.
  destruct prev as [ns es ls]. repeat split; simpl.
  - unfold addNode. destruct (existsb _ _); simpl; [done|by apply prefix_app_r].
  - unfold addNode. by destruct (existsb _ _).
  - unfold addNodes. simpl. case_decide; simpl; [done|by apply prefix_app_r].
  - unfold addNodes. simpl. by case_decide.
  - by apply prefix_app_r.
  - by apply prefix_app_r.
  - unfold addEdge. by destruct (existsb _ _).
  - unfold addEdge. destruct (existsb _ _); simpl; [done|by apply prefix_app_r].
  - unfold addEdges. simpl. by case_decide.
  - unfold addEdges. simpl. case_decide; simpl; [done|by apply prefix_app_r].
Qed.

Lemma NoDup_ids_append (ns newNodes : list GraphNode.t) :
  NoDup (idsOf ns) → NoDup (idsOf newNodes) →
  NoDup (idsOf (ns ++ filter (λ n, GraphNode.id n ∉
                   (list_to_set (GraphNode.id <$> ns) : gset string)) newNodes)).
Proof.
  intros Hns Hnew. unfold idsOf. rewrite fmap_app. apply NoDup_app.
  split; [done|]. split.
  - intros key Hkey (n & -> & [Hfresh _]%list_elem_of_filter)%list_elem_of_fmap.
    apply Hfresh. by apply elem_of_list_to_set.
  - clear Hns. unfold idsOf in Hnew. induction newNodes as [|n newNodes IH]; [constructor|].
    apply NoDup_cons in Hnew as [Hn Hnew]. rewrite filter_cons.
    case_decide; [|by apply IH]. csimpl. apply NoDup_cons. split; [|by apply IH].
    intros (n' & Hid & [_ Hin]%list_elem_of_filter)%list_elem_of_fmap.
    apply Hn. rewrite Hid. by apply list_elem_of_fmap_2.
Qed.

(** Node ids stay distinct: [addNode] never adds a second node with an id
    already held, and neither do [addNodes] and [addNodesAndEdges] when the
    nodes they are given have distinct ids. *)
Theorem node_ids_stay_distinct prev newNodes newEdges node :
  NoDup (idsOf (nodes prev)) →
  NoDup (idsOf (nodes (addNode node prev))) ∧
  (NoDup (idsOf newNodes) →
   NoDup (idsOf (nodes (addNodes newNodes prev))) ∧
   NoDup (idsOf (nodes (addNodesAndEdges newNodes newEdges prev)))).
Proof.
  intros Hprev. destruct prev as [ns es ls]. simpl in *. split.
  - unfold addNode. simpl. destruct (existsb _ ns) eqn:E; [done|]. simpl.
    unfold idsOf. rewrite fmap_app. apply NoDup_app.
    split; [done|]. split; [|apply NoDup_singleton].
    intros key Hkey ->%list_elem_of_singleton.
    apply existsb_same_id in Hkey. congruence.
  - intros Hnew. split.
    + unfold addNodes. simpl. case_decide; [done|]. simpl.
      by apply NoDup_ids_append.
    + unfold addNodesAndEdges. simpl. by apply NoDup_ids_append.
Qed.

Lemma filter_none {A} (P : A → Prop) `{∀ x, Decision (P x)} (l : list A) :
  (∀ x, x ∈ l → ¬ P x) → filter P l = [].
Proof.
  induction l as [|x l IH]; intros Hl; [done|].
  rewrite filter_cons_False by (apply Hl; set_solver).
  apply IH. intros; apply Hl; set_solver.
Qed.

(** Handing the same nodes and edges to [addNodesAndEdges] a second time
    changes nothing. *)
Theorem addNodesAndEdges_twice newNodes newEdges prev :
  addNodesAndEdges newNodes newEdges (addNodesAndEdges newNodes newEdges prev)
  = addNodesAndEdges newNodes newEdges prev.
Proof.
  destruct prev as [ns es ls]. unfold addNodesAndEdges at 1. simpl.
  set (added := filter (λ n, GraphNode.id n ∉
                  (list_to_set (GraphNode.id <$> ns) : gset string)) newNodes).
  set (valid := (list_to_set (GraphNode.id <$> ns ++ added) : gset string)).
  set (kept := filter (keepEdge valid (list_to_set (edgeKey <$> es))) newEdges).
  assert (Hn : filter (λ n, GraphNode.id n ∉ valid) newNodes = []).
  { apply filter_none. intros n Hn Hfresh. apply Hfresh.
    unfold valid. apply elem_of_list_to_set. rewrite fmap_app, elem_of_app.
    destruct (decide (GraphNode.id n ∈ GraphNode.id <$> ns)); [by left|].
    right. apply list_elem_of_fmap_2, list_elem_of_filter. split; [|done].
    by rewrite elem_of_list_to_set. }
  rewrite Hn, !app_nil_r. fold valid.
  assert (He : filter (keepEdge valid (list_to_set (edgeKey <$> es ++ kept))) newEdges = []).
  { apply filter_none. intros e He (Hs & Ht & Hkey). apply Hkey.
    apply elem_of_list_to_set. rewrite fmap_app, elem_of_app.
    destruct (decide (edgeKey e ∈ edgeKey <$> es)); [by left|].
    right. apply list_elem_of_fmap_2, list_elem_of_filter. split; [|done].
    split; [done|]. split; [done|]. by rewrite elem_of_list_to_set. }
  rewrite He, app_nil_r. done.
Qed.

(** The array returned by [getContext] never holds more than ten labels.
    While the number of nodes is the one remembered, it is the array of the
    earlier call, whatever the nodes are by now; otherwise it holds the
    labels of the last ten nodes, or of all if they are fewer, in order. *)
Theorem getContext_is_cached_by_node_count s c :
  length (contextRef c) ≤ MAX_CONTEXT_NODES →
  length (getContext s c).2 ≤ MAX_CONTEXT_NODES ∧
  length (contextRef (getContext s c).1) ≤ MAX_CONTEXT_NODES ∧
  (getContext s c).2 = contextRef (getContext s c).1 ∧
  contextNodesLengthRef (getContext s c).1 = length (nodes s) ∧
  (length (nodes s) ≠ contextNodesLengthRef c →
   (getContext s c).2 `suffix_of` (GraphNode.label <$> nodes s) ∧
   length (getContext s c).2 = Nat.min 10 (length (nodes s))) ∧
  (∀ s', length (nodes s') = length (nodes s) →
         (getContext s' (getContext s c).1).2 = (getContext s c).2).
Proof.
  intros Hc.
  assert (Hlen : length (recentLabels (nodes s)) ≤ MAX_CONTEXT_NODES).
  { unfold recentLabels, MAX_CONTEXT_NODES. rewrite length_fmap, length_drop. lia. }
  assert (Hsuffix : recentLabels (nodes s) `suffix_of` (GraphNode.label <$> nodes s)).
  { unfold recentLabels. rewrite fmap_drop. apply suffix_drop. }
  assert (Hmin : length (recentLabels (nodes s)) = Nat.min 10 (length (nodes s))).
  { unfold recentLabels, MAX_CONTEXT_NODES. rewrite length_fmap, length_drop. lia. }
  unfold getContext. case_decide as Hneq; simpl.
  - repeat split; try done. intros s' Hs'. rewrite decide_False by lia. done.
  - repeat split; try done.
    intros s' Hs'. rewrite decide_False by lia. done.
Qed.

End GraphStoreFacts.


(** ** The hook's state handed to the component *)

Module StoreToMindMap.
Import MindMap MergeVocab MergeFacts UpdateFacts UpdateClaims StoreVocab.

Lemma filter_all {A} (P : A → Prop) `{∀ x, Decision (P x)} (l : list A) :
  Forall P l → filter P l = l.
Proof.
  induction 1 as [|x l Hx _ IH]; [done|].
  by rewrite filter_cons_True, IH.
Qed.

(** When no stored edge dangles, the update turns every edge into a link:
    the links are the edges, in order, each joining the object with the id
    of its source to the object with the id of its target, under the same
    label. *)
Theorem every_resolved_edge_becomes_a_link env (g : GraphStore.State) s :
  noDangling g →
  let s' := update env (GraphStore.nodes g) (GraphStore.edges g) s in
  Forall2 (λ e link,
             SimLink.label link = GraphEdge.label e ∧
             ∃ src tgt,
               store s' !! SimLink.source link = Some src ∧
               SimNode.id src = GraphEdge.source e ∧
               store s' !! SimLink.target link = Some tgt ∧
               SimNode.id tgt = GraphEdge.target e)
          (GraphStore.edges g) (simLinksRef s').
Proof.
  intros Hg s'. subst s'. rewrite update_simLinksRef. unfold buildLinks.
  rewrite filter_all.
  2:{ eapply Forall_impl; [exact Hg|]. intros e [Hs Ht].
      by rewrite !nodeMap_is_Some. }
  apply Forall2_fmap_r, Forall_Forall2_diag.
  eapply Forall_impl; [exact Hg|]. intros e [Hs Ht]. simpl.
  apply (nodeMap_is_Some env _ (GraphStore.edges g) s) in Hs as [rs Hs].
  apply (nodeMap_is_Some env _ (GraphStore.edges g) s) in Ht as [rt Ht].
  rewrite (lookup_total_correct _ _ _ Hs), (lookup_total_correct _ _ _ Ht).
  apply jsMap_idPairs_Some in Hs as (_ & ns & Hns & Hids).
  apply jsMap_idPairs_Some in Ht as (_ & nt & Hnt & Hidt).
  split; [done|]. by exists ns, nt.
Qed.

End StoreToMindMap.


(** ** Colours and the legend *)

Module ColourFacts.
Import Colour PaintVocab.
Local Open Scope Z_scope.

Lemma min_one_bounds (a : Q) : (0 <= a)%Q → (0 <= Num.min a 1 ∧ Num.min a 1 <= 1)%Q.
Proof.
  intros Ha. unfold Num.min. destruct (Qle_bool a 1) eqn:E.
  - apply Qle_bool_iff in E. done.
  - split; [done|apply Qle_refl].
Qed.

Lemma min_one_mono (a b : Q) : (a <= b)%Q → (Num.min a 1 <= Num.min b 1)%Q.
Proof.
  intros Hab. unfold Num.min.
  destruct (Qle_bool a 1) eqn:Ea, (Qle_bool b 1) eqn:Eb.
  - done.
  - by apply Qle_bool_iff.
  - apply Qle_bool_iff in Eb.
    assert (Qle_bool a 1 = true) by (apply Qle_bool_iff; by eapply Qle_trans).
    congruence.
  - apply Qle_refl.
Qed.

Lemma min_one_saturates (a : Q) : (1 <= a)%Q → (Num.min a 1 == 1)%Q.
Proof.
  intros Ha. unfold Num.min. destruct (Qle_bool a 1) eqn:E; [|done].
  apply Qle_bool_iff in E. by apply Qle_antisym.
Qed.

(** The fraction [depth / maxDepth] of the interpolation. *)
Lemma fraction_nonneg (depth : nat) :
  (0 <= inject_Z (Z.of_nat depth) / inject_Z maxDepth)%Q.
Proof.
  apply Qle_shift_div_l; [done|]. rewrite Qmult_0_l.
  change 0%Q with (inject_Z 0). rewrite <- Zle_Qle. lia.
Qed.

Lemma fraction_mono (d1 d2 : nat) :
  (d1 ≤ d2)%nat →
  (inject_Z (Z.of_nat d1) / inject_Z maxDepth
   <= inject_Z (Z.of_nat d2) / inject_Z maxDepth)%Q.
Proof.
  intros H. unfold Qdiv. apply Qmult_le_compat_r; [|done].
  rewrite <- Zle_Qle. lia.
Qed.

Lemma fraction_saturates (depth : nat) :
  (8 ≤ depth)%nat → (1 <= inject_Z (Z.of_nat depth) / inject_Z maxDepth)%Q.
Proof.
  intros H. apply Qle_shift_div_l; [done|]. rewrite Qmult_1_l.
  rewrite <- Zle_Qle. unfold maxDepth. lia.
Qed.

(** [Math.round] of the interpolated hue. *)
Lemma hue_mono (t1 t2 : Q) :
  (t1 <= t2)%Q →
  Num.round (inject_Z startHue + inject_Z (endHue - startHue) * t1)
  ≤ Num.round (inject_Z startHue + inject_Z (endHue - startHue) * t2).
Proof.
  intros H. unfold Num.round. apply Qfloor_resp_le.
  apply Qplus_le_compat; [|apply Qle_refl].
  apply Qplus_le_compat; [apply Qle_refl|].
  rewrite !(Qmult_comm (inject_Z _)). apply Qmult_le_compat_r; [done|done].
Qed.

Lemma hue_proper (t1 t2 : Q) :
  (t1 == t2)%Q →
  Num.round (inject_Z startHue + inject_Z (endHue - startHue) * t1)
  = Num.round (inject_Z startHue + inject_Z (endHue - startHue) * t2).
Proof.
  intros H. apply Z.le_antisymm; apply hue_mono; rewrite H; apply Qle_refl.
Qed.

Lemma getColorByDepth_hsl depth :
  getColorByDepth depth
  = hsl (hueOf (getColorByDepth depth)) (satOf (getColorByDepth depth)) lightness.
Proof. done. Qed.

Lemma hue_range depth :
  0 ≤ hueOf (getColorByDepth depth) ≤ 270.
Proof.
  destruct (min_one_bounds _ (fraction_nonneg depth)) as [H0 H1].
  unfold getColorByDepth. cbn [hueOf]. split.
  - change 0 with (Num.round (inject_Z startHue + inject_Z (endHue - startHue) * 0)).
    by apply hue_mono.
  - change 270 with (Num.round (inject_Z startHue + inject_Z (endHue - startHue) * 1)).
    by apply hue_mono.
Qed.

Lemma sat_range depth :
  50 ≤ satOf (getColorByDepth depth) ≤ 85.
Proof.
  unfold getColorByDepth. cbn [satOf]. unfold maxDepth, saturation.
  destruct (8 <? Z.of_nat depth) eqn:E; [|lia].
  apply Z.ltb_lt in E. lia.
Qed.

(** The colours of the depths run from red to violet and then fade: a
    colour is [hsl(h, s%, 55%)] with [h] between 0 and 270 and [s] between
    50 and 85; the hue never falls and the saturation never rises as the
    depth grows; the hue is 270 from depth 8 on, the saturation is 85 up to
    depth 8, and from depth 15 on every depth has the one colour
    [hsl(270, 50%, 55%)]. *)
Theorem depth_colours_run_from_red_to_violet depth :
  let c := getColorByDepth depth in
  c = hsl (hueOf c) (satOf c) 55 ∧
  0 ≤ hueOf c ≤ 270 ∧ 50 ≤ satOf c ≤ 85 ∧
  hueOf c ≤ hueOf (getColorByDepth (S depth)) ∧
  satOf (getColorByDepth (S depth)) ≤ satOf c ∧
  ((8 ≤ depth)%nat → hueOf c = 270) ∧
  ((depth ≤ 8)%nat → satOf c = 85) ∧
  ((15 ≤ depth)%nat → c = hsl 270 50 55).
Proof.
  intros c. subst c.
  assert (Hviolet : (8 ≤ depth)%nat → hueOf (getColorByDepth depth) = 270).
  { intros H. unfold getColorByDepth. cbn [hueOf].
    rewrite (hue_proper _ 1); [done|].
    by apply min_one_saturates, fraction_saturates. }
  split; [apply getColorByDepth_hsl|].
  split; [apply hue_range|]. split; [apply sat_range|].
  split; [|split; [|split; [done|split]]].
  - unfold getColorByDepth. cbn [hueOf]. apply hue_mono, min_one_mono, fraction_mono. lia.
  - unfold getColorByDepth. cbn [satOf]. unfold maxDepth, saturation.
    destruct (8 <? Z.of_nat (S depth)) eqn:E1, (8 <? Z.of_nat depth) eqn:E2;
      try apply Z.ltb_lt in E1; try apply Z.ltb_lt in E2;
      try apply Z.ltb_ge in E1; try apply Z.ltb_ge in E2; lia.
  - intros H. unfold getColorByDepth. cbn [satOf]. unfold maxDepth.
    destruct (8 <? Z.of_nat depth) eqn:E; [apply Z.ltb_lt in E; lia|done].
  - intros H. rewrite getColorByDepth_hsl. rewrite Hviolet by lia. f_equal.
    unfold getColorByDepth. cbn [satOf]. unfold maxDepth, saturation.
    destruct (8 <? Z.of_nat depth) eqn:E; [apply Z.ltb_lt in E; lia|].
    apply Z.ltb_ge in E. lia.
Qed.

(** The hue offset of an island. *)
Lemma island_colour depth islandIndex :
  getColorByDepthAndIsland depth islandIndex
  = hsl ((hueOf (getColorByDepth depth)
          + default 0 (ISLAND_HUE_OFFSETS !! (islandIndex mod 10)%nat)) mod 360)
        (satOf (getColorByDepth depth)) lightness.
Proof.
  pose proof (hue_range depth) as Hh. pose proof (sat_range depth) as Hs.
  unfold getColorByDepthAndIsland. case_decide as Hi.
  - subst islandIndex. cbn [Nat.modulo Nat.divmod lookup]. simpl default.
    rewrite Z.add_0_r, Z.mod_small by lia. apply getColorByDepth_hsl.
  - rewrite getColorByDepth_hsl.
    assert (H1 : (0 <=? hueOf (getColorByDepth depth)) = true) by (apply Z.leb_le; lia).
    assert (H2 : (0 <=? satOf (getColorByDepth depth)) = true) by (apply Z.leb_le; lia).
    rewrite H1, H2. done.
Qed.

Lemma offset_of_rank (k : nat) :
  (k < 10)%nat →
  ∃ o, ISLAND_HUE_OFFSETS !! k = Some o ∧ 0 ≤ o < 360 ∧
       ∀ k' o', ISLAND_HUE_OFFSETS !! k' = Some o' → o' = o → k' = k.
Proof.
  intros Hk. do 10 (destruct k as [|k]; [eexists; split; [reflexivity|];
    split; [lia|]; intros k' o' Hk' ->;
    do 10 (destruct k' as [|k']; [by (done || discriminate Hk')|]); done|]).
  lia.
Qed.

(** An island index picks one of ten hue offsets: the colour of a depth is
    the same in two islands exactly when their indices differ by a multiple
    of ten; whatever the island, the hue lies between 0 and 359 and the
    saturation is that of the depth. *)
Theorem islands_share_colours_every_ten depth i j :
  (getColorByDepthAndIsland depth i = getColorByDepthAndIsland depth j
   ↔ (i mod 10 = j mod 10)%nat) ∧
  0 ≤ hueOf (getColorByDepthAndIsland depth i) < 360 ∧
  satOf (getColorByDepthAndIsland depth i) = satOf (getColorByDepth depth).
Proof.
  rewrite !island_colour. cbn [hueOf satOf].
  split; [|split; [apply Z.mod_pos_bound; lia|done]].
  split; [|by intros ->].
  intros H. apply (f_equal hueOf) in H. cbn [hueOf] in H.
  pose proof (hue_range depth) as Hh.
  destruct (offset_of_rank (i mod 10)) as (oi & Hoi & Hri & Hinj);
    [apply Nat.mod_upper_bound; lia|].
  destruct (offset_of_rank (j mod 10)) as (oj & Hoj & Hrj & _);
    [apply Nat.mod_upper_bound; lia|].
  rewrite Hoi, Hoj in H. cbn [default] in H.
  symmetry. apply (Hinj _ oj); [done|].
  unfold id in H. revert H Hh. generalize (hueOf (getColorByDepth depth)).
  intros h H Hh. Z.to_euclidean_division_equations. lia.
Qed.

End ColourFacts.


Module LegendFacts.
Import Legend.

Lemma ltb_lt (a b : Q) : Num.ltb a b = true ↔ (a < b)%Q.
Proof.
  unfold Num.ltb. rewrite negb_true_iff, <- not_true_iff_false, Qle_bool_iff.
  split; [apply Qnot_le_lt|apply Qlt_not_le].
Qed.

Lemma min_six (a : Q) : (Num.min a 6 <= 6)%Q.
Proof.
  unfold Num.min. destruct (Qle_bool a 6) eqn:E; [by apply Qle_bool_iff|apply Qle_refl].
Qed.

(** The loop stops at the first [d] that is not below [displayDepths];
    seven rounds are enough when [displayDepths] is at most six. *)
Lemma loop_returns (displayDepths : Q) fuel d items :
  (displayDepths <= 6)%Q → d + fuel = 7 → d ≤ 6 →
  ∃ k, loop fuel d displayDepths items = Some (items ++ (itemAt <$> seq d k)) ∧
       d + k ≤ 6 ∧
       (∀ j, j < k → (inject_Z (Z.of_nat (d + j)) < displayDepths)%Q) ∧
       ¬ (inject_Z (Z.of_nat (d + k)) < displayDepths)%Q.
Proof.
  intros Hdd. revert d items. induction fuel as [|fuel IH]; intros d items Hf Hd; [lia|].
  simpl. destruct (Num.ltb _ _) eqn:E.
  - apply ltb_lt in E.
    assert (d < 6).
    { assert (inject_Z (Z.of_nat d) < inject_Z 6)%Q as Hlt by (by eapply Qlt_le_trans).
      rewrite <- Zlt_Qlt in Hlt. lia. }
    destruct (IH (S d) (items ++ [itemAt d])) as (k & Hrun & Hk & Hbelow & Hstop);
      [lia|lia|].
    exists (S k). split; [by rewrite Hrun, <- app_assoc|].
    split; [lia|]. split.
    + intros [|j] Hj; [by rewrite Nat.add_0_r|].
      replace (d + S j) with (S d + j) by lia. apply Hbelow. lia.
    + by replace (d + S k) with (S d + k) by lia.
  - exists 0. rewrite app_nil_r, Nat.add_0_r. split; [done|]. split; [lia|].
    split; [lia|]. intros Hlt%ltb_lt. congruence.
Qed.

(** [getDepthLegend] returns at most six items; the item at index [i] has
    depth [i], the colour of depth [i] and the label and description of the
    [i]-th entry of [DEPTH_LABELS], so the ["Depth d"] fallback is never
    used; for a whole number [m] it returns [m + 1] items, or six if that is
    less. *)
Theorem getDepthLegend_shows_at_most_six (maxDepth : Q) :
  ∃ items,
    getDepthLegend maxDepth = Some items ∧
    length items ≤ 6 ∧
    (∀ i item, items !! i = Some item →
       depth item = i ∧ color item = Colour.getColorByDepth i ∧
       ∃ info, DEPTH_LABELS !! i = Some info ∧ ofDepth info = i ∧
               label item = name info ∧ description item = about info) ∧
    (∀ m : nat, (maxDepth == inject_Z (Z.of_nat m))%Q →
                length items = Nat.min (m + 1) 6).
Proof.
  destruct (loop_returns (Num.min (maxDepth + 1) 6) 7 0 [] (min_six _))
    as (k & Hrun & Hk & Hbelow & Hstop); [done|lia|].
  simpl in Hk, Hbelow, Hstop.
  exists (itemAt <$> seq 0 k). split; [exact Hrun|].
  rewrite length_fmap, length_seq. split; [done|]. split.
  - intros i item Hi. rewrite list_lookup_fmap in Hi.
    destruct (seq 0 k !! i) as [d|] eqn:Ed; [|done].
    apply lookup_seq in Ed as [-> Hik]. simpl in Hi. injection Hi as <-.
    split; [done|]. split; [done|]. unfold itemAt, labelInfo. simpl.
    do 6 (destruct i as [|i]; [by eexists|]). lia.
  - intros m Hm.
    assert (Hdd : (Num.min (maxDepth + 1) 6
                   == inject_Z (Z.of_nat (Nat.min (m + 1) 6)))%Q).
    { unfold Num.min. destruct (Qle_bool (maxDepth + 1) 6) eqn:E.
      - apply Qle_bool_iff in E. rewrite Hm in E |- *.
        change 1%Q with (inject_Z 1) in *. rewrite <- inject_Z_plus in *.
        change 6%Q with (inject_Z 6) in E. rewrite <- Zle_Qle in E.
        apply inject_Z_injective. lia.
      - apply not_true_iff_false in E. rewrite Qle_bool_iff in E.
        apply Qnot_le_lt in E. rewrite Hm in E.
        change 1%Q with (inject_Z 1) in E. rewrite <- inject_Z_plus in E.
        change 6%Q with (inject_Z 6) in E. rewrite <- Zlt_Qlt in E.
        change 6%Q with (inject_Z 6). apply inject_Z_injective. lia. }
    assert (Hnot : ¬ (k < Nat.min (m + 1) 6)).
    { intros Hlt. apply Hstop. rewrite Hdd, <- Zlt_Qlt. lia. }
    assert (Hall : ∀ j, j < k → j < Nat.min (m + 1) 6).
    { intros j Hj. specialize (Hbelow j Hj). rewrite Hdd, <- Zlt_Qlt in Hbelow. lia. }
    destruct k as [|k]; [lia|]. specialize (Hall k). lia.
Qed.

End LegendFacts.


(** ** Frames, ticks and what they paint *)

Module FrameFacts.
Import MindMap MergeVocab PaintVocab Paint.
Local Open Scope Q_scope.

Lemma fold_alter_Forall (P : SimNode.t → Prop) (f : ref → SimNode.t → SimNode.t)
    (refs : list ref) (st : list SimNode.t) :
  (∀ r n, P n → P (f r n)) →
  Forall P st → Forall P (foldl (λ st r, alter (f r) r st) st refs).
Proof.
  intros Hf. revert st. induction refs as [|r refs IH]; intros st Hst; [done|].
  simpl. apply IH. apply Forall_alter; [done|]. intros n _. apply Hf.
Qed.

Lemma fold_alter_fmap {B} (g : SimNode.t → B) (f : ref → SimNode.t → SimNode.t)
    (refs : list ref) (st : list SimNode.t) :
  (∀ r n, g (f r n) = g n) →
  g <$> foldl (λ st r, alter (f r) r st) st refs = g <$> st.
Proof.
  intros Hf. revert st. induction refs as [|r refs IH]; intros st; [done|].
  simpl. rewrite IH. apply list_eq. intros i. rewrite !list_lookup_fmap.
  destruct (decide (i = r)) as [->|Hne].
  - rewrite list_lookup_alter_eq. destruct (st !! r); simpl; [|done].
    by rewrite Hf.
  - by rewrite list_lookup_alter_ne.
Qed.

Lemma fold_alter_untouched (f : ref → SimNode.t → SimNode.t)
    (refs : list ref) (st : list SimNode.t) r :
  r ∉ refs → foldl (λ st r, alter (f r) r st) st refs !! r = st !! r.
Proof.
  revert st. induction refs as [|r0 refs IH]; intros st Hr; [done|].
  apply not_elem_of_cons in Hr as [Hne Hr]. simpl.
  rewrite IH by done. by rewrite list_lookup_alter_ne.
Qed.

(** An object met [c] times in the array is rewritten [c] times. *)
Lemma fold_alter_lookup (g : SimNode.t → SimNode.t) (refs : list ref)
    (st : list SimNode.t) r n :
  st !! r = Some n →
  foldl (λ st r, alter g r st) st refs !! r
  = Some (Nat.iter (length (filter (λ r', r' = r) refs)) g n).
Proof.
  revert st n. induction refs as [|r0 refs IH]; intros st n Hn; [done|].
  simpl. destruct (decide (r0 = r)) as [->|Hne].
  - rewrite filter_cons_True by done. simpl.
    rewrite (IH _ (g n)) by (by rewrite list_lookup_alter_eq, Hn).
    f_equal. clear. induction (length _) as [|c IHc]; [done|].
    simpl. by rewrite IHc.
  - rewrite filter_cons_False by done.
    apply IH. by rewrite list_lookup_alter_ne.
Qed.

Lemma min_one_le (a : Q) : Num.min 1 a <= 1.
Proof.
  unfold Num.min. destruct (Qle_bool 1 a) eqn:E; [apply Qle_refl|].
  apply not_true_iff_false in E. rewrite Qle_bool_iff in E.
  apply Qlt_le_weak. by apply Qnot_le_lt.
Qed.

Lemma animate_bounded now dt hov sel exp n :
  animationBounded n → animationBounded (animate now dt hov sel exp n).
Proof.
  intros (Hs1 & Hs2 & Hg1 & Hg2 & Hp). unfold animationBounded, animate.
  cbn [SimNode.scale SimNode.glowIntensity SimNode.entranceProgress].
  split; [|split; [|split; [|split]]].
  - unfold targetScale. repeat case_bool_decide; lra.
  - unfold targetScale. repeat case_bool_decide; lra.
  - unfold targetGlow. repeat case_bool_decide; lra.
  - unfold targetGlow. repeat case_bool_decide; lra.
  - destruct (Num.ltb _ _); [apply min_one_le|done].
Qed.

Lemma create_bounded tm env isNew d node :
  animationBounded (create tm env isNew d node).
Proof.
  unfold animationBounded, create.
  cbn [SimNode.scale SimNode.glowIntensity SimNode.entranceProgress].
  destruct isNew; repeat split; lra.
Qed.

Lemma refresh_bounded tm node n :
  animationBounded n → animationBounded (refresh tm node n).
Proof. done. Qed.

Lemma merge_bounded ex prev tm env nodes acc :
  Forall animationBounded (mstore acc) →
  Forall animationBounded (mstore (foldl (mergeNode ex prev tm env) acc nodes)).
Proof.
  revert acc. induction nodes as [|node nodes IH]; intros acc Hacc; [done|].
  simpl. apply IH. unfold mergeNode. destruct (ex !! _) as [r|]; cbn [mstore].
  - apply Forall_alter; [done|]. intros n _. apply refresh_bounded.
  - apply Forall_app. split; [done|]. apply Forall_singleton, create_bounded.
Qed.

(** In every state the component can reach, every object, in the array or
    dropped from it, has a scale between 1 and 1.25, a glow intensity
    between 0.4 and 0.9 and an entrance progress of at most 1. So the glow
    of a node is painted with a radius between 45.36 and 49.56 and the node
    with an opacity of at most 1. *)
Theorem animation_levels_stay_in_range s :
  reachable s →
  Forall animationBounded (store s) ∧
  (∀ n, n ∈ store s →
     4536 # 100 <= glowRadius n ∧ glowRadius n <= 4956 # 100 ∧
     opacity n <= 1).
Proof.
  intros Hreach.
  assert (Hs : Forall animationBounded (store s)).
  { induction Hreach as [|env nodes edges s _ IH|props lastTime now s _ IH
                         |move active s _ IH|t s _ _ IH
                         |props rect cx cy s _ IH|rect cx cy s _ IH|s _ IH].
    - constructor.
    - unfold update. cbn [store]. by apply merge_bounded.
    - unfold render. destruct (negb _); [done|]. cbn [store].
      apply (fold_alter_Forall _ (λ _, animate _ _ _ _ _)); [|done].
      intros _ n. apply animate_bounded.
    - unfold onTick. cbn [store].
      apply (fold_alter_Forall _ (λ _ n, setPhysics (move n) n)); [|done].
      intros _ n Hn. exact Hn.
    - done.
    - unfold handleCanvasClick. destruct props as [isExp expId cb].
      repeat (case_match; try done).
    - unfold handleMouseMove. destruct rect; [|done]. by case_decide.
    - done. }
  split; [exact Hs|]. rewrite Forall_forall in Hs.
  intros n (Hs1 & Hs2 & Hg1 & Hg2 & Hp)%Hs.
  unfold glowRadius, opacity, NODE_RADIUS.
  repeat split; try lra. apply min_one_le.
Qed.

(** A frame changes nothing but animation levels: of every object it
    leaves the id, label, type and reason, the depth and island, the
    position and velocity and the start time of the entrance as they are; it
    leaves alone the objects that are no longer in the array, and the array,
    the links, the remembered ids, the transform and the hovered and
    selected nodes. *)
Theorem frame_changes_animation_only props lastTime now s :
  let s' := render props lastTime now s in
  keptByFrame <$> store s' = keptByFrame <$> store s ∧
  (∀ r, r ∉ simNodesRef s → store s' !! r = store s !! r) ∧
  simNodesRef s' = simNodesRef s ∧ simLinksRef s' = simLinksRef s ∧
  prevNodeIdsRef s' = prevNodeIdsRef s ∧ transformRef s' = transformRef s ∧
  isSimulationActiveRef s' = isSimulationActiveRef s ∧
  hoveredNode s' = hoveredNode s ∧ selectedNode s' = selectedNode s.
Proof.
  intros s'. subst s'. unfold render. destruct (negb _); [done|]. cbn.
  split; [|split; [|done]].
  - by apply (fold_alter_fmap keptByFrame (λ _, animate _ _ _ _ _)).
  - intros r Hr. by apply (fold_alter_untouched (λ _, animate _ _ _ _ _)).
Qed.

Lemma simNodes_holds s r n :
  r ∈ simNodesRef s → store s !! r = Some n → n ∈ simNodes s.
Proof.
  intros Hr Hn. unfold simNodes. apply list_elem_of_omap. by exists r.
Qed.

(** In a frame, an object of the array whose entrance is not over gets the
    progress [min(1, (now - start) / 600)], however often the array holds
    it, and one whose entrance is over keeps its progress; so from 600 ms
    after the start on, the progress of an object that has not overshot
    is 1. *)
Theorem entrance_follows_the_clock props lastTime now s r n :
  r ∈ simNodesRef s →
  store s !! r = Some n →
  ∃ n', store (render props lastTime now s) !! r = Some n' ∧
        SimNode.entranceStartTime n' = SimNode.entranceStartTime n ∧
        SimNode.entranceProgress n'
        = (if Num.ltb (SimNode.entranceProgress n) 1
           then Num.min 1 ((now - SimNode.entranceStartTime n) / 600)
           else SimNode.entranceProgress n) ∧
        (SimNode.entranceProgress n <= 1 →
         SimNode.entranceStartTime n + 600 <= now →
         SimNode.entranceProgress n' == 1).
Proof.
  intros Hr Hn.
  set (final := if Num.ltb (SimNode.entranceProgress n) 1
                then Num.min 1 ((now - SimNode.entranceStartTime n) / 600)
                else SimNode.entranceProgress n).
  assert (Hfinal : SimNode.entranceProgress n <= 1 →
                   SimNode.entranceStartTime n + 600 <= now → final == 1).
  { intros Hle Hlate. unfold final. destruct (Num.ltb _ 1) eqn:E.
    - unfold Num.min.
      assert (Qle_bool 1 ((now - SimNode.entranceStartTime n) / 600) = true) as ->;
        [|done].
      apply Qle_bool_iff, Qle_shift_div_l; [done|]. lra.
    - unfold Num.ltb in E. apply negb_false_iff, Qle_bool_iff in E.
      by apply Qle_antisym. }
  unfold render. destruct (negb _) eqn:Eredraw.
  - assert (Hsame : SimNode.entranceProgress n = final).
    { unfold final. destruct (Num.ltb _ 1) eqn:E; [|done].
      apply negb_true_iff in Eredraw.
      assert (existsb (λ node, Num.ltb (SimNode.entranceProgress node) 1) (simNodes s)
              = true) as Hact.
      { apply existsb_exists. exists n. split; [|done].
        by apply list_elem_of_In, (simNodes_holds s r). }
      rewrite Hact in Eredraw.
      by destruct (needsRedrawRef s), (isSimulationActiveRef s). }
    exists n. split; [done|]. split; [done|]. split; [done|].
    intros. rewrite Hsame. by apply Hfinal.
  - cbn [store]. rewrite (fold_alter_lookup _ _ _ _ _ Hn).
    set (g := animate now (now - lastTime) (idOf s (hoveredNode s))
                      (idOf s (selectedNode s)) (expandingNodeId props)).
    set (c := length _).
    assert (Hc : (0 < c)%nat).
    { subst c. apply list_elem_of_split in Hr as (l1 & l2 & ->).
      rewrite filter_app, filter_cons_True, length_app by done. simpl. lia. }
    assert (Hstep : ∀ m,
              SimNode.entranceStartTime m = SimNode.entranceStartTime n →
              SimNode.entranceProgress m = SimNode.entranceProgress n ∨
              SimNode.entranceProgress m = final →
              SimNode.entranceStartTime (g m) = SimNode.entranceStartTime n ∧
              SimNode.entranceProgress (g m) = final).
    { intros m Hstart Hprog. split; [done|].
      unfold g, animate. cbn [SimNode.entranceProgress]. rewrite Hstart.
      destruct Hprog as [->| ->]; [done|].
      unfold final. destruct (Num.ltb (SimNode.entranceProgress n) 1) eqn:E.
      - by case_match.
      - by rewrite E. }
    assert (Hiter : ∀ c',
              SimNode.entranceStartTime (Nat.iter (S c') g n)
              = SimNode.entranceStartTime n ∧
              SimNode.entranceProgress (Nat.iter (S c') g n) = final).
    { induction c' as [|c' [Hstart Hprog]].
      - apply Hstep; [done|by left].
      - apply Hstep; [done|by right]. }
    destruct c as [|c]; [lia|]. destruct (Hiter c) as [Hstart Hprog].
    exists (Nat.iter (S c) g n).
    split; [done|]. split; [done|]. split; [done|].
    intros. rewrite Hprog. by apply Hfinal.
Qed.

End FrameFacts.

(** ** The scale over frames *)

Module FrameClaims.
Import MindMap MergeVocab UpdateFacts AnimationClaims FrameFacts.
Local Open Scope Q_scope.







End FrameClaims.

(** ** Running the update again *)

Module UpdateAgain.
Import Topology MindMap MergeVocab MergeFacts UpdateFacts.

Lemma refresh_fixed tm node n :
  SimNode.toGraphNode n = node →
  SimNode.depth n = default 0 (depthMap tm !! GraphNode.id node) →
  SimNode.islandIndex n = default 0 (islandMap tm !! GraphNode.id node) →
  refresh tm node n = n.
Proof.
  destruct n. unfold refresh, SimNode.toGraphNode. simpl.
  intros <-. simpl. by intros <- <-.
Qed.

Lemma alter_fixed (f : SimNode.t → SimNode.t) (st : list SimNode.t) r n :
  st !! r = Some n → f n = n → alter f r st = st.
Proof.
  intros Hn Hf. apply list_eq. intros i. destruct (decide (i = r)) as [->|Hne].
  - by rewrite list_lookup_alter_eq, Hn; simpl; rewrite Hf.
  - by rewrite list_lookup_alter_ne.
Qed.

(** Nodes that all have their object already, an object that the refresh
    leaves as it is, are merged without a change to the store. *)
Lemma merge_known ex prev tm env st refs nodes d o :
  Forall2 (λ r node, ex !! GraphNode.id node = Some r ∧
                     ∃ n, st !! r = Some n ∧ refresh tm node n = n) refs nodes →
  foldl (mergeNode ex prev tm env) (mkMerge st d o) nodes = mkMerge st d (o ++ refs).
Proof.
  intros H. revert o. induction H as [|r node refs nodes (Hex & n & Hn & Hfix) _ IH];
    intros o; [by rewrite app_nil_r|].
  simpl. unfold mergeNode at 2. rewrite Hex. cbn [mstore draws out].
  rewrite (alter_fixed _ _ _ _ Hn Hfix), IH, <- app_assoc. done.
Qed.

Lemma existing_after_update env nodes edges s i node r :
  NoDup (GraphNode.id <$> nodes) →
  nodes !! i = Some node →
  simNodesRef (update env nodes edges s) !! i = Some r →
  existingNodesOf (update env nodes edges s) !! GraphNode.id node = Some r.
Proof.
  intros Hnd Hi Hr. set (s1 := update env nodes edges s) in *.
  pose proof (inv_entries _ _ _ _ _ _ _ (update_inv env nodes edges s)) as Hent.
  rewrite <- update_store, <- update_simNodesRef in Hent. fold s1 in Hent.
  destruct (Forall2_lookup_lr _ _ _ _ _ _ Hent Hr Hi) as (n & Hn & Hid & _).
  destruct (existingNodesOf s1 !! GraphNode.id node) as [r'|] eqn:Eex.
  - f_equal. pose proof Eex as (Hr' & n' & Hn' & Hid')%jsMap_idPairs_Some.
    apply list_elem_of_lookup in Hr' as [j Hj].
    destruct (Forall2_lookup_l _ _ _ _ _ Hent Hj) as (node' & Hj' & n'' & Hn'' & Hid'' & _).
    assert (j = i); [|congruence].
    eapply NoDup_lookup; [exact Hnd| |].
    + rewrite list_lookup_fmap, Hj'. simpl. reflexivity.
    + rewrite list_lookup_fmap, Hi. simpl. f_equal. congruence.
  - exfalso. apply eq_None_not_Some in Eex. apply Eex.
    apply jsMap_idPairs_is_Some. exists r, n.
    split; [by eapply list_elem_of_lookup_2|done].
Qed.

(** Running the update a second time with the same nodes and edges, whose
    ids are distinct, changes nothing, whatever the time, the dimensions and
    the random numbers of the second run: every object keeps its position,
    velocity and animation, and no entrance starts again. *)
Theorem update_again_changes_nothing env env' nodes edges s :
  NoDup (GraphNode.id <$> nodes) →
  update env' nodes edges (update env nodes edges s) = update env nodes edges s.
Proof.
  intros Hnd. set (s1 := update env nodes edges s).
  pose proof (update_inv env nodes edges s) as Hinv.
  pose proof (inv_entries _ _ _ _ _ _ _ Hinv) as Hent.
  pose proof (inv_payload _ _ _ _ _ _ _ Hinv Hnd) as Hpay.
  rewrite <- update_store, <- update_simNodesRef in Hent, Hpay.
  fold s1 in Hent, Hpay.
  assert (Hmerge :
    foldl (mergeNode (existingNodesOf s1) (prevNodeIdsRef s1)
                     (calculateDepthsAndIslands nodes edges) env')
          (mkMerge (store s1) 0 []) nodes
    = mkMerge (store s1) 0 (simNodesRef s1)).
  { rewrite (merge_known _ _ _ _ _ (simNodesRef s1)); [done|].
    apply Forall2_same_length_lookup. split; [by eapply Forall2_length|].
    intros i r node Hr Hi. split; [by eapply existing_after_update|].
    destruct (Forall2_lookup_lr _ _ _ _ _ _ Hent Hr Hi) as (n & Hn & _ & Hd & Hisl & _).
    destruct (Forall2_lookup_lr _ _ _ _ _ _ Hpay Hr Hi) as (n' & Hn' & Hgn).
    assert (n' = n) as -> by congruence.
    exists n. split; [done|]. by apply refresh_fixed. }
  unfold update at 1. fold (existingNodesOf s1). rewrite Hmerge.
  cbn [mstore out]. subst s1. unfold update at 6. cbn.
  reflexivity.
Qed.

End UpdateAgain.

(** ** Pointer events *)

Module PointerFacts.
Import MindMap.

(** Pointing and clicking pick alike. After the pointer has moved to a
    place, moving it there again changes nothing; a click at the same place,
    when no expansion is under way, selects the hovered object and hands its
    id, label, type and reason to the callback, and does nothing when no
    object is hovered; neither handler touches the objects, the array, the
    links or the transform. *)
Theorem pointing_and_clicking_pick_alike props rect clientX clientY s :
  let s1 := handleMouseMove (Some rect) clientX clientY s in
  let click := handleCanvasClick props (Some rect) clientX clientY s1 in
  handleMouseMove (Some rect) clientX clientY s1 = s1 ∧
  (isExpanding props = true → click = (s1, None)) ∧
  (isExpanding props = false →
   selectedNode click.1
   = (if hoveredNode s1 is Some r then Some r else selectedNode s) ∧
   click.2 = (if onNodeClick props
              then hoveredNode s1 ≫= λ r, SimNode.toGraphNode <$> store s !! r
              else None)) ∧
  store click.1 = store s ∧ simNodesRef click.1 = simNodesRef s ∧
  simLinksRef click.1 = simLinksRef s ∧ transformRef click.1 = transformRef s.
Proof.
  intros s1 click.
  assert (Hpick : hoveredNode s1
                  = findNodeAtPosition s (Num.sub clientX (left rect))
                                         (Num.sub clientY (top rect))).
  { subst s1. unfold handleMouseMove. by case_decide. }
  assert (Hsame : ∀ x y, findNodeAtPosition s1 x y = findNodeAtPosition s x y).
  { intros x y. subst s1. unfold handleMouseMove. by case_decide. }
  rewrite <- Hsame in Hpick.
  assert (Hkeep : store s1 = store s ∧ simNodesRef s1 = simNodesRef s ∧
                  simLinksRef s1 = simLinksRef s ∧ transformRef s1 = transformRef s ∧
                  selectedNode s1 = selectedNode s).
  { subst s1. unfold handleMouseMove. by case_decide. }
  destruct Hkeep as (Hst & Hrefs & Hlinks & Htr & Hsel).
  clearbody s1. rewrite <- Hst, <- Hrefs, <- Hlinks, <- Htr, <- Hsel.
  split; [|split; [|split]].
  - unfold handleMouseMove at 1. rewrite <- Hpick. by rewrite decide_True.
  - intros Hexp. subst click. unfold handleCanvasClick. by rewrite Hexp.
  - intros Hexp. subst click. unfold handleCanvasClick. rewrite Hexp, <- Hpick.
    destruct (hoveredNode s1) as [r|]; cbn; [done|by destruct (onNodeClick props)].
  - subst click. unfold handleCanvasClick.
    destruct (isExpanding props); [done|].
    destruct (findNodeAtPosition s1 _ _); done.
Qed.

End PointerFacts.

(** ** The islands of the hook *)

Module IslandFacts.
Import GraphStore TopologyVocab WalkVocab WalkFacts MergeVocab.

Lemma fold_insert_lookup {V} (g : string → V) (l : list GraphNode.t) key :
  foldl (λ (m : gmap string V) r, <[GraphNode.id r := g (GraphNode.id r)]> m) ∅ l !! key
  = if decide (key ∈ GraphNode.id <$> l) then Some (g key) else None.
Proof.
  induction l as [|r l IH] using rev_ind.
  - cbn [foldl]. rewrite lookup_empty. case_decide as H; [|done].
    by apply elem_of_nil in H.
  - rewrite foldl_snoc, fmap_app. cbn [fmap list_fmap].
    destruct (decide (GraphNode.id r = key)) as [<-|Hne].
    + clear IH. rewrite lookup_insert_eq. case_decide as H; [done|].
      exfalso. apply H. set_solver.
    + rewrite lookup_insert_ne, IH by done.
      repeat case_decide; try done; exfalso; set_solver.
Qed.

Lemma connected_sym edges a b : connected edges a b → connected edges b a.
Proof.
  unfold connected. induction 1 as [|x y z Hxy _ IH]; [done|].
  eapply rtc_r; [exact IH|]. destruct Hxy; [by right|by left].
Qed.

Lemma nodeWithId_elem nodes key n : nodeWithId nodes key = Some n → n ∈ nodes.
Proof.
  unfold nodeWithId. induction nodes as [|x nodes IH]; simpl; [done|].
  case_bool_decide; [intros [= <-]; by left|]. intros Hfind. right. by apply IH.
Qed.

Lemma nodeWithId_found nodes key :
  key ∈ GraphNode.id <$> nodes → is_Some (nodeWithId nodes key).
Proof.
  unfold nodeWithId. induction nodes as [|x nodes IH]; csimpl; [by intros ?%elem_of_nil|].
  case_bool_decide; [by eexists|].
  intros [?|?]%elem_of_cons; [congruence|by apply IH].
Qed.

Lemma getIslandNodes_elem s key n :
  n ∈ getIslandNodes s key ↔
  connected (edges s) key (GraphNode.id n) ∧
  nodeWithId (nodes s) (GraphNode.id n) = Some n.
Proof.
  unfold getIslandNodes.
  destruct (getIslandNodes_visited (nodes s) (edges s) key)
    as (result & vis & -> & Hvis & Hmem & _).
  simpl. by rewrite Hmem, Hvis.
Qed.

(** [getNodesPerIsland] has one entry per id of a root-type node, the
    island of that id. An island holds a node with the id of its root, holds
    only nodes of the graph and no id twice; and two islands that share a
    node hold the same nodes. *)
Theorem islands_partition_the_connected_nodes s key :
  getNodesPerIsland s !! key
  = (if decide (key ∈ GraphNode.id <$> getRootNodes s)
     then Some (getIslandNodes s key) else None) ∧
  (∀ island, getNodesPerIsland s !! key = Some island →
     (∃ n, n ∈ island ∧ GraphNode.id n = key) ∧
     island ⊆ nodes s ∧ NoDup (GraphNode.id <$> island)) ∧
  (∀ key' n, n ∈ getIslandNodes s key → n ∈ getIslandNodes s key' →
     ∀ m, m ∈ getIslandNodes s key ↔ m ∈ getIslandNodes s key').
Proof.
  assert (Hlookup : getNodesPerIsland s !! key
                    = if decide (key ∈ GraphNode.id <$> getRootNodes s)
                      then Some (getIslandNodes s key) else None).
  { unfold getNodesPerIsland. apply (fold_insert_lookup (getIslandNodes s)). }
  split; [done|]. split.
  - intros island. rewrite Hlookup. case_decide as Hkey; [|done]. intros [= <-].
    split; [|split].
    + apply list_elem_of_fmap in Hkey as (r & -> & [_ Hr]%list_elem_of_filter).
      destruct (nodeWithId_found (nodes s) (GraphNode.id r)) as [n Hn];
        [by apply list_elem_of_fmap_2|].
      pose proof (nodeWithId_id _ _ _ Hn) as Hid.
      exists n. split; [|done]. apply getIslandNodes_elem.
      rewrite Hid. split; [apply rtc_refl|done].
    + intros n [_ Hn]%getIslandNodes_elem. by eapply nodeWithId_elem.
    + unfold getIslandNodes.
      by destruct (getIslandNodes_visited (nodes s) (edges s) key)
        as (result & vis & -> & _ & _ & Hnd).
  - intros key' n [Hc _]%getIslandNodes_elem [Hc' _]%getIslandNodes_elem m.
    rewrite !getIslandNodes_elem.
    assert (connected (edges s) key key').
    { etrans; [exact Hc|]. by apply connected_sym. }
    split; intros [Hm ?]; (split; [|done]).
    + etrans; [by apply connected_sym|done].
    + by etrans.
Qed.

(** The nodes and the edges of a batch are checked against what is held,
    not against each other: a node whose id is not held, given twice in one
    call, is added twice, and so is an edge with a key that is not held and
    both ends among the nodes. *)
Theorem a_batch_is_not_checked_against_itself prev n e :
  GraphNode.id n ∉ idsOf (nodes prev) →
  resolves (nodes prev) e →
  edgeKey e ∉ edgeKey <$> edges prev →
  nodes (addNodes [n; n] prev) = nodes prev ++ [n; n] ∧
  nodes (addNodesAndEdges [n; n] [e; e] prev) = nodes prev ++ [n; n] ∧
  edges (addNodesAndEdges [n; n] [e; e] prev) = edges prev ++ [e; e] ∧
  edges (addEdges [e; e] prev) = edges prev ++ [e; e].
Proof.
  intros Hn [Hs Ht] He. unfold idsOf in *.
  assert (Hfresh : GraphNode.id n ∉ (list_to_set (GraphNode.id <$> nodes prev) : gset string))
    by by rewrite elem_of_list_to_set.
  assert (Hkey : edgeKey e ∉ (list_to_set (edgeKey <$> edges prev) : gset string))
    by by rewrite elem_of_list_to_set.
  assert (Hkeep : keepEdge (list_to_set (GraphNode.id <$> nodes prev))
                           (list_to_set (edgeKey <$> edges prev)) e).
  { split; [|split; [|done]]; by apply elem_of_list_to_set. }
  assert (Hkeep' : keepEdge (list_to_set (GraphNode.id <$> nodes prev ++ [n; n]))
                            (list_to_set (edgeKey <$> edges prev)) e).
  { split; [|split; [|done]]; apply elem_of_list_to_set;
      rewrite fmap_app; apply elem_of_app; by left. }
  split; [|split; [|split]].
  - unfold addNodes. rewrite !filter_cons_True by done. by rewrite filter_nil.
  - unfold addNodesAndEdges. cbn [nodes]. by rewrite !filter_cons_True, filter_nil by done.
  - unfold addNodesAndEdges. cbn [edges].
    rewrite !(filter_cons_True _ n), filter_nil by done.
    by rewrite !filter_cons_True, filter_nil by done.
  - unfold addEdges. by rewrite !filter_cons_True, filter_nil by done.
Qed.

End IslandFacts.

(** ** The refs in the states the component can reach *)

Module EngineFacts.
Import Topology MindMap MergeVocab MergeFacts UpdateFacts UpdateClaims FrameFacts.

(** The array and the links of a state hold together: every entry of the
    array is a live object and every link joins two entries of the array. *)
Lemma refs_hold_together_step st st' refs links :
  sameIds st st' →
  Forall (λ r, is_Some (st !! r)) refs ∧
  Forall (λ l, SimLink.source l ∈ refs ∧ SimLink.target l ∈ refs) links →
  Forall (λ r, is_Some (st' !! r)) refs ∧
  Forall (λ l, SimLink.source l ∈ refs ∧ SimLink.target l ∈ refs) links.
Proof.
  intros Hsame [Hrefs Hlinks]. split; [|done].
  eapply Forall_impl; [exact Hrefs|]. intros r [n Hn].
  specialize (Hsame r). rewrite Hn in Hsame.
  destruct (st' !! r); [by eexists|done].
Qed.

(** In every state the component can reach, every entry of the array is a
    live object, every link joins two entries of the array, and the
    remembered ids are the ids of the objects of the array. *)
Theorem links_join_objects_of_the_array s :
  reachable s →
  Forall (λ r, is_Some (store s !! r)) (simNodesRef s) ∧
  Forall (λ l, SimLink.source l ∈ simNodesRef s ∧ SimLink.target l ∈ simNodesRef s)
         (simLinksRef s) ∧
  prevNodeIdsRef s = list_to_set (SimNode.id <$> simNodes s).
Proof.
  intros Hreach. split; [|split; [|by apply reachable_Inv]];
    induction Hreach as [|env nodes edges s _ IH|props lastTime now s _ IH
                         |move active s _ IH|t s _ _ IH
                         |props rect cx cy s _ IH|rect cx cy s _ IH|s _ IH];
    try done; try by constructor.
  - pose proof (inv_entries _ _ _ _ _ _ _ (update_inv env nodes edges s)) as Hent.
    rewrite update_store, update_simNodesRef. apply Forall_forall.
    intros r [i Hi]%list_elem_of_lookup.
    destruct (Forall2_lookup_l _ _ _ _ _ Hent Hi) as (node & _ & n & Hn & _).
    by exists n.
  - unfold render. destruct (negb _); [done|]. cbn [store simNodesRef].
    eapply (refs_hold_together_step _ _ _ []); [|split; [exact IH|constructor]].
    by apply (sameIds_alter_fold (λ _, animate _ _ _ _ _)).
  - unfold onTick. cbn [store simNodesRef].
    eapply (refs_hold_together_step _ _ _ []); [|split; [exact IH|constructor]].
    by apply (sameIds_alter_fold (λ _ n, setPhysics (move n) n)).
  - unfold handleCanvasClick. repeat (case_match; try done).
  - unfold handleMouseMove. destruct rect; [|done]. by case_decide.
  - rewrite update_simLinksRef. unfold buildLinks. apply Forall_fmap, Forall_forall.
    intros e [[[rs Hs] [rt Ht]] _]%list_elem_of_filter. simpl.
    rewrite (lookup_total_correct _ _ _ Hs), (lookup_total_correct _ _ _ Ht).
    apply jsMap_idPairs_Some in Hs as [? _]. apply jsMap_idPairs_Some in Ht as [? _].
    done.
  - unfold render. by destruct (negb _).
  - unfold handleCanvasClick. repeat (case_match; try done).
  - unfold handleMouseMove. destruct rect; [|done]. by case_decide.
Qed.

Lemma animate_settled now dt hov sel exp n :
  Num.ltb (SimNode.entranceProgress n) 1 = false →
  Num.ltb (SimNode.entranceProgress (animate now dt hov sel exp n)) 1 = false.
Proof. intros H. unfold animate. cbn [SimNode.entranceProgress]. by rewrite H. Qed.

Lemma iter_settled (g : SimNode.t → SimNode.t) c n :
  (∀ m, Num.ltb (SimNode.entranceProgress m) 1 = false →
        Num.ltb (SimNode.entranceProgress (g m)) 1 = false) →
  Num.ltb (SimNode.entranceProgress n) 1 = false →
  Num.ltb (SimNode.entranceProgress (Nat.iter c g n)) 1 = false.
Proof. intros Hg Hn. induction c as [|c IH]; [done|]. simpl. by apply Hg. Qed.

(** Once the simulation is at rest, no node is expanding and every
    entrance of the array is over, at most one frame animates: a frame
    changes nothing in the state left by the frame before it, so the scale
    and glow of a hovered or selected node stop after one step towards their
    targets. *)
Theorem frames_stop_after_one props lastTime now lastTime' now' s :
  isSimulationActiveRef s = false →
  expandingNodeId props = None →
  (∀ n, n ∈ simNodes s → Num.ltb (SimNode.entranceProgress n) 1 = false) →
  render props lastTime' now' (render props lastTime now s)
  = render props lastTime now s.
Proof.
  intros Hidle Hexp Hdone.
  assert (Hquiet : ∀ s0,
            needsRedrawRef s0 = false → isSimulationActiveRef s0 = false →
            (∀ n, n ∈ simNodes s0 → Num.ltb (SimNode.entranceProgress n) 1 = false) →
            render props lastTime' now' s0 = s0).
  { intros s0 Hneeds Hidle0 Hdone0. unfold render.
    assert (existsb (λ node, Num.ltb (SimNode.entranceProgress node) 1) (simNodes s0)
            = false) as ->.
    { apply not_true_iff_false. intros (n & Hn%list_elem_of_In & Hlt)%existsb_exists.
      rewrite (Hdone0 n Hn) in Hlt. done. }
    rewrite Hneeds, Hidle0, Hexp. done. }
  unfold render at 2 3. destruct (negb _) eqn:Eredraw.
  - apply Hquiet; [|done|done].
    apply negb_true_iff in Eredraw. by destruct (needsRedrawRef s).
  - apply Hquiet; [done|done|].
    intros n' (r & Hr & Hn')%UpdateFacts.elem_of_simNodes. cbn in Hr, Hn'.
    destruct (store s !! r) as [n|] eqn:Hn.
    + rewrite (fold_alter_lookup _ _ _ _ _ Hn) in Hn'. injection Hn' as <-.
      apply iter_settled; [intros m; apply animate_settled|].
      apply Hdone, UpdateFacts.elem_of_simNodes. by exists r.
    + exfalso. revert Hn'.
      pose proof (sameIds_alter_fold
                    (λ _, animate now (now - lastTime) (idOf s (hoveredNode s))
                                  (idOf s (selectedNode s)) (expandingNodeId props))
                    (simNodesRef s) (store s) (λ _ _, eq_refl) r) as Hsame.
      rewrite Hn in Hsame. intros Hn'. by rewrite Hn' in Hsame.
Qed.

End EngineFacts.

(** ** The theorems at concrete graphs *)

Module Instances.
Import Topology TopologyVocab DistanceVocab WalkVocab MergeVocab StoreVocab.
Import PaintVocab MindMap.
Local Open Scope string_scope.

Lemma depth_is_distance_witness :
  ∃ j r,
    islandMap (calculateDepthsAndIslands [Scenarios.A; Scenarios.B]
                 [Scenarios.edge "A" "B"]) !! "B" = Some j ∧
    rootNodesOf [Scenarios.A; Scenarios.B] !! j = Some r ∧
    shortest [Scenarios.edge "A" "B"] (GraphNode.id r) "B" 1.
Proof.
  apply (TopologyDistance.depth_is_distance_from_island_root
           [Scenarios.A; Scenarios.B] [Scenarios.edge "A" "B"] "B" 1).
  vm_compute. reflexivity.
Defined.

Lemma island_is_first_witness :
  ∃ r, rootNodesOf [Scenarios.A; Scenarios.B; Scenarios.X] !! 0%nat = Some r ∧
       reaches [Scenarios.edge "X" "B"; Scenarios.edge "A" "B"] (GraphNode.id r) "B" ∧
       ∀ j' r', rootNodesOf [Scenarios.A; Scenarios.B; Scenarios.X] !! j' = Some r' →
                reaches [Scenarios.edge "X" "B"; Scenarios.edge "A" "B"]
                        (GraphNode.id r') "B" → (0 ≤ j')%nat.
Proof.
  apply (TopologyDistance.island_is_first_reaching_root
           [Scenarios.A; Scenarios.B; Scenarios.X]
           [Scenarios.edge "X" "B"; Scenarios.edge "A" "B"] "B" 0).
  - intros r Hr. change (rootNodesOf _) with [Scenarios.A; Scenarios.X] in Hr.
    apply elem_of_cons in Hr as [->|Hr]; [discriminate|].
    apply list_elem_of_singleton in Hr as ->. discriminate.
  - vm_compute. reflexivity.
Defined.

Lemma maps_depend_witness :
  calculateDepthsAndIslands [Scenarios.A; Scenarios.B]
    [Scenarios.edge "A" "B"; Scenarios.edge "A" "A"; Scenarios.edge "A" "B"]
  = calculateDepthsAndIslands [Scenarios.A; Scenarios.B] [Scenarios.edge "A" "B"].
Proof.
  apply TopologyDistance.maps_depend_on_the_edge_relation_only.
  intros a b Hne. unfold edgeTo. split.
  - intros (e & He & <- & <-). exists (Scenarios.edge "A" "B").
    split; [apply list_elem_of_here|].
    apply elem_of_cons in He as [->|He]; [done|].
    apply elem_of_cons in He as [->|He]; [done|].
    apply list_elem_of_singleton in He as ->. done.
  - intros (e & ->%list_elem_of_singleton & <- & <-).
    exists (Scenarios.edge "A" "B"). split; [apply list_elem_of_here|done].
Defined.

Lemma island_in_component_witness :
  ∃ result,
    GraphState.getIslandNodes [Scenarios.A; Scenarios.B] [Scenarios.edge "A" "B"]
      (GraphNode.id Scenarios.A) = Some result ∧
    Scenarios.B ∈ result.
Proof.
  apply (WalkFacts.island_lies_in_the_component_of_its_root
           [Scenarios.A; Scenarios.B] [Scenarios.edge "A" "B"]
           Scenarios.B 0 Scenarios.A).
  - reflexivity.
  - vm_compute. reflexivity.
  - reflexivity.
Defined.

Lemma checked_reducers_witness :
  noDangling (GraphStore.addNodesAndEdges [Scenarios.B]
                [Scenarios.edge "A" "B"; Scenarios.edge "A" "Z"]
                (GraphStore.mkState [Scenarios.A] [] [])).
Proof.
  apply (GraphStoreFacts.checked_reducers_keep_edges_resolved
           (GraphStore.mkState [Scenarios.A] [] [])).
  constructor.
Defined.

Lemma node_ids_witness :
  NoDup (idsOf (GraphStore.nodes
                  (GraphStore.addNode Scenarios.A
                     (GraphStore.mkState [Scenarios.A] [] [])))).
Proof.
  apply (GraphStoreFacts.node_ids_stay_distinct
           (GraphStore.mkState [Scenarios.A] [] []) [Scenarios.B] [] Scenarios.A).
  apply NoDup_singleton.
Defined.

Lemma getContext_witness :
  (length (GraphStore.getContext (GraphStore.mkState [Scenarios.A; Scenarios.B] [] [])
             GraphStore.initialCache).2 ≤ GraphStore.MAX_CONTEXT_NODES)%nat.
Proof.
  apply (GraphStoreFacts.getContext_is_cached_by_node_count
           (GraphStore.mkState [Scenarios.A; Scenarios.B] [] [])
           GraphStore.initialCache).
  apply Nat.le_0_l.
Defined.

Lemma resolved_edges_witness :
  noDangling (GraphStore.mkState [Scenarios.A; Scenarios.B]
                [Scenarios.edge "A" "B"] []) ∧
  length (simLinksRef (update Scenarios.env0 [Scenarios.A; Scenarios.B]
                         [Scenarios.edge "A" "B"] initial)) = 1.
Proof.
  assert (H : noDangling (GraphStore.mkState [Scenarios.A; Scenarios.B]
                            [Scenarios.edge "A" "B"] [])).
  { constructor; [|constructor]. split.
    - apply list_elem_of_here.
    - apply list_elem_of_further, list_elem_of_here. }
  split; [exact H|].
  symmetry. apply (Forall2_length _ _ _
    (StoreToMindMap.every_resolved_edge_becomes_a_link Scenarios.env0 _ initial H)).
Defined.

Lemma animation_levels_witness :
  let s := update Scenarios.env0 [Scenarios.A; Scenarios.B]
                  [Scenarios.edge "A" "B"] initial in
  reachable s ∧ Forall animationBounded (store s).
Proof.
  intros s. assert (H : reachable s) by apply reach_update, reach_initial.
  split; [exact H|]. apply (FrameFacts.animation_levels_stay_in_range s H).
Defined.

Lemma entrance_witness :
  let s := Scenarios.stateOf
             [SimNode.mk "B" "Topic B" generated None 1 0
                (Some 10%Q) (Some 10%Q) None None 0%Q 1000%Q 1%Q (4 # 10)%Q 0%Q]
             zoomIdentity in
  ∃ n', store (render (mkProps false None true) 1284 1300 s) !! 0%nat = Some n' ∧
        SimNode.entranceProgress n' = (Num.min 1 ((1300 - 1000) / 600))%Q.
Proof.
  intros s.
  destruct (FrameFacts.entrance_follows_the_clock (mkProps false None true) 1284 1300 s 0
              (SimNode.mk "B" "Topic B" generated None 1 0
                 (Some 10%Q) (Some 10%Q) None None 0%Q 1000%Q 1%Q (4 # 10)%Q 0%Q))
    as (n' & Hn' & _ & Hp & _).
  - apply list_elem_of_here.
  - reflexivity.
  - exists n'. split; [exact Hn'|exact Hp].
Defined.

Lemma update_again_witness :
  update Scenarios.env0 [Scenarios.A; Scenarios.B] [Scenarios.edge "A" "B"]
    (update Scenarios.env0 [Scenarios.A; Scenarios.B] [Scenarios.edge "A" "B"] initial)
  = update Scenarios.env0 [Scenarios.A; Scenarios.B] [Scenarios.edge "A" "B"] initial.
Proof.
  apply UpdateAgain.update_again_changes_nothing.
  apply NoDup_cons. split; [|apply NoDup_singleton].
  intros H%list_elem_of_singleton. discriminate.
Defined.

Lemma batch_witness :
  GraphStore.nodes (GraphStore.addNodes [Scenarios.B; Scenarios.B]
                      (GraphStore.mkState [Scenarios.A] [] []))
  = [Scenarios.A; Scenarios.B; Scenarios.B].
Proof.
  apply (IslandFacts.a_batch_is_not_checked_against_itself
           (GraphStore.mkState [Scenarios.A] [] []) Scenarios.B
           (Scenarios.edge "A" "A")).
  - intros H%list_elem_of_singleton. discriminate.
  - split; apply list_elem_of_here.
  - apply not_elem_of_nil.
Defined.

Lemma links_join_witness :
  let s := update Scenarios.env0 [Scenarios.A; Scenarios.B]
                  [Scenarios.edge "A" "B"] initial in
  reachable s ∧
  Forall (λ l, SimLink.source l ∈ simNodesRef s ∧ SimLink.target l ∈ simNodesRef s)
         (simLinksRef s).
Proof.
  intros s. assert (H : reachable s) by apply reach_update, reach_initial.
  split; [exact H|]. apply (EngineFacts.links_join_objects_of_the_array s H).
Defined.

Lemma frames_stop_witness :
  let s := Scenarios.stateOf [Scenarios.simAt Scenarios.A 0 0] zoomIdentity in
  render (mkProps false None true) 16 32 (render (mkProps false None true) 0 16 s)
  = render (mkProps false None true) 0 16 s.
Proof.
  intros s. apply EngineFacts.frames_stop_after_one.
  - reflexivity.
  - reflexivity.
  - intros n Hn. change (simNodes s) with [Scenarios.simAt Scenarios.A 0 0] in Hn.
    apply list_elem_of_singleton in Hn as ->. reflexivity.
Defined.

End Instances.
